(** * new-lmage: the batch upload pipeline and the optimistic stores

    A shallow embedding of
    - [client/src/services/uploadService.js]: [createThrottle],
      [uploadSingleFile], [runWithConcurrency], the task list of
      [uploadFiles], [validateFile];
    - the image store: [runWithConcurrencyLimit], [deleteImages];
    - the favorite store: [addFavorite], [removeFavorite], [toggleFavorite],
      [addFavorites], [removeFavorites];
    - the rest of the upload path: [uploadFiles] and [uploadFile], the home
      page's [handleUpload] and copy actions, and the endpoint ([upload],
      [getFileId], [sendToTelegram]);
    - the other actions of the two stores: [deleteImage], the selection,
      [sortImages] and [setSortBy], [initFavorites], [clearError], [reset].

    JavaScript runs these on one thread.  An [async] function is modelled by
    the pieces between its suspension points: the synchronous prefix up to the
    first [await], and one resumption per settled promise.  The environment
    (network, timers, clock) is a list of events; every theorem quantifies
    over it.  JS numbers that take part in the percent arithmetic are
    binary64 floats ([PrimFloat]); counters, indices, sizes and clock readings
    are integers. *)

From Stdlib Require Import ZArith Floats Uint63 Ascii String Lia.
From stdpp Require Import base option list gmap strings pretty.

Open Scope string_scope.
Open Scope list_scope.
Open Scope nat_scope.

(* ================================================================== *)
(** ** JavaScript values shared by the three files                     *)
(* ================================================================== *)

Module JS.

(** A thrown or rejected error as the handlers read it: [error.message]
    and, for an HTTP error, [error.response?.data?.error] ([None] when any
    link of the optional chain is undefined). *)
Record Error := mkError {
  message : string;
  response_data_error : option string
}.

(** [new Error(msg)] *)
Definition new_Error (msg : string) : Error :=
  {| message := msg; response_data_error := None |}.

(** Truthiness of a string: only the empty string is falsy. *)
Definition truthy (s : string) : bool := negb (String.eqb s "").

(** [a || d] for a string [a] and a string literal [d]. *)
Definition or_else (a : string) (d : string) : string :=
  if truthy a then a else d.

(** [a || d] when [a] may also be undefined. *)
Definition opt_or_else (a : option string) (d : string) : string :=
  match a with
  | Some s => or_else s d
  | None => d
  end.

(** How an awaited promise settles. *)
Inductive settled (V : Type) : Type :=
| Fulfilled (v : V)
| Rejected (e : Error).
Arguments Fulfilled {V} v.
Arguments Rejected {V} e.

(** [a[i] = v] on an array that starts as [[]]: the array grows to hold
    index [i]; the slots skipped over read as [undefined]. *)
Definition array_set {A} (undefined : A) (a : list A) (i : nat) (v : A) : list A :=
  if decide (i < length a) then <[i := v]> a
  else a ++ replicate (i - length a) undefined ++ [v].

(** A number that holds an integer, as a binary64 float (exact below
    2^53, which covers file sizes). *)
Definition of_Z (z : Z) : float :=
  if (z <? 0)%Z then (- of_uint63 (Uint63.of_Z (- z)))%float
  else of_uint63 (Uint63.of_Z z).

(** [Math.round]: the nearest integer, ties towards +infinity; NaN,
    infinities, zeros and integers are returned as they are; a result in
    [[-0.5, 0)] is [-0].  Computed exactly on the float's mantissa and
    exponent. *)
Definition Math_round (x : float) : float :=
  match Prim2SF x with
  | S754_finite s m e =>
      if (0 <=? e)%Z then x
      else
        let d := (2 ^ (- e))%Z in
        let ms := if s then Z.neg m else Z.pos m in
        let n := ((2 * ms + d) / (2 * d))%Z in
        if (n =? 0)%Z && s then (-0)%float else of_Z n
  | _ => x
  end.

(** [Math.min] of two numbers: NaN when either is NaN (the order of the
    two zeros is not modelled). *)
Definition Math_min (a b : float) : float :=
  if is_nan a || is_nan b then nan
  else if (a <=? b)%float then a else b.

End JS.

(* ================================================================== *)
(** ** uploadService.js: createThrottle                                *)
(* ================================================================== *)

Module Throttle.
Section Throttle.

(** [A] is the argument list [fn] is called with. *)
Context {A : Type}.

(** The three variables the closure captures.  [timeoutId] is [Some d]
    while a timer is pending, [d] being the delay it was set with. *)
Record state := mkState {
  lastCall : Z;
  lastArgs : option A;
  timeoutId : option Z
}.

Definition createThrottle : state :=
  {| lastCall := 0; lastArgs := None; timeoutId := None |}.

(** Each operation returns the new closure state and the calls of [fn] it
    made, in order. *)

(** [throttled(...args)], [now] being what [Date.now()] returns. *)
Definition throttled (delay : Z) (args : A) (now : Z) (s : state) : state * list A :=
  if decide (delay <= now - lastCall s)%Z then
    ({| lastCall := now; lastArgs := Some args; timeoutId := timeoutId s |}, [args])
  else
    match timeoutId s with
    | None =>
        ({| lastCall := lastCall s; lastArgs := Some args;
            timeoutId := Some (delay - (now - lastCall s))%Z |}, [])
    | Some _ =>
        ({| lastCall := lastCall s; lastArgs := Some args; timeoutId := timeoutId s |}, [])
    end.

(** The function handed to [setTimeout], run when the timer fires. *)
Definition timeout_callback (now : Z) (s : state) : state * list A :=
  ({| lastCall := now; lastArgs := lastArgs s; timeoutId := None |},
   match lastArgs s with
   | Some args => [args]
   | None => []
   end).

(** [throttled.flush()] *)
Definition flush (s : state) : state * list A :=
  let timeoutId' := match timeoutId s with Some _ => None | None => timeoutId s end in
  match lastArgs s with
  | Some args => ({| lastCall := lastCall s; lastArgs := None; timeoutId := timeoutId' |}, [args])
  | None => ({| lastCall := lastCall s; lastArgs := lastArgs s; timeoutId := timeoutId' |}, [])
  end.

(** What can happen to one throttle. *)
Inductive event :=
  | Call (args : A) (now : Z)
  | TimerFires (now : Z)
  | Flush.

(** A timer fires only while it is pending. *)
Definition step (delay : Z) (s : state) (ev : event) : option (state * list A) :=
  match ev with
  | Call args now => Some (throttled delay args now s)
  | TimerFires now =>
      match timeoutId s with
      | Some _ => Some (timeout_callback now s)
      | None => None
      end
  | Flush => Some (flush s)
  end.

(** The state after a history of events, and every call of [fn] made. *)
Fixpoint run (delay : Z) (s : state) (evs : list event) : option (state * list A) :=
  match evs with
  | [] => Some (s, [])
  | ev :: evs' =>
      match step delay s ev with
      | Some (s', out) =>
          match run delay s' evs' with
          | Some (s'', out') => Some (s'', out ++ out')
          | None => None
          end
      | None => None
      end
  end.

End Throttle.
Arguments state : clear implicits.
Arguments event : clear implicits.
End Throttle.

(* ================================================================== *)
(** ** uploadService.js: files, results, validateFile                  *)
(* ================================================================== *)

Module File.

(** The fields of a browser [File] the service reads. *)
Record t := mk { name : string; size : Z; type : string }.
End File.

(** The record of a stored file in the endpoint's response; only [src] is
    read ([None]: the field is missing). *)
Record item := mkItem { src : option string }.

(** [response.data]: an array of records, one record, or nothing. *)
Inductive response_data :=
| DataArray (l : list item)
| DataObject (o : item)
| DataMissing.

Module Result.

(** The result objects are built field by field; a field that an object
    literal does not mention is [None]. *)
Record t := mk {
  success : bool;
  filename : option string;
  size : option Z;
  type : option string;
  data : option item;
  uploadTime : option string;
  error : option string
}.
End Result.

(** What a slot of the results array, or the [result] field of a progress
    event, can hold. *)
Inductive value :=
| undefined
| null
| object (r : Result.t).

Module Validate.

(** [(bytes / 1024 / 1024).toFixed(0)]: the division by 2^20 is exact in
    binary64, and [toFixed(0)] takes the nearest integer, the larger one
    on a tie, of the absolute value. *)
Definition toFixed0_MB (bytes : Z) : string :=
  if (bytes <? 0)%Z then "-" +:+ pretty ((- bytes + 2 ^ 19) / 2 ^ 20)%Z
  else pretty ((bytes + 2 ^ 19) / 2 ^ 20)%Z.

Definition size_message (maxSize : Z) : string :=
  "文件大小不能超过 " +:+ toFixed0_MB maxSize +:+ "MB".

(** [type.includes('*')] *)
Fixpoint includes_star (s : string) : bool :=
  match s with
  | EmptyString => false
  | String c s' => if Ascii.eqb c "*"%char then true else includes_star s'
  end.

(** [type.split('/')[0]] *)
Fixpoint mainType (s : string) : string :=
  match s with
  | EmptyString => EmptyString
  | String c s' => if Ascii.eqb c "/"%char then EmptyString else String c (mainType s')
  end.

(** [s.startsWith(p)] *)
Definition startsWith (s p : string) : bool := String.prefix p s.

Record options := mkOptions { maxSize : Z; allowedTypes : list string }.

Definition default_options : options :=
  {| maxSize := 10 * 1024 * 1024; allowedTypes := ["image/*"] |}.

Record validation := mkValidation { isValid : bool; errors : list string }.

Definition isValidType (file : File.t) (allowed : list string) : bool :=
  existsb
    (fun type =>
       if includes_star type then startsWith (File.type file) (mainType type)
       else String.eqb (File.type file) type)
    allowed.

Definition validateFile (file : File.t) (opts : options) : validation :=
  let errors := [] in
  let errors :=
    if (File.size file >? maxSize opts)%Z
    then errors ++ [size_message (maxSize opts)] else errors in
  let errors :=
    if negb (isValidType file (allowedTypes opts))
    then errors ++ ["不支持的文件类型"] else errors in
  {| isValid := bool_decide (length errors = 0); errors := errors |}.

End Validate.

(* ================================================================== *)
(** ** uploadService.js: uploadSingleFile                              *)
(* ================================================================== *)

Module Single.

(** What one call does to the outside world, in order: a request to the
    upload endpoint (attempt number), a progress report the request hands
    to [onProgress], a back-off timer. *)
Inductive effect :=
| Upload (attempt : nat)
| OnProgress (percent : float)
| SetTimeout (ms : Z).

Definition maxSize : Z := 10 * 1024 * 1024.

Section uploadSingleFile.

(** The remote endpoint: for each attempt, the progress reports the
    request makes and how it settles.  ([upload] of [@/utils/request] is
    not part of the sources; it is used only through its promise and the
    callback it is given.) *)
Variable upload : nat -> list float * JS.settled response_data.

(** [new Date().toISOString()] *)
Variable toISOString : string.

Definition failure (file : File.t) (error : string) : Result.t :=
  {| Result.success := false;
     Result.filename := Some (File.name file);
     Result.size := Some (File.size file);
     Result.type := Some (File.type file);
     Result.data := None;
     Result.uploadTime := None;
     Result.error := Some error |}.

(** [!result || !result.src] is false *)
Definition has_src (result : option item) : bool :=
  match result with
  | Some r => match src r with Some s => JS.truthy s | None => false end
  | None => false
  end.

(** The [try] block of one attempt: its return value, or what it throws. *)
Definition try_block (file : File.t) (attempt : nat) : Result.t + JS.Error :=
  match snd (upload attempt) with
  | JS.Fulfilled response =>
      let result :=
        match response with
        | DataArray l => head l
        | DataObject o => Some o
        | DataMissing => None
        end in
      if has_src result then
        inl {| Result.success := true;
               Result.filename := Some (File.name file);
               Result.size := Some (File.size file);
               Result.type := Some (File.type file);
               Result.data := result;
               Result.uploadTime := Some toISOString;
               Result.error := None |}
      else inr (JS.new_Error "上传失败：服务器返回数据格式错误")
  | JS.Rejected e => inr e
  end.

(** [error.response?.data?.error || error.message || '上传失败'] *)
Definition error_string (error : JS.Error) : string :=
  JS.or_else (JS.opt_or_else (JS.response_data_error error) (JS.message error)) "上传失败".

(** The [for] loop from [attempt] on, with [remaining = retries - attempt]
    iterations left.  Leaving the loop returns [undefined]. *)
Fixpoint retry_loop (file : File.t) (retries remaining attempt : nat)
  : list effect * JS.settled value :=
  match remaining with
  | 0 => ([], JS.Fulfilled undefined)
  | S remaining' =>
      let request := Upload attempt :: map OnProgress (fst (upload attempt)) in
      match try_block file attempt with
      | inl r => (request, JS.Fulfilled (object r))
      | inr error =>
          if bool_decide (attempt = retries - 1) then
            (request, JS.Fulfilled (object (failure file (error_string error))))
          else
            let '(rest, r) := retry_loop file retries remaining' (S attempt) in
            (request ++ SetTimeout (1000 * (Z.of_nat attempt + 1)) :: rest, r)
      end
  end.

Definition uploadSingleFile (file : File.t) (retries : nat)
  : list effect * JS.settled value :=
  if (File.size file >? maxSize)%Z then
    ([], JS.Fulfilled (object (failure file (Validate.size_message maxSize))))
  else retry_loop file retries retries 0.

End uploadSingleFile.
End Single.

(* ================================================================== *)
(** ** uploadService.js: runWithConcurrency                            *)
(* ================================================================== *)

Module Progress.

(** The object handed to [onProgress]. *)
Record t := mk {
  completed : nat;
  total : nat;
  percent : float;
  currentIndex : Z;
  result : value
}.
End Progress.

Module Batch.

(** How the progress callback behaves: given the calls made to it so far,
    oldest first, and the argument of this call, it returns ([None]) or
    throws. *)
Definition callback : Type := list Progress.t -> Progress.t -> option JS.Error.

(** The variables of one invocation.  [workers] holds, for each promise of
    the pool, the index of the task its [runTask] is awaiting, or [None]
    once that [runTask] has returned; [emitted] lists the calls of
    [onProgress], oldest first, a call that threw included; [returned] is
    set when the invocation's own promise settles. *)
Record pool := mkPool {
  results : list value;
  completed : nat;
  index : nat;
  fileProgress : list float;
  uploadedSizeCache : float;
  throttledProgress : option (Throttle.state Progress.t);
  workers : list (option nat);
  emitted : list Progress.t;
  returned : option (JS.settled (list value))
}.

(** What the environment does to a running pool: task [i] calls the
    progress callback it was given, the promise of task [i] settles (its
    awaiting [runTask] resumes), or the throttle's timer fires.  [now] is
    what [Date.now()] returns inside the step. *)
Inductive event :=
| TaskProgress (i : nat) (percent : float) (now : Z)
| TaskSettles (i : nat) (now : Z)
| TimerFires (now : Z).

Section runWithConcurrency.

(** Each task is given by how its promise settles. *)
Variable tasks : list (JS.settled value).
Variable files : list File.t.
Variable concurrency : nat.

(** The callback supplied, if any. *)
Variable onProgress : option callback.

(** [fn(...args)] for the calls the throttle makes, in order, up to the
    first that throws: the calls made, and what was thrown. *)
Fixpoint call_all (fn : callback) (emitted calls : list Progress.t)
  : list Progress.t * option JS.Error :=
  match calls with
  | [] => (emitted, None)
  | args :: rest =>
      match fn emitted args with
      | Some error => (emitted ++ [args], Some error)
      | None => call_all fn (emitted ++ [args]) rest
      end
  end.

(** The calls of [onProgress]; the throttle exists only when it does. *)
Definition call (emitted calls : list Progress.t) : list Progress.t * option JS.Error :=
  call_all (default (fun _ _ => None) onProgress) emitted calls.

Definition totalSize : float :=
  fold_left (fun sum file => (sum + JS.of_Z (File.size file))%float) files 0%float.

(** [Math.round((uploadedSizeCache / totalSize) * 100)] *)
Definition totalPercent (uploaded : float) : float :=
  JS.Math_round (uploaded / totalSize * 100)%float.

(** [throttledProgress({...})] when the throttle exists: the pool
    afterwards, and what the call threw.  The throttle updates its variables
    before it calls [fn]. *)
Definition report (args : Progress.t) (now : Z) (st : pool) : pool * option JS.Error :=
  match throttledProgress st with
  | Some th =>
      let '(th', calls) := Throttle.throttled 100 args now th in
      let '(emitted', thrown) := call (emitted st) calls in
      (mkPool (results st) (completed st) (index st) (fileProgress st)
              (uploadedSizeCache st) (Some th') (workers st)
              emitted' (returned st),
       thrown)
  | None => (st, None)
  end.

(** The callback handed to task [currentIndex], called with [percent].  It
    is called by the request, outside the pool's [try]: what [onProgress]
    throws here goes to the request helper, which is not part of the
    sources, and how the task then settles is the environment's to say. *)
Definition progress_callback (currentIndex : nat) (file : File.t)
           (percent : float) (now : Z) (st : pool) : pool :=
  let newProgress := (JS.of_Z (File.size file) * percent / 100)%float in
  let delta := (newProgress - default nan (fileProgress st !! currentIndex))%float in
  let uploaded := (uploadedSizeCache st + delta)%float in
  let st :=
    mkPool (results st) (completed st) (index st)
           (<[currentIndex := newProgress]> (fileProgress st))
           uploaded (throttledProgress st) (workers st)
           (emitted st) (returned st) in
  (report {| Progress.completed := completed st;
             Progress.total := length tasks;
             Progress.percent := JS.Math_min (totalPercent uploaded) 99;
             Progress.currentIndex := Z.of_nat currentIndex;
             Progress.result := null |} now st).1.

(** The slot written by the [catch] block. *)
Definition caught (error : JS.Error) : value :=
  object {| Result.success := false;
            Result.filename := None;
            Result.size := None;
            Result.type := None;
            Result.data := None;
            Result.uploadTime := None;
            Result.error := Some (JS.or_else (JS.message error) "上传失败") |}.

(** The four assignments made both after [await task(...)] in the [try]
    block and in the [catch] block: the slot is written, [completed] is
    incremented, and the file's progress is brought to its full size. *)
Definition settle (currentIndex : nat) (file : File.t) (slot : value) (st : pool) : pool :=
  let finalDelta :=
    (JS.of_Z (File.size file) - default nan (fileProgress st !! currentIndex))%float in
  mkPool (JS.array_set undefined (results st) currentIndex slot) (S (completed st)) (index st)
         (<[currentIndex := JS.of_Z (File.size file)]> (fileProgress st))
         (uploadedSizeCache st + finalDelta)%float (throttledProgress st) (workers st)
         (emitted st) (returned st).

(** The rest of the loop body once [await task(...)] settles.  The report
    of the completion is made inside the [try] block: when the callback
    throws there, the [catch] block runs on top of what the [try] block has
    already done. *)
Definition task_settled (currentIndex : nat) (file : File.t)
           (outcome : JS.settled value) (now : Z) (st : pool) : pool :=
  match outcome with
  | JS.Fulfilled result =>
      let st := settle currentIndex file result st in
      let '(st', thrown) :=
        report {| Progress.completed := completed st;
                  Progress.total := length tasks;
                  Progress.percent :=
                    if bool_decide (completed st = length tasks) then 100%float
                    else JS.Math_min (totalPercent (uploadedSizeCache st)) 99;
                  Progress.currentIndex := Z.of_nat currentIndex;
                  Progress.result := result |} now st in
      match thrown with
      | Some error => settle currentIndex file (caught error) st'
      | None => st'
      end
  | JS.Rejected error => settle currentIndex file (caught error) st
  end.

(** [runTask] of worker [w] at the head of its [while] loop: claim the
    next index and await that task, or return. *)
Definition runTask (w : nat) (st : pool) : pool :=
  if bool_decide (index st < length tasks) then
    mkPool (results st) (completed st) (S (index st)) (fileProgress st)
           (uploadedSizeCache st) (throttledProgress st)
           (<[w := Some (index st)]> (workers st))
           (emitted st) (returned st)
  else
    mkPool (results st) (completed st) (index st) (fileProgress st)
           (uploadedSizeCache st) (throttledProgress st)
           (<[w := None]> (workers st))
           (emitted st) (returned st).

(** The event sent after [flush] at the end of the call. *)
Definition final (st : pool) : Progress.t :=
  {| Progress.completed := length tasks;
     Progress.total := length tasks;
     Progress.percent := 100%float;
     Progress.currentIndex := (Z.of_nat (length tasks) - 1)%Z;
     Progress.result := default undefined (last (results st)) |}.

(** The lines after [await Promise.all(workers)].  They are in no [try]
    block: what the callback throws, in [flush] or on the final event,
    rejects the promise of the call.  When [fn] throws inside [flush] the
    held arguments are not reset. *)
Definition finish (st : pool) : pool :=
  match throttledProgress st with
  | Some th =>
      let '(th', calls) := Throttle.flush th in
      match call (emitted st) calls with
      | (emitted', Some error) =>
          mkPool (results st) (completed st) (index st) (fileProgress st)
                 (uploadedSizeCache st)
                 (Some {| Throttle.lastCall := Throttle.lastCall th;
                          Throttle.lastArgs := Throttle.lastArgs th;
                          Throttle.timeoutId := None |})
                 (workers st) emitted' (Some (JS.Rejected error))
      | (emitted', None) =>
          let '(emitted'', thrown) := call emitted' [final st] in
          mkPool (results st) (completed st) (index st) (fileProgress st)
                 (uploadedSizeCache st) (Some th') (workers st) emitted''
                 (Some match thrown with
                       | Some error => JS.Rejected error
                       | None => JS.Fulfilled (results st)
                       end)
      end
  | None =>
      mkPool (results st) (completed st) (index st) (fileProgress st)
             (uploadedSizeCache st) None (workers st)
             (emitted st) (Some (JS.Fulfilled (results st)))
  end.

(** [Promise.all(workers)] has resolved: every [runTask] has returned. *)
Definition all_returned (st : pool) : bool :=
  forallb (fun o => bool_decide (o = None)) (workers st).

Definition await_workers (st : pool) : pool :=
  if all_returned st then finish st else st.

(** The call itself, up to [await Promise.all(workers)]: the variables
    are initialised and the [min(concurrency, tasks.length)] workers are
    started one after the other, each running to its first [await]. *)
Definition runWithConcurrency : pool :=
  let n := min concurrency (length tasks) in
  let st :=
    {| results := [];
       completed := 0;
       index := 0;
       fileProgress := replicate (length files) 0%float;
       uploadedSizeCache := 0%float;
       throttledProgress :=
         match onProgress with Some _ => Some Throttle.createThrottle | None => None end;
       workers := replicate n None;
       emitted := [];
       returned := None |} in
  await_workers (foldl (fun st w => runTask w st) st (seq 0 n)).

(** The worker awaiting task [i], if any. *)
Definition worker_of (i : nat) (st : pool) : option nat :=
  fst <$> list_find (fun o => o = Some i) (workers st).

(** One step of a pool that has not returned.  An event that cannot
    happen in the current state gives [None]: a report or a settlement of
    a task no worker awaits, a timer that is not pending.  The only caller,
    [uploadFiles], passes one task per file; an index without a file is
    outside the model ([None]).  What the callback throws when the timer
    calls it is thrown in the timer, outside the pool. *)
Definition step (st : pool) (ev : event) : option pool :=
  match returned st with
  | Some _ => None
  | None =>
      match ev with
      | TaskProgress i percent now =>
          match worker_of i st, files !! i with
          | Some _, Some file => Some (progress_callback i file percent now st)
          | _, _ => None
          end
      | TaskSettles i now =>
          match worker_of i st, files !! i, tasks !! i with
          | Some w, Some file, Some outcome =>
              Some (await_workers (runTask w (task_settled i file outcome now st)))
          | _, _, _ => None
          end
      | TimerFires now =>
          match throttledProgress st with
          | Some th =>
              match Throttle.timeoutId th with
              | Some _ =>
                  let '(th', calls) := Throttle.timeout_callback now th in
                  Some (mkPool (results st) (completed st) (index st) (fileProgress st)
                               (uploadedSizeCache st) (Some th') (workers st)
                               (call (emitted st) calls).1 (returned st))
              | None => None
              end
          | None => None
          end
      end
  end.

Fixpoint run (st : pool) (evs : list event) : option pool :=
  match evs with
  | [] => Some st
  | ev :: evs' =>
      match step st ev with
      | Some st' => run st' evs'
      | None => None
      end
  end.

End runWithConcurrency.

(** [uploadFiles]: the task of a file is a call of [uploadSingleFile] on it;
    [upload file] is the endpoint's behaviour for that file's requests. *)
Definition tasks_of_files (upload : File.t -> nat -> list float * JS.settled response_data)
           (toISOString : string) (retries : nat) (files : list File.t)
  : list (JS.settled value) :=
  map (fun file => (Single.uploadSingleFile (upload file) toISOString file retries).2) files.

End Batch.

(* ================================================================== *)
(** ** The image store: runWithConcurrencyLimit and deleteImages       *)
(* ================================================================== *)

Module Limit.
Section runWithConcurrencyLimit.

(** [R] is what a task's promise resolves with. *)
Context {R : Type}.

(** A slot of the results array: never written, the task's value, or the
    object [{ error: error.message }] of the [catch] block. *)
Inductive slot :=
  | undefined
  | resolved (r : R)
  | caught (error : string).

Record pool := mkPool {
  results : list slot;
  index : nat;
  workers : list (option nat);
  returned : option (JS.settled (list slot))
}.

Variable tasks : list (JS.settled R).
Variable limit : nat.

(** [runTask] of worker [w] at the head of its [while] loop. *)
Definition runTask (w : nat) (st : pool) : pool :=
  if bool_decide (index st < length tasks) then
    mkPool (results st) (S (index st)) (<[w := Some (index st)]> (workers st)) (returned st)
  else
    mkPool (results st) (index st) (<[w := None]> (workers st)) (returned st).

(** The [try]/[catch] around [await tasks[currentIndex]()]. *)
Definition task_settled (currentIndex : nat) (outcome : JS.settled R) (st : pool) : pool :=
  let slot :=
    match outcome with
    | JS.Fulfilled r => resolved r
    | JS.Rejected error => caught (JS.message error)
    end in
  mkPool (JS.array_set undefined (results st) currentIndex slot)
         (index st) (workers st) (returned st).

Definition all_returned (st : pool) : bool :=
  forallb (fun o => bool_decide (o = None)) (workers st).

(** [await Promise.all(workers); return results] *)
Definition await_workers (st : pool) : pool :=
  if all_returned st then
    mkPool (results st) (index st) (workers st) (Some (JS.Fulfilled (results st)))
  else st.

(** The call itself, up to [await Promise.all(workers)]: the
    [min(limit, tasks.length)] workers are started one after the other,
    each running to its first [await]. *)
Definition runWithConcurrencyLimit : pool :=
  let n := min limit (length tasks) in
  let st := {| results := []; index := 0; workers := replicate n None; returned := None |} in
  await_workers (foldl (fun st w => runTask w st) st (seq 0 n)).

Definition worker_of (i : nat) (st : pool) : option nat :=
  fst <$> list_find (fun o => o = Some i) (workers st).

(** The promise of task [i] settles and its awaiting [runTask] resumes. *)
Definition step (st : pool) (i : nat) : option pool :=
  match returned st with
  | Some _ => None
  | None =>
      match worker_of i st, tasks !! i with
      | Some w, Some outcome => Some (await_workers (runTask w (task_settled i outcome st)))
      | _, _ => None
      end
  end.

Fixpoint run (st : pool) (order : list nat) : option pool :=
  match order with
  | [] => Some st
  | i :: order' =>
      match step st i with
      | Some st' => run st' order'
      | None => None
      end
  end.

End runWithConcurrencyLimit.
Arguments slot : clear implicits.
Arguments pool : clear implicits.
End Limit.

(** What every store action returns: [{ success, error? }]. *)
Record ActionResult := mkActionResult {
  action_success : bool;
  action_error : option string
}.

(** An image as the stores read it. *)
Record Image := mkImage { id : string; fileName : string }.

Module ImageStore.

(** The part of the store [deleteImages] reads or writes. *)
Record state := mkState {
  images : list Image;
  selectedImages : gset string;
  isSelectionMode : bool;
  isLoading : bool;
  error : option string
}.

(** Up to [await runWithConcurrencyLimit(deleteTasks, 5)]:
    [set({ isLoading: true, error: null })]. *)
Definition deleteImages_begin (st : state) : state :=
  mkState (images st) (selectedImages st) (isSelectionMode st) true None.

(** From the [await] on, [awaited] being how the limiter's promise settled
    and [st] the store at that moment. *)
Definition deleteImages_resume {R} (imageIds : list string)
           (awaited : JS.settled (list (Limit.slot R))) (st : state)
  : state * ActionResult :=
  match awaited with
  | JS.Fulfilled _ =>
      (mkState (filter (fun img => id img ∉ imageIds) (images st)) ∅ false false None,
       {| action_success := true; action_error := None |})
  | JS.Rejected error =>
      let errorMessage := JS.opt_or_else (JS.response_data_error error) "批量删除失败" in
      (mkState (images st) (selectedImages st) (isSelectionMode st) false (Some errorMessage),
       {| action_success := false; action_error := Some errorMessage |})
  end.

(** The whole action when nothing else touches the store meanwhile:
    [axios_delete k id] is how the [k]-th request, for [id], settles, and
    [order] the order in which the requests settle.  [None]: [order] is not
    a complete run of the limiter. *)
Definition deleteImages {R} (axios_delete : nat -> string -> JS.settled R)
           (imageIds : list string) (order : list nat) (st : state)
  : option (state * ActionResult) :=
  let deleteTasks := imap axios_delete imageIds in
  match Limit.run deleteTasks (Limit.runWithConcurrencyLimit deleteTasks 5) order with
  | Some p =>
      match Limit.returned p with
      | Some awaited => Some (deleteImages_resume imageIds awaited (deleteImages_begin st))
      | None => None
      end
  | None => None
  end.

End ImageStore.

(* ================================================================== *)
(** ** The favorite store                                              *)
(* ================================================================== *)

Module FavoriteStore.

Record state := mkState {
  favorites : gset string;
  favoriteImages : list Image;
  isLoading : bool;
  error : option string
}.

(** The values captured before the optimistic update. *)
Record snapshot := mkSnapshot {
  oldFavorites : gset string;
  oldFavoriteImages : list Image
}.

(** The [catch] block shared in shape by the four mutations: roll back the
    given fields, then [set({ error: errorMessage })]. *)
Definition failed (fallback : string) (error : JS.Error) (rolled_back : state)
  : state * ActionResult :=
  let errorMessage := JS.opt_or_else (JS.response_data_error error) fallback in
  (mkState (favorites rolled_back) (favoriteImages rolled_back) (isLoading rolled_back)
           (Some errorMessage),
   {| action_success := false; action_error := Some errorMessage |}).

(** *** addFavorite *)

(** Up to [await axios.post(...)]. *)
Definition addFavorite_begin (imageId : string) (st : state) : snapshot * state :=
  (mkSnapshot (favorites st) (favoriteImages st),
   mkState (favorites st ∪ {[imageId]}) (favoriteImages st) (isLoading st) (error st)).

(** From the [await] on; [st] is the store at that moment. *)
Definition addFavorite_resume {R} (snap : snapshot) (awaited : JS.settled R) (st : state)
  : state * ActionResult :=
  match awaited with
  | JS.Fulfilled _ => (st, {| action_success := true; action_error := None |})
  | JS.Rejected err =>
      failed "添加收藏失败" err
             (mkState (oldFavorites snap) (favoriteImages st) (isLoading st) (error st))
  end.

Definition addFavorite {R} (imageId : string) (awaited : JS.settled R) (st : state)
  : state * ActionResult :=
  let '(snap, st') := addFavorite_begin imageId st in
  addFavorite_resume snap awaited st'.

(** *** removeFavorite *)

Definition removeFavorite_begin (imageId : string) (st : state) : snapshot * state :=
  (mkSnapshot (favorites st) (favoriteImages st),
   mkState (favorites st ∖ {[imageId]})
           (filter (fun img => id img ≠ imageId) (favoriteImages st))
           (isLoading st) (error st)).

Definition removeFavorite_resume {R} (snap : snapshot) (awaited : JS.settled R) (st : state)
  : state * ActionResult :=
  match awaited with
  | JS.Fulfilled _ => (st, {| action_success := true; action_error := None |})
  | JS.Rejected err =>
      failed "取消收藏失败" err
             (mkState (oldFavorites snap) (oldFavoriteImages snap) (isLoading st) (error st))
  end.

Definition removeFavorite {R} (imageId : string) (awaited : JS.settled R) (st : state)
  : state * ActionResult :=
  let '(snap, st') := removeFavorite_begin imageId st in
  removeFavorite_resume snap awaited st'.

(** *** toggleFavorite *)

Definition toggleFavorite {R} (imageId : string) (awaited : JS.settled R) (st : state)
  : state * ActionResult :=
  if bool_decide (imageId ∈ favorites st) then removeFavorite imageId awaited st
  else addFavorite imageId awaited st.

(** *** addFavorites *)

Definition addFavorites_begin (imageIds : list string) (st : state) : snapshot * state :=
  (mkSnapshot (favorites st) (favoriteImages st),
   mkState (favorites st ∪ list_to_set imageIds) (favoriteImages st) (isLoading st) (error st)).

Definition addFavorites_resume {R} (snap : snapshot) (awaited : JS.settled R) (st : state)
  : state * ActionResult :=
  match awaited with
  | JS.Fulfilled _ => (st, {| action_success := true; action_error := None |})
  | JS.Rejected err =>
      failed "批量添加收藏失败" err
             (mkState (oldFavorites snap) (favoriteImages st) (isLoading st) (error st))
  end.

Definition addFavorites {R} (imageIds : list string) (awaited : JS.settled R) (st : state)
  : state * ActionResult :=
  let '(snap, st') := addFavorites_begin imageIds st in
  addFavorites_resume snap awaited st'.

(** *** removeFavorites *)

Definition removeFavorites_begin (imageIds : list string) (st : state) : snapshot * state :=
  (mkSnapshot (favorites st) (favoriteImages st),
   mkState (foldl (fun newFavorites id => newFavorites ∖ {[id]}) (favorites st) imageIds)
           (filter (fun img => id img ∉ imageIds) (favoriteImages st))
           (isLoading st) (error st)).

Definition removeFavorites_resume {R} (snap : snapshot) (awaited : JS.settled R) (st : state)
  : state * ActionResult :=
  match awaited with
  | JS.Fulfilled _ => (st, {| action_success := true; action_error := None |})
  | JS.Rejected err =>
      failed "批量取消收藏失败" err
             (mkState (oldFavorites snap) (oldFavoriteImages snap) (isLoading st) (error st))
  end.

Definition removeFavorites {R} (imageIds : list string) (awaited : JS.settled R) (st : state)
  : state * ActionResult :=
  let '(snap, st') := removeFavorites_begin imageIds st in
  removeFavorites_resume snap awaited st'.

End FavoriteStore.

(* ================================================================== *)
(** ** Predicates and concrete runs used by the properties             *)
(* ================================================================== *)

(** A pending timer always has arguments to deliver: [throttled] stores
    [lastArgs] before it sets a timer, and only [flush], which also clears
    the timer, resets them. *)
Definition timer_has_args {A} (s : Throttle.state A) : Prop :=
  is_Some (Throttle.timeoutId s) -> is_Some (Throttle.lastArgs s).

(** The clock reading used in the concrete runs below (milliseconds since
    the epoch, as [Date.now()] returns them). *)
Definition t0 : Z := 1700000000000.

(** A throttle that has made one call, delivered at once. *)
Definition called_once : Throttle.state string :=
  (Throttle.throttled 100 "a" t0 Throttle.createThrottle).1.

(** A second call 10 ms later: it is deferred, and a timer is pending. *)
Definition deferred_call : Throttle.state string :=
  (Throttle.throttled 100 "b" (t0 + 10)%Z called_once).1.

(** Attempt [n] of an upload fails: the request is rejected, or the
    response carries no usable [src] and the [try] block throws. *)
Definition attempt_fails (upload : nat -> list float * JS.settled response_data)
           (toISOString : string) (file : File.t) (n : nat) : Prop :=
  exists error, Single.try_block upload toISOString file n = inr error.

Definition photo : File.t := File.mk "photo.png" 100 "image/png".
Definition notes : File.t := File.mk "notes.txt" 100 "text/plain".
Definition huge : File.t := File.mk "huge.png" (20 * 1024 * 1024) "image/png".

Definition stored : item := {| src := Some "/file/abc.png" |}.

(** An endpoint that stores every file at the first request. *)
Definition reliable (n : nat) : list float * JS.settled response_data :=
  ([], JS.Fulfilled (DataArray [stored])).

(** An endpoint whose first two requests die on the network, after reporting
    80 and 10 percent, and whose third request succeeds. *)
Definition flaky (n : nat) : list float * JS.settled response_data :=
  match n with
  | 0 => ([80%float], JS.Rejected (JS.mkError "Network Error" None))
  | 1 => ([10%float], JS.Rejected (JS.mkError "Network Error" None))
  | _ => ([100%float], JS.Fulfilled (DataArray [stored]))
  end.

(** An endpoint that refuses every request with an error payload. *)
Definition refusing (n : nat) : list float * JS.settled response_data :=
  ([], JS.Rejected (JS.mkError "Request failed with status code 500" (Some "storage quota exceeded"))).

Definition stamp : string := "2026-01-01T00:00:00.000Z".

(** Stores used in the concrete runs: two favorites, two images. *)
Definition two_favorites : FavoriteStore.state :=
  FavoriteStore.mkState {["a"; "b"]} [mkImage "a" "a.png"; mkImage "b" "b.png"] false None.

Definition server_down : JS.Error :=
  JS.mkError "Request failed with status code 503" (Some "service unavailable").

(** *** The cursor, the results array and the workers of a pool *)

(** The number of workers still awaiting a task. *)
Fixpoint awaiting (workers : list (option nat)) : nat :=
  match workers with
  | [] => 0
  | Some _ :: workers' => S (awaiting workers')
  | None :: workers' => awaiting workers'
  end.

(** What both pools maintain between two steps, [N] being the number of
    tasks, [expected i] the slot task [i] must leave in the results array and
    [done] the tasks that have settled so far, latest first: tasks below the
    cursor are either awaited by a worker or settled with their slot
    written; nothing is written at or above the cursor; a worker returns
    only when the cursor is exhausted. *)
Record core_inv {V : Type} (N : nat) (expected : nat -> V) (done : list nat)
       (index : nat) (results : list V) (workers : list (option nat)) : Prop :=
  mkCoreInv {
    core_index : index <= N;
    core_length : length results <= index;
    core_settled : forall i, i < index -> Some i ∉ workers ->
                             i ∈ done /\ results !! i = Some (expected i);
    core_awaited : forall i, Some i ∈ workers -> i < index;
    core_exit : None ∈ workers -> index = N;
    core_count : length done + awaiting workers = index
  }.

(** *** runWithConcurrencyLimit *)

(** The slot a settled task leaves in the results array. *)
Definition limit_slot {R} (outcome : JS.settled R) : Limit.slot R :=
  match outcome with
  | JS.Fulfilled r => Limit.resolved r
  | JS.Rejected error => Limit.caught (JS.message error)
  end.

Definition limit_expected {R} (tasks : list (JS.settled R)) (i : nat) : Limit.slot R :=
  default Limit.undefined (limit_slot <$> tasks !! i).

(** What holds of the limiter between two steps, [done] being the tasks
    that have settled so far. *)
Record limit_inv {R} (tasks : list (JS.settled R)) (limit : nat) (done : list nat)
       (st : Limit.pool R) : Prop :=
  mkLimitInv {
    li_core : core_inv (length tasks) (limit_expected tasks) done
                       (Limit.index st) (Limit.results st) (Limit.workers st);
    li_workers : 1 <= length tasks -> 1 <= limit -> Limit.workers st <> [];
    li_returned : Limit.returned st
                  = if Limit.all_returned st
                    then Some (JS.Fulfilled (Limit.results st)) else None
  }.

(** *** runWithConcurrency *)

(** The slot a settled task leaves in the results array. *)
Definition batch_slot (outcome : JS.settled value) : value :=
  match outcome with
  | JS.Fulfilled result => result
  | JS.Rejected error => Batch.caught error
  end.

Definition batch_expected (tasks : list (JS.settled value)) (i : nat) : value :=
  default undefined (batch_slot <$> tasks !! i).

(** The tasks that settle in a run of events, in order. *)
Definition settles (evs : list Batch.event) : list nat :=
  omap (fun ev => match ev with Batch.TaskSettles i _ => Some i | _ => None end) evs.

(** A percent that is not above 99. *)
Definition capped (e : Progress.t) : Prop :=
  (99 <? Progress.percent e)%float = false.

(** A percent of exactly 100. *)
Definition full (e : Progress.t) : Prop :=
  Progress.percent e = 100%float.

(** A callback that never throws; no callback at all is quiet too. *)
Definition quiet (onProgress : option Batch.callback) : Prop :=
  forall fn, onProgress = Some fn -> forall emitted args, fn emitted args = None.

(** The event reported, inside the [try] block, by the last task to settle
    when it is fulfilled. *)
Definition completion_event (tasks : list (JS.settled value)) (i : nat) (result : value)
  : Progress.t :=
  {| Progress.completed := length tasks;
     Progress.total := length tasks;
     Progress.percent := 100%float;
     Progress.currentIndex := Z.of_nat i;
     Progress.result := result |}.

(** The event sent after [flush] at the end of the call. *)
Definition final_event (tasks : list (JS.settled value)) (results : list value) : Progress.t :=
  {| Progress.completed := length tasks;
     Progress.total := length tasks;
     Progress.percent := 100%float;
     Progress.currentIndex := (Z.of_nat (length tasks) - 1)%Z;
     Progress.result := default undefined (last results) |}.

(** What holds of the upload pool between two steps when the callback
    does not throw, [done] being the tasks that have settled so far, latest
    first. *)
Record batch_inv (tasks : list (JS.settled value)) (concurrency : nat)
       (onProgress : option Batch.callback) (done : list nat) (st : Batch.pool) : Prop :=
  mkBatchInv {
    bi_core : core_inv (length tasks) (batch_expected tasks) done
                       (Batch.index st) (Batch.results st) (Batch.workers st);
    bi_workers : 1 <= length tasks -> 1 <= concurrency -> Batch.workers st <> [];
    bi_completed : Batch.completed st = length done;
    bi_throttle : Batch.throttledProgress st = None <-> onProgress = None;
    bi_running : Batch.returned st = None ->
                 Batch.all_returned st = false
                 /\ (forall e, e ∈ Batch.emitted st -> capped e)
                 /\ (forall th args, Batch.throttledProgress st = Some th ->
                                     Throttle.lastArgs th = Some args -> capped args);
    bi_returned : forall r, Batch.returned st = Some r ->
                  Batch.all_returned st = true
                  /\ r = JS.Fulfilled (Batch.results st)
                  /\ exists low high,
                       Batch.emitted st
                       = low ++ high ++ match onProgress with
                                        | Some _ => [final_event tasks (Batch.results st)]
                                        | None => []
                                        end
                       /\ Forall capped low
                       /\ Forall full high
                       /\ (onProgress <> None ->
                           forall i result,
                             head done = Some i ->
                             tasks !! i = Some (JS.Fulfilled result) ->
                             exists earlier,
                               low ++ high = earlier ++ [completion_event tasks i result])
  }.

(** A callback that returns on every call. *)
Definition silent : Batch.callback := fun _ _ => None.

(** A callback that throws on every call, and one that throws on its first
    call only. *)
Definition boom : JS.Error := JS.mkError "boom" None.
Definition throwing : Batch.callback := fun _ _ => Some boom.
Definition throws_once : Batch.callback :=
  fun emitted _ => match emitted with [] => Some boom | _ :: _ => None end.

(** The batch of one image, stored by the endpoint at the first attempt,
    run with callback [fn]: the upload settles at [t0]. *)
Definition photo_tasks : list (JS.settled value) :=
  Batch.tasks_of_files (fun _ => reliable) stamp 3 [photo].

Definition photo_batch (fn : Batch.callback) : option Batch.pool :=
  Batch.run photo_tasks [photo] (Some fn)
    (Batch.runWithConcurrency photo_tasks [photo] 5 (Some fn)) [Batch.TaskSettles 0 t0].

(** Two tasks handed to the pool, the first of them rejected, and their run
    by a single worker. *)
Definition network_error : JS.Error := JS.mkError "Network Error" None.

Definition mixed_tasks : list (JS.settled value) :=
  [JS.Rejected network_error;
   JS.Fulfilled (object (Result.mk true (Some "photo.png") (Some 100%Z) (Some "image/png")
                                   (Some stored) (Some stamp) None))].

Definition mixed_batch : option Batch.pool :=
  Batch.run mixed_tasks [notes; photo] (Some silent)
    (Batch.runWithConcurrency mixed_tasks [notes; photo] 1 (Some silent))
    [Batch.TaskSettles 0 t0; Batch.TaskSettles 1 (t0 + 50)%Z].

(** Two empty files, both stored by the endpoint. *)
Definition empty_a : File.t := File.mk "a.png" 0 "image/png".
Definition empty_b : File.t := File.mk "b.png" 0 "image/png".

(** The run of a batch of the two empty files: the first upload settles at
    [t0], the second 300 ms later. *)
Definition empty_tasks : list (JS.settled value) :=
  Batch.tasks_of_files (fun _ => reliable) stamp 3 [empty_a; empty_b].

Definition empty_batch : option Batch.pool :=
  Batch.run empty_tasks [empty_a; empty_b] (Some silent)
    (Batch.runWithConcurrency empty_tasks [empty_a; empty_b] 5 (Some silent))
    [Batch.TaskSettles 0 t0; Batch.TaskSettles 1 (t0 + 300)%Z].

(** The percents of the events a pool has emitted, oldest first. *)
Definition percents (st : option Batch.pool) : list float :=
  match st with
  | Some st => Progress.percent <$> Batch.emitted st
  | None => []
  end.

(** The run of a batch of one 100-byte file uploaded through the flaky
    endpoint: the progress reports of the three attempts reach the pool
    as the requests make them, the back-off delays between them. *)
Definition flaky_tasks : list (JS.settled value) :=
  Batch.tasks_of_files (fun _ => flaky) stamp 3 [photo].

Definition flaky_batch : option Batch.pool :=
  Batch.run flaky_tasks [photo] (Some silent)
    (Batch.runWithConcurrency flaky_tasks [photo] 5 (Some silent))
    [Batch.TaskProgress 0 80 t0;
     Batch.TaskProgress 0 10 (t0 + 1200)%Z;
     Batch.TaskProgress 0 100 (t0 + 3400)%Z;
     Batch.TaskSettles 0 (t0 + 3600)%Z].




(** Three delete requests of which the second dies on the network. *)
Definition three_deletes : list (JS.settled nat) :=
  [JS.Fulfilled 204; JS.Rejected (JS.mkError "Network Error" None); JS.Fulfilled 204].

(** A store of three images, two of them selected. *)
Definition gallery : ImageStore.state :=
  ImageStore.mkState [mkImage "a" "a.png"; mkImage "b" "b.png"; mkImage "c" "c.png"]
                     {["a"; "b"]} true false None.

(** A remote that refuses every delete. *)
Definition refuse_delete (k : nat) (imageId : string) : JS.settled nat :=
  JS.Rejected (JS.mkError "Request failed with status code 500" (Some "delete failed")).

(* ================================================================== *)
(** ** uploadService.js: uploadFiles and uploadFile                    *)
(* ================================================================== *)

Module Summary.
Record t := mk { total : nat; success : nat; failed : nat }.
End Summary.

Module BatchResult.
(** What [uploadFiles] resolves with. *)
Record t := mk {
  success : bool;
  data : list value;
  summary : option Summary.t;
  error : option string
}.
End BatchResult.

Module Service.

(** The [options] argument; a property left out is [None]. *)
Record options := mkOptions { concurrency : option nat; retries : option nat }.

(** [r.success] for an element of the results array.  Reading a property of
    [undefined] or [null] throws a TypeError ([None]). *)
Definition success_of (r : value) : option bool :=
  match r with
  | object o => Some (Result.success o)
  | undefined | null => None
  end.

(** [results.filter(r => keep(r.success))]; [None] when the callback
    throws. *)
Fixpoint filter_results (keep : bool -> bool) (results : list value) : option (list value) :=
  match results with
  | [] => Some []
  | r :: rest =>
      match success_of r with
      | None => None
      | Some b =>
          match filter_results keep rest with
          | None => None
          | Some kept => Some (if keep b then r :: kept else kept)
          end
      end
  end.

Section uploadFiles.
(** The remote endpoint, by file index and attempt. *)
Variable upload : nat -> nat -> list float * JS.settled response_data.
Variable toISOString : string.
(** The message of the TypeError the engine raises on [undefined.success]. *)
Variable typeError : string.

(** [files.map(file => (onFileProgress) => uploadSingleFile(file, retries,
    onFileProgress))], each task given by how its promise settles. *)
Definition tasks (retries : nat) (files : list File.t) : list (JS.settled value) :=
  imap (fun i file => (Single.uploadSingleFile (upload i) toISOString file retries).2) files.

(** The [catch] block of [uploadFiles]. *)
Definition failed (error : JS.Error) : BatchResult.t :=
  {| BatchResult.success := false;
     BatchResult.data := [];
     BatchResult.summary := None;
     BatchResult.error := Some (JS.or_else (JS.message error) "批量上传失败") |}.

(** The lines of the [try] block after the pool has returned [results]. *)
Definition summarize (results : list value) : BatchResult.t :=
  match filter_results (fun b => b) results, filter_results negb results with
  | Some successResults, Some failedResults =>
      {| BatchResult.success := true;
         BatchResult.data := results;
         BatchResult.summary :=
           Some {| Summary.total := length results;
                   Summary.success := length successResults;
                   Summary.failed := length failedResults |};
         BatchResult.error := None |}
  | _, _ => failed (JS.new_Error typeError)
  end.

(** One run of [uploadFiles]: [evs] is what happens to the pool; the result
    comes with the calls made to [onProgress].  [None]: [evs] is not a
    complete run of the pool. *)
Definition uploadFiles (files : list File.t) (onProgress : option Batch.callback)
           (opts : options) (evs : list Batch.event)
  : option (BatchResult.t * list Progress.t) :=
  let concurrency := default 5 (concurrency opts) in
  let retries := default 3 (retries opts) in
  let tasks := tasks retries files in
  match Batch.run tasks files onProgress
                  (Batch.runWithConcurrency tasks files concurrency onProgress) evs with
  | Some st =>
      match Batch.returned st with
      | Some (JS.Fulfilled results) => Some (summarize results, Batch.emitted st)
      | Some (JS.Rejected error) => Some (failed error, Batch.emitted st)
      | None => None
      end
  | None => None
  end.

(** The object [uploadFile] falls back to. *)
Definition fallback : value :=
  object {| Result.success := false;
            Result.filename := None;
            Result.size := None;
            Result.type := None;
            Result.data := None;
            Result.uploadTime := None;
            Result.error := Some "上传失败" |}.

(** [uploadFile]: [result.data[0] || { success: false, error: '上传失败' }] *)
Definition uploadFile (file : File.t) (onProgress : option Batch.callback)
           (evs : list Batch.event) : option (value * list Progress.t) :=
  match uploadFiles [file] onProgress {| concurrency := Some 1; retries := None |} evs with
  | Some (result, emitted) =>
      Some (match head (BatchResult.data result) with
            | Some (object r) => object r
            | Some undefined | Some null | None => fallback
            end, emitted)
  | None => None
  end.

End uploadFiles.
End Service.

(* ================================================================== *)
(** ** The home page: handleUpload                                     *)
(* ================================================================== *)

Module Home.

(** [errors.join(', ')] *)
Fixpoint join (sep : string) (parts : list string) : string :=
  match parts with
  | [] => ""
  | [p] => p
  | p :: rest => p +:+ sep +:+ join sep rest
  end.

(** The options the page validates with. *)
Definition page_options : Validate.options :=
  {| Validate.maxSize := 10 * 1024 * 1024; Validate.allowedTypes := ["image/*"] |}.

(** The [for] loop of [handleUpload]: the files kept, and the error toasts
    shown, both in the order of the input. *)
Fixpoint validate_loop (files : list File.t) : list File.t * list string :=
  match files with
  | [] => ([], [])
  | file :: rest =>
      let validation := Validate.validateFile file page_options in
      let '(validFiles, toasts) := validate_loop rest in
      if negb (Validate.isValid validation) then
        (validFiles,
         (File.name file +:+ ": " +:+ join ", " (Validate.errors validation)) :: toasts)
      else (file :: validFiles, toasts)
  end.

(** What the page shows of a progress object. *)
Record shown := mkShown { completed : nat; total : nat; percent : float }.

(** The state of the page that [handleUpload] writes. *)
Record page := mkPage {
  uploading : bool;
  uploadResults : list value;
  uploadProgress : shown;
  toasts : list string
}.

Section handleUpload.
Variable upload : nat -> nat -> list float * JS.settled response_data.
Variable toISOString : string.
Variable typeError : string.

(** The callback given to [uploadFiles], [(progress) => {
    setUploadProgress(progress); }]: a state setter, which returns. *)
Definition setUploadProgress : Batch.callback := fun _ _ => None.

(** It stores each progress object; the page shows the last one stored. *)
Definition after_progress (start : shown) (emitted : list Progress.t) : shown :=
  match last emitted with
  | Some p => mkShown (Progress.completed p) (Progress.total p) (Progress.percent p)
  | None => start
  end.

(** [handleUpload(files)], run to its end: [evs] is what happens to the
    pool.  [None]: [evs] is not a complete run. *)
Definition handleUpload (files : list File.t) (evs : list Batch.event) (st : page)
  : option page :=
  let '(validFiles, errors) := validate_loop files in
  let st := mkPage (uploading st) (uploadResults st) (uploadProgress st) (toasts st ++ errors) in
  if bool_decide (length validFiles = 0) then Some st
  else
    let start := mkShown 0 (length validFiles) 0%float in
    match Service.uploadFiles upload toISOString typeError validFiles (Some setUploadProgress)
                              {| Service.concurrency := Some 5; Service.retries := Some 3 |}
                              evs with
    | Some (result, emitted) =>
        let progress := after_progress start emitted in
        if BatchResult.success result then
          let message :=
            match BatchResult.summary result with
            | Some s => "成功上传 " +:+ pretty (Summary.success s) +:+ "/"
                        +:+ pretty (Summary.total s) +:+ " 张图片"
            | None => ""
            end in
          Some (mkPage false (BatchResult.data result) progress
                       (toasts st ++ [message]))
        else
          Some (mkPage false [] progress
                       (toasts st ++ [default "" (BatchResult.error result)]))
    | None => None
    end.

End handleUpload.
End Home.

(** The number of results that are objects with [success] true. *)
Definition succeeded (results : list value) : nat :=
  length (filter (fun r => Service.success_of r = Some true) results).

(** A file the page's validation keeps: within 10 MB and with a type that
    starts with [image]. *)
Definition page_accepts (file : File.t) : Prop :=
  (File.size file <= 10 * 1024 * 1024)%Z /\ String.prefix "image" (File.type file) = true.

#[global] Instance page_accepts_dec (file : File.t) : Decision (page_accepts file).
Proof. unfold page_accepts. apply _. Defined.

(** Files used in the concrete runs of the page. *)
Definition holiday : File.t := File.mk "holiday.jpg" 2048 "image/jpeg".
Definition page0 : Home.page := Home.mkPage false [] (Home.mkShown 0 0 0%float) [].

(** The arguments of the latest call in a history of a throttle. *)
Fixpoint last_call {A} (evs : list (Throttle.event A)) : option A :=
  match evs with
  | [] => None
  | ev :: rest =>
      match last_call rest with
      | Some args => Some args
      | None => match ev with Throttle.Call args _ => Some args | _ => None end
      end
  end.

(** The arguments a history has passed to the throttle. *)
Definition called {A} (evs : list (Throttle.event A)) : list A :=
  omap (fun ev => match ev with Throttle.Call args _ => Some args | _ => None end) evs.

(** What ties a throttle's state and deliveries to its history. *)
Record fresh_inv {A} (evs : list (Throttle.event A)) (s : Throttle.state A) (out : list A)
  : Prop := mkFreshInv {
    fresh_args : forall args, Throttle.lastArgs s = Some args -> last_call evs = Some args;
    fresh_kept : forall args, last_call evs = Some args ->
                 last out = Some args
                 \/ (Throttle.lastArgs s = Some args /\ is_Some (Throttle.timeoutId s));
    fresh_timer : timer_has_args s;
    fresh_called : forall args, args ∈ out -> args ∈ called evs
  }.

(** *** Each task is run once *)

(** What both pools maintain about who runs what, [M] being the number of
    workers the call started and [done] the tasks settled so far: no task
    settles twice, a settled task is awaited by no worker, and no two
    workers await the same task. *)
Record once_inv (M : nat) (done : list nat) (index : nat)
       (workers : list (option nat)) : Prop :=
  mkOnceInv {
    once_nodup : NoDup done;
    once_length : length workers = M;
    once_done : forall i, i ∈ done -> (Some i ∉ workers) /\ i < index;
    once_unique : forall w1 w2 i, workers !! w1 = Some (Some i) ->
                                  workers !! w2 = Some (Some i) -> w1 = w2;
    once_awaited : forall i, Some i ∈ workers -> i < index
  }.

(** The tasks some worker awaits. *)
Definition in_flight (workers : list (option nat)) : list nat :=
  omap (fun o => o) workers.

(** *** The counts in the progress events *)

(** The field [completed] never goes back along a list of events. *)
Definition completed_sorted (es : list Progress.t) : Prop :=
  forall i j ei ej, i <= j -> es !! i = Some ei -> es !! j = Some ej ->
                    Progress.completed ei <= Progress.completed ej.

(** What the upload pool maintains about the events it has emitted and the
    one its throttle holds, [N] being the number of tasks and [c] the
    counter [completed]. *)
Record mono_inv (N c : nat) (th : option (Throttle.state Progress.t))
       (emitted : list Progress.t) : Prop :=
  mkMonoInv {
    mono_sorted : completed_sorted emitted;
    mono_emitted : forall e, e ∈ emitted ->
                   Progress.total e = N /\ Progress.completed e <= c;
    mono_held : forall t a, th = Some t -> Throttle.lastArgs t = Some a ->
                Progress.total a = N /\ Progress.completed a <= c
                /\ forall e, e ∈ emitted -> Progress.completed e <= Progress.completed a
  }.

(** The counter an event may not exceed: [completed] while the pool runs,
    the number of tasks once it has returned. *)
Definition count_bound (tasks : list (JS.settled value)) (st : Batch.pool) : nat :=
  match Batch.returned st with
  | Some _ => length tasks
  | None => Batch.completed st
  end.

(* ================================================================== *)
(** ** The upload endpoint: sendToTelegram, getFileId, upload          *)
(* ================================================================== *)

Module Server.

(** A [PhotoSize] of a Bot API message; [file_size] is optional there. *)
Record PhotoSize := mkPhotoSize { file_id : string; file_size : option Z }.

(** [response.result] as [getFileId] reads it: the photo sizes, and the
    [file_id] of the document, video or audio object when present. *)
Record Message := mkMessage {
  photo : option (list PhotoSize);
  document : option string;
  video : option string;
  audio : option string
}.

(** The JSON body of a Bot API answer. *)
Record Body := mkBody {
  ok : bool;
  result : option Message;
  description : option string
}.

(** A synchronous piece of code returns a value or throws. *)
Inductive completion (V : Type) : Type :=
| Normal (v : V)
| Throw (e : JS.Error).
Arguments Normal {V} v.
Arguments Throw {V} e.

(** [(prev.file_size > current.file_size) ? prev : current]; a comparison
    with [undefined] is false. *)
Definition larger (prev current : PhotoSize) : PhotoSize :=
  match file_size prev, file_size current with
  | Some a, Some b => if (a >? b)%Z then prev else current
  | _, _ => current
  end.

Section getFileId.

(** The message of the TypeError [reduce] throws on an empty array. *)
Variable reduceError : string.

Definition getFileId (response : Body) : completion (option string) :=
  if negb (ok response) then Normal None
  else
    match result response with
    | None => Normal None
    | Some result =>
        match photo result with
        | Some [] => Throw (JS.new_Error reduceError)
        | Some (first :: rest) => Normal (Some (file_id (fold_left larger rest first)))
        | None =>
            match document result with
            | Some id => Normal (Some id)
            | None =>
                match video result with
                | Some id => Normal (Some id)
                | None =>
                    match audio result with
                    | Some id => Normal (Some id)
                    | None => Normal None
                    end
                end
            end
        end
    end.

End getFileId.

(** What [await fetch(...)] followed by [await response.json()] gives:
    either one of them throws, or there is a response with its HTTP [ok]
    flag and its parsed body. *)
Inductive fetched :=
| Threw (e : JS.Error)
| Responded (http_ok : bool) (responseData : Body).

(** [{ success: true, data }] or [{ success: false, error }]. *)
Inductive sent :=
| Success (data : Body)
| Failure (error : string).

Inductive effect :=
| Fetch (apiEndpoint : string)
| SetTimeout (ms : Z).

Definition MAX_RETRIES : nat := 2.

Section sendToTelegram.

(** The Bot API seen by one call and its recursive calls: what the fetch of
    the call with a given [retryCount] gives. *)
Variable fetch : nat -> fetched.

(** The body of [sendToTelegram], [remaining] being
    [MAX_RETRIES - retryCount]. *)
Fixpoint send (apiEndpoint : string) (remaining retryCount : nat) : list effect * sent :=
  match fetch retryCount with
  | Responded true responseData => ([Fetch apiEndpoint], Success responseData)
  | Responded false responseData =>
      ([Fetch apiEndpoint],
       Failure (JS.opt_or_else (description responseData) "上传到Telegram失败"))
  | Threw _ =>
      match remaining with
      | S remaining' =>
          let '(rest, r) := send apiEndpoint remaining' (S retryCount) in
          (Fetch apiEndpoint :: SetTimeout (1000 * (Z.of_nat retryCount + 1)) :: rest, r)
      | 0 => ([Fetch apiEndpoint], Failure "发生网络错误")
      end
  end.

Definition sendToTelegram (apiEndpoint : string) (retryCount : nat) : list effect * sent :=
  send apiEndpoint (MAX_RETRIES - retryCount) retryCount.

End sendToTelegram.

(** An entry of [formData.getAll('file')]: a string or a file. *)
Inductive entry :=
| Text (s : string)
| Blob (f : File.t).

(** The metadata stored with a file key. *)
Record Metadata := mkMetadata {
  TimeStamp : Z;
  ListType : string;
  Label : string;
  liked : bool;
  meta_fileName : string;
  meta_fileSize : Z;
  meta_userId : string
}.

(** An element of a user's file list. *)
Record UserFile := mkUserFile {
  uf_id : string;
  uf_fileName : string;
  uf_fileSize : Z;
  uploadTime : Z;
  url : string
}.

(** What the handler writes under a key of the KV namespace: the empty
    string with metadata, or the JSON text of a file list. *)
Inductive kv_value :=
| Marker (metadata : Metadata)
| Json (userFiles : list UserFile).

Abbreviation store := (gmap string kv_value).

(** [c.json(uploadResults)] or [c.json({ error }, 500)]. *)
Inductive response :=
| Json200 (uploadResults : list item)
| Json500 (error : string).

(** [s.includes('.')] *)
Fixpoint includes_dot (s : string) : bool :=
  match s with
  | EmptyString => false
  | String c s' => if Ascii.eqb c "."%char then true else includes_dot s'
  end.

(** [s.split('.').pop()]: what follows the last dot, or all of [s]. *)
Fixpoint pop_split (s : string) : string :=
  match s with
  | EmptyString => EmptyString
  | String c s' =>
      if Ascii.eqb c "."%char then pop_split s'
      else if includes_dot s' then pop_split s' else s
  end.

Definition apiEndpoint_of (type : string) : string :=
  if Validate.startsWith type "image/" then "sendDocument"
  else if Validate.startsWith type "audio/" then "sendAudio"
  else if Validate.startsWith type "video/" then "sendVideo"
  else "sendDocument".

(** The request as the handler reads it: the id of the authenticated user
    if any, whether the KV namespace [img_url] is bound, what is thrown (if
    anything) by [c.req.formData()] or the middleware before the entries are
    read, and the entries under [file]. *)
Record ctx := mkCtx {
  user : option string;
  bound : bool;
  before : option JS.Error;
  files : list entry
}.

Section upload.

(** [String.prototype.toLowerCase] *)
Variable toLowerCase : string -> string.

(** The messages of the errors thrown by [undefined.split], by [reduce] on
    an empty array and by the JSON parser. *)
Variable splitError reduceError parseError : string.

(** The Bot API: what the fetch for entry [i] gives at each [retryCount]. *)
Variable fetch : nat -> nat -> fetched.

(** [Date.now()] while entry [i] is handled. *)
Variable now : nat -> Z.

(** [user ? user.id : null] is truthy *)
Definition userId_of (c : ctx) : option string :=
  match user c with
  | Some id => if JS.truthy id then Some id else None
  | None => None
  end.

Definition userFilesKey (userId : string) : string := "user:" +:+ userId +:+ ":files".

(** The lines from [if (env.img_url)] to the end of that block.  The
    namespace answers a [get] with what the latest [put] wrote, and its
    [put] and [get] themselves do not fail; reading as JSON a key that holds
    the empty string throws. *)
Definition record_file (c : ctx) (f : File.t) (fileKey : string) (timestamp : Z)
           (kv : store) : store * completion unit :=
  if bound c then
    let metadata :=
      {| TimeStamp := timestamp; ListType := "None"; Label := "None"; liked := false;
         meta_fileName := File.name f; meta_fileSize := File.size f;
         meta_userId := default "anonymous" (userId_of c) |} in
    let kv := <[fileKey := Marker metadata]> kv in
    match userId_of c with
    | Some userId =>
        let newFile :=
          {| uf_id := fileKey; uf_fileName := File.name f; uf_fileSize := File.size f;
             uploadTime := timestamp; url := "/file/" +:+ fileKey |} in
        match kv !! userFilesKey userId with
        | Some (Marker _) => (kv, Throw (JS.new_Error parseError))
        | Some (Json userFiles) =>
            (<[userFilesKey userId := Json (userFiles ++ [newFile])]> kv, Normal ())
        | None => (<[userFilesKey userId := Json [newFile]]> kv, Normal ())
        end
    | None => (kv, Normal ())
    end
  else (kv, Normal ()).

(** The key under which entry [i] is stored, if Telegram takes it; [None]
    where the loop body reaches a [continue]. *)
Definition fileKey_of (i : nat) (f : File.t) : list effect * completion (option string) :=
  let fileExtension := toLowerCase (pop_split (File.name f)) in
  let '(effects, result) := sendToTelegram (fetch i) (apiEndpoint_of (File.type f)) 0 in
  match result with
  | Failure _ => (effects, Normal None)
  | Success data =>
      match getFileId reduceError data with
      | Throw e => (effects, Throw e)
      | Normal None => (effects, Normal None)
      | Normal (Some fileId) =>
          if JS.truthy fileId then (effects, Normal (Some (fileId +:+ "." +:+ fileExtension)))
          else (effects, Normal None)
      end
  end.

(** One iteration of the [for] loop: what it pushes, if anything. *)
Definition iteration (c : ctx) (i : nat) (uploadFile : entry) (kv : store)
  : list effect * store * completion (option item) :=
  match uploadFile with
  | Text s =>
      if JS.truthy s then ([], kv, Throw (JS.new_Error splitError))
      else ([], kv, Normal None)
  | Blob f =>
      match fileKey_of i f with
      | (effects, Throw e) => (effects, kv, Throw e)
      | (effects, Normal None) => (effects, kv, Normal None)
      | (effects, Normal (Some fileKey)) =>
          match record_file c f fileKey (now i) kv with
          | (kv', Throw e) => (effects, kv', Throw e)
          | (kv', Normal _) => (effects, kv', Normal (Some (mkItem (Some ("/file/" +:+ fileKey)))))
          end
      end
  end.

(** The [for] loop from entry [i] on. *)
Fixpoint loop (c : ctx) (i : nat) (entries : list entry) (kv : store)
         (uploadResults : list item) : list effect * store * completion (list item) :=
  match entries with
  | [] => ([], kv, Normal uploadResults)
  | uploadFile :: rest =>
      match iteration c i uploadFile kv with
      | (effects, kv', Throw e) => (effects, kv', Throw e)
      | (effects, kv', Normal pushed) =>
          let '(effects', kv'', r) :=
            loop c (S i) rest kv' (uploadResults ++ option_list pushed) in
          (effects ++ effects', kv'', r)
      end
  end.

(** [upload(c)]: the requests made, the namespace afterwards, the answer. *)
Definition upload (c : ctx) (kv : store) : list effect * store * response :=
  match before c with
  | Some e => ([], kv, Json500 (JS.message e))
  | None =>
      if bool_decide (length (files c) = 0) then ([], kv, Json500 "未上传文件")
      else
        let '(effects, kv', r) := loop c 0 (files c) kv [] in
        (effects, kv',
         match r with
         | Normal uploadResults => Json200 uploadResults
         | Throw e => Json500 (JS.message e)
         end)
  end.

End upload.
End Server.

(** *** The upload endpoint *)

(** The size of a photo whose [file_size] is present. *)
Definition size_of (p : Server.PhotoSize) : Z := default 0%Z (Server.file_size p).

(** The requests and waits of [sendToTelegram] before its attempt [k]. *)
Definition attempts_before (apiEndpoint : string) (k : nat) : list Server.effect :=
  flat_map (fun j => [Server.Fetch apiEndpoint;
                      Server.SetTimeout (1000 * (Z.of_nat j + 1))]) (seq 0 k).

(** The number of requests among the effects of a call. *)
Definition fetches (effects : list Server.effect) : nat :=
  length (filter (fun eff => match eff with Server.Fetch _ => true | _ => false end = true)
                 effects).

(** A Bot API that drops the first two connections and then stores the
    file as a document. *)
Definition stored_document : Server.Body :=
  Server.mkBody true (Some (Server.mkMessage None (Some "BQACAgUAAx") None None)) None.

Definition third_time_lucky (retryCount : nat) : Server.fetched :=
  match retryCount with
  | 0 | 1 => Server.Threw (JS.new_Error "fetch failed")
  | _ => Server.Responded true stored_document
  end.

(** The three sizes Telegram makes of a photo, the largest in the middle. *)
Definition three_sizes : list Server.PhotoSize :=
  [Server.mkPhotoSize "small" (Some 1200%Z);
   Server.mkPhotoSize "large" (Some 90000%Z);
   Server.mkPhotoSize "medium" (Some 15000%Z)].

Definition photo_message : Server.Body :=
  Server.mkBody true (Some (Server.mkMessage (Some three_sizes) None None None)) None.

Section Stored.
Variable toLowerCase : string -> string.
Variable reduceError : string.
Variable fetch : nat -> nat -> Server.fetched.
Variable now : nat -> Z.

(** The key under which entry [i] ends up stored, if it does. *)
Definition stored_one (i : nat) (uploadFile : Server.entry) : option (nat * File.t * string) :=
  match uploadFile with
  | Server.Blob f =>
      match (Server.fileKey_of toLowerCase reduceError fetch i f).2 with
      | Server.Normal (Some fileKey) => Some (i, f, fileKey)
      | _ => None
      end
  | Server.Text _ => None
  end.

(** The entries Telegram takes, from entry [i] on, in order: index, file
    and key. *)
Fixpoint stored_from (i : nat) (entries : list Server.entry) : list (nat * File.t * string) :=
  match entries with
  | [] => []
  | uploadFile :: rest => option_list (stored_one i uploadFile) ++ stored_from (S i) rest
  end.

(** The element of the answer for a stored entry. *)
Definition item_of (s : nat * File.t * string) : item :=
  mkItem (Some ("/file/" +:+ s.2)).

(** The element of the user's file list for a stored entry. *)
Definition userFile_of (s : nat * File.t * string) : Server.UserFile :=
  Server.mkUserFile s.2 (File.name s.1.2) (File.size s.1.2) (now s.1.1) ("/file/" +:+ s.2).

(** The file list read under a key: [[]] when the key is absent. *)
Definition list_of (v : option Server.kv_value) : list Server.UserFile :=
  match v with
  | Some (Server.Json userFiles) => userFiles
  | _ => []
  end.

(** The namespace after a stored entry has been recorded without error. *)
Definition recorded (c : Server.ctx) (s : nat * File.t * string) (kv : Server.store)
  : Server.store :=
  if Server.bound c then
    let metadata :=
      Server.mkMetadata (now s.1.1) "None" "None" false (File.name s.1.2) (File.size s.1.2)
                        (default "anonymous" (Server.userId_of c)) in
    let kv1 := <[s.2 := Server.Marker metadata]> kv in
    match Server.userId_of c with
    | Some userId =>
        <[Server.userFilesKey userId :=
            Server.Json (list_of (kv1 !! Server.userFilesKey userId) ++ [userFile_of s])]> kv1
    | None => kv1
    end
  else kv.

(** No stored key is the key of the user's list. *)
Definition apart (c : Server.ctx) (ss : list (nat * File.t * string)) : Prop :=
  forall userId s, Server.userId_of c = Some userId -> s ∈ ss ->
                   s.2 <> Server.userFilesKey userId.

End Stored.

(** A request of an authenticated user with two images, of which Telegram
    stores the first and refuses the second. *)
Definition two_images : Server.ctx :=
  Server.mkCtx (Some "u1") true None
               [Server.Blob (File.mk "Cat.PNG" 2048 "image/png");
                Server.Blob (File.mk "dog.jpg" 4096 "image/jpeg")].

Definition first_only (i retryCount : nat) : Server.fetched :=
  match i with
  | 0 => Server.Responded true stored_document
  | _ => Server.Responded false (Server.mkBody false None (Some "Bad Request: file is too big"))
  end.

(** ASCII lower case, enough for the concrete runs. *)
Fixpoint ascii_lower (s : string) : string :=
  match s with
  | EmptyString => EmptyString
  | String c s' =>
      let n := Ascii.nat_of_ascii c in
      String (if (65 <=? n) && (n <=? 90) then Ascii.ascii_of_nat (n + 32) else c)
             (ascii_lower s')
  end.

(** What the client's request resolves with when the endpoint answers 200:
    [response.data] is the JSON body. *)
Definition data_of (body : list item) : JS.settled response_data :=
  JS.Fulfilled (DataArray body).

(** Telegram takes nothing: every request is dropped or refused. *)
Definition refuses (fetch : nat -> Server.fetched) : Prop :=
  forall retryCount,
    match fetch retryCount with
    | Server.Responded true _ => False
    | _ => True
    end.

(** A namespace that holds nothing yet. *)
Definition empty_namespace : gmap string Server.kv_value := ∅.

(** What the client's request settles with for an answer of the endpoint:
    with status 200 it resolves and [response.data] is the JSON body; with
    status 500 it rejects with an error whose [response.data] is the body
    [{error}]. *)
Definition settled_of (answer : Server.response) : JS.settled response_data :=
  match answer with
  | Server.Json200 body => data_of body
  | Server.Json500 error =>
      JS.Rejected (JS.mkError "Request failed with status code 500" (Some error))
  end.

(** A Bot API that refuses every file. *)
Definition too_big (i retryCount : nat) : Server.fetched :=
  Server.Responded false (Server.mkBody false None (Some "Bad Request: file is too big")).

(* ================================================================== *)
(** ** The image store: selection, deleteImage, sorting                *)
(* ================================================================== *)

Module ImageActions.

(** *** deleteImage *)

(** Up to [await axios.delete(...)]: [set({ isLoading: true, error: null })]. *)
Definition deleteImage_begin (st : ImageStore.state) : ImageStore.state :=
  ImageStore.mkState (ImageStore.images st) (ImageStore.selectedImages st)
                     (ImageStore.isSelectionMode st) true None.

(** From the [await] on; [st] is the store at that moment. *)
Definition deleteImage_resume {R} (imageId : string) (awaited : JS.settled R)
           (st : ImageStore.state) : ImageStore.state * ActionResult :=
  match awaited with
  | JS.Fulfilled _ =>
      (ImageStore.mkState (filter (fun img => id img ≠ imageId) (ImageStore.images st))
                          (ImageStore.selectedImages st) (ImageStore.isSelectionMode st)
                          false None,
       {| action_success := true; action_error := None |})
  | JS.Rejected error =>
      let errorMessage := JS.opt_or_else (JS.response_data_error error) "删除图片失败" in
      (ImageStore.mkState (ImageStore.images st) (ImageStore.selectedImages st)
                          (ImageStore.isSelectionMode st) false (Some errorMessage),
       {| action_success := false; action_error := Some errorMessage |})
  end.

(** The whole action when nothing else touches the store meanwhile. *)
Definition deleteImage {R} (imageId : string) (awaited : JS.settled R)
           (st : ImageStore.state) : ImageStore.state * ActionResult :=
  deleteImage_resume imageId awaited (deleteImage_begin st).

(** *** The selection *)

Definition toggleSelectionMode (st : ImageStore.state) : ImageStore.state :=
  ImageStore.mkState (ImageStore.images st) ∅ (negb (ImageStore.isSelectionMode st))
                     (ImageStore.isLoading st) (ImageStore.error st).

Definition toggleImageSelection (imageId : string) (st : ImageStore.state)
  : ImageStore.state :=
  let newSelected :=
    if bool_decide (imageId ∈ ImageStore.selectedImages st)
    then ImageStore.selectedImages st ∖ {[imageId]}
    else ImageStore.selectedImages st ∪ {[imageId]} in
  ImageStore.mkState (ImageStore.images st) newSelected (ImageStore.isSelectionMode st)
                     (ImageStore.isLoading st) (ImageStore.error st).

Definition toggleSelectAll (st : ImageStore.state) : ImageStore.state :=
  let allSelected :=
    bool_decide (size (ImageStore.selectedImages st) = length (ImageStore.images st)) in
  ImageStore.mkState (ImageStore.images st)
                     (if allSelected then ∅ else list_to_set (id <$> ImageStore.images st))
                     (ImageStore.isSelectionMode st)
                     (ImageStore.isLoading st) (ImageStore.error st).

Definition clearSelection (st : ImageStore.state) : ImageStore.state :=
  ImageStore.mkState (ImageStore.images st) ∅ (ImageStore.isSelectionMode st)
                     (ImageStore.isLoading st) (ImageStore.error st).

Definition clearError (st : ImageStore.state) : ImageStore.state :=
  ImageStore.mkState (ImageStore.images st) (ImageStore.selectedImages st)
                     (ImageStore.isSelectionMode st) (ImageStore.isLoading st) None.

End ImageActions.

Module Gallery.

(** An image of the list with the fields the sort reads; [uploadTime] and
    [fileSize] are taken to be numbers that hold integers. *)
Record Picture := mkPicture {
  id : string;
  fileName : string;
  uploadTime : Z;
  fileSize : Z
}.

Record Filters := mkFilters {
  query : string;
  tag : string;
  sortBy : string;
  viewMode : string
}.

(** The part of the store the sort actions read or write. *)
Record state := mkState {
  images : list Picture;
  filters : Filters
}.

Section sortImages.

(** [a.localeCompare(b)] *)
Variable localeCompare : string -> string -> Z.

(** The comparator of each [case]; [None] for the [default] branch. *)
Definition comparator (sortBy : string) : option (Picture -> Picture -> Z) :=
  if String.eqb sortBy "newest" then Some (fun a b => (uploadTime b - uploadTime a)%Z)
  else if String.eqb sortBy "oldest" then Some (fun a b => (uploadTime a - uploadTime b)%Z)
  else if String.eqb sortBy "largest" then Some (fun a b => (fileSize b - fileSize a)%Z)
  else if String.eqb sortBy "smallest" then Some (fun a b => (fileSize a - fileSize b)%Z)
  else if String.eqb sortBy "name"
       then Some (fun a b => localeCompare (fileName a) (fileName b))
  else None.

(** [Array.prototype.sort] is stable: with a consistent comparator its
    result is the one of an insertion sort that puts an element before the
    first one it does not have to follow. *)
Fixpoint insert_sorted (cmp : Picture -> Picture -> Z) (x : Picture) (l : list Picture)
  : list Picture :=
  match l with
  | [] => [x]
  | y :: l' => if (cmp x y <=? 0)%Z then x :: y :: l' else y :: insert_sorted cmp x l'
  end.

Definition sort (cmp : Picture -> Picture -> Z) (l : list Picture) : list Picture :=
  foldr (insert_sorted cmp) [] l.

(** [sortImages(images)], [st] being what [get()] returns. *)
Definition sortImages (st : state) (images : list Picture) : list Picture :=
  match comparator (sortBy (filters st)) with
  | Some cmp => sort cmp images
  | None => images
  end.

(** [setSortBy(sortBy)]: inside the updater given to [set], [get()] still
    returns the state the updater was called with. *)
Definition setSortBy (sortBy : string) (st : state) : state :=
  {| filters := mkFilters (query (filters st)) (tag (filters st)) sortBy
                          (viewMode (filters st));
     images := sortImages st (images st) |}.

Definition setViewMode (viewMode : string) (st : state) : state :=
  {| filters := mkFilters (query (filters st)) (tag (filters st)) (sortBy (filters st))
                          viewMode;
     images := images st |}.

End sortImages.
End Gallery.

(** *** Predicates on the image store *)

(** The ids of the images of the list. *)
Definition listed (st : ImageStore.state) : gset string :=
  list_to_set (id <$> ImageStore.images st).

(** Each element is followed by one it does not have to follow. *)
Fixpoint ordered_by (cmp : Gallery.Picture -> Gallery.Picture -> Z)
         (l : list Gallery.Picture) : Prop :=
  match l with
  | [] => True
  | x :: l' =>
      match l' with
      | [] => True
      | y :: _ => (cmp x y <= 0)%Z
      end /\ ordered_by cmp l'
  end.

(** A comparator never puts each of two elements after the other. *)
Definition consistent (cmp : Gallery.Picture -> Gallery.Picture -> Z) : Prop :=
  forall a b, (0 < cmp a b)%Z -> (cmp b a <= 0)%Z.

(** Three pictures, newest first. *)
Definition album : list Gallery.Picture :=
  [Gallery.mkPicture "c" "c.png" 300 10;
   Gallery.mkPicture "b" "b.png" 200 30;
   Gallery.mkPicture "a" "a.png" 100 20].

(** Code-unit order of two strings, as a comparator. *)
Definition code_unit_compare (a b : string) : Z :=
  match String.compare a b with
  | Lt => (-1)%Z
  | Eq => 0%Z
  | Gt => 1%Z
  end.

(* ================================================================== *)
(** ** The favorite store: initFavorites and the synchronous actions   *)
(* ================================================================== *)

Module FavoriteActions.

(** What [initFavorites] returns: [{ success: true, favorites }] or
    [{ success: false, error }]. *)
Record InitResult := mkInitResult {
  init_success : bool;
  init_favorites : option (gset string);
  init_error : option string
}.

(** Up to [await axios.get('/api/favorites')]. *)
Definition initFavorites_begin (st : FavoriteStore.state) : FavoriteStore.state :=
  FavoriteStore.mkState (FavoriteStore.favorites st) (FavoriteStore.favoriteImages st)
                        true None.

Definition init_failed (errorMessage : string) (st : FavoriteStore.state)
  : FavoriteStore.state * InitResult :=
  (FavoriteStore.mkState (FavoriteStore.favorites st) (FavoriteStore.favoriteImages st)
                         false (Some errorMessage),
   {| init_success := false; init_favorites := None; init_error := Some errorMessage |}).

(** From the [await] on.  The request resolves with [response.data.images]
    ([None]: the field is missing, and [images.map] throws a TypeError,
    which has no [response]). *)
Definition initFavorites_resume (awaited : JS.settled (option (list Image)))
           (st : FavoriteStore.state) : FavoriteStore.state * InitResult :=
  match awaited with
  | JS.Fulfilled (Some images) =>
      let favoriteIds : gset string := list_to_set (id <$> images) in
      (FavoriteStore.mkState favoriteIds images false None,
       {| init_success := true; init_favorites := Some favoriteIds; init_error := None |})
  | JS.Fulfilled None => init_failed "加载收藏列表失败" st
  | JS.Rejected error =>
      init_failed (JS.opt_or_else (JS.response_data_error error) "加载收藏列表失败") st
  end.

Definition initFavorites (awaited : JS.settled (option (list Image)))
           (st : FavoriteStore.state) : FavoriteStore.state * InitResult :=
  initFavorites_resume awaited (initFavorites_begin st).

(** [fetchFavorites] only calls [initFavorites]. *)
Definition fetchFavorites := initFavorites.

Definition isFavorite (imageId : string) (st : FavoriteStore.state) : bool :=
  bool_decide (imageId ∈ FavoriteStore.favorites st).

Definition getFavoriteCount (st : FavoriteStore.state) : nat :=
  size (FavoriteStore.favorites st).

Definition clearError (st : FavoriteStore.state) : FavoriteStore.state :=
  FavoriteStore.mkState (FavoriteStore.favorites st) (FavoriteStore.favoriteImages st)
                        (FavoriteStore.isLoading st) None.

Definition reset (st : FavoriteStore.state) : FavoriteStore.state :=
  FavoriteStore.mkState ∅ [] (FavoriteStore.isLoading st) None.

(** A call of an action of the store, with how its request settles. *)
Inductive action (R : Type) : Type :=
| InitFavorites (awaited : JS.settled (option (list Image)))
| AddFavorite (imageId : string) (awaited : JS.settled R)
| RemoveFavorite (imageId : string) (awaited : JS.settled R)
| ToggleFavorite (imageId : string) (awaited : JS.settled R)
| AddFavorites (imageIds : list string) (awaited : JS.settled R)
| RemoveFavorites (imageIds : list string) (awaited : JS.settled R)
| ClearError
| Reset.
Arguments InitFavorites {R} awaited.
Arguments AddFavorite {R} imageId awaited.
Arguments RemoveFavorite {R} imageId awaited.
Arguments ToggleFavorite {R} imageId awaited.
Arguments AddFavorites {R} imageIds awaited.
Arguments RemoveFavorites {R} imageIds awaited.
Arguments ClearError {R}.
Arguments Reset {R}.

(** The store after a call that runs to its end before the next one
    starts. *)
Definition perform {R} (a : action R) (st : FavoriteStore.state) : FavoriteStore.state :=
  match a with
  | InitFavorites awaited => (initFavorites awaited st).1
  | AddFavorite imageId awaited => (FavoriteStore.addFavorite imageId awaited st).1
  | RemoveFavorite imageId awaited => (FavoriteStore.removeFavorite imageId awaited st).1
  | ToggleFavorite imageId awaited => (FavoriteStore.toggleFavorite imageId awaited st).1
  | AddFavorites imageIds awaited => (FavoriteStore.addFavorites imageIds awaited st).1
  | RemoveFavorites imageIds awaited => (FavoriteStore.removeFavorites imageIds awaited st).1
  | ClearError => clearError st
  | Reset => reset st
  end.

End FavoriteActions.

(** *** Predicates on the favorite store *)

(** Every image of the favorites page is marked as a favorite. *)
Definition listed_are_favorites (st : FavoriteStore.state) : Prop :=
  forall img, img ∈ FavoriteStore.favoriteImages st -> id img ∈ FavoriteStore.favorites st.

(** The store as created. *)
Definition no_favorites : FavoriteStore.state := FavoriteStore.mkState ∅ [] false None.

(* ================================================================== *)
(** ** The home page: what is shown and copied after an upload         *)
(* ================================================================== *)

Module HomePage.

(** The separator ['\n']. *)
Definition newline : string := String (Ascii.ascii_of_nat 10) EmptyString.

(** [array.map(f)] over result objects, [f] reading properties of each
    element; [None] when a callback throws a TypeError. *)
Fixpoint map_results {B} (f : Result.t -> option B) (results : list value)
  : option (list B) :=
  match results with
  | [] => Some []
  | v :: rest =>
      match v with
      | object r =>
          match f r, map_results f rest with
          | Some b, Some bs => Some (b :: bs)
          | _, _ => None
          end
      | undefined | null => None
      end
  end.

(** [uploadResults.filter(r => r.success).map(f)] *)
Definition map_successes {B} (f : Result.t -> option B) (uploadResults : list value)
  : option (list B) :=
  match Service.filter_results (fun b => b) uploadResults with
  | Some successResults => map_results f successResults
  | None => None
  end.

(** [window.location.origin + r.data.src]: reading [src] of a missing
    [data] throws; a missing [src] is spelt [undefined]. *)
Definition url_of (origin : string) (r : Result.t) : option string :=
  match Result.data r with
  | Some d => Some (origin +:+ default "undefined" (src d))
  | None => None
  end.

(** [`![${r.filename}](${window.location.origin}${r.data.src})`] *)
Definition markdown_of (origin : string) (r : Result.t) : option string :=
  match Result.data r with
  | Some d =>
      Some ("![" +:+ default "undefined" (Result.filename r) +:+ "](" +:+ origin
            +:+ default "undefined" (src d) +:+ ")")
  | None => None
  end.

(** The text [copyAllUrls] writes to the clipboard. *)
Definition copyAllUrls (origin : string) (uploadResults : list value) : option string :=
  Home.join newline <$> map_successes (url_of origin) uploadResults.

(** The text [copyMarkdownList] writes to the clipboard. *)
Definition copyMarkdownList (origin : string) (uploadResults : list value) : option string :=
  Home.join newline <$> map_successes (markdown_of origin) uploadResults.

(** The two counts computed on every render. *)
Definition successCount (uploadResults : list value) : option nat :=
  length <$> Service.filter_results (fun b => b) uploadResults.

Definition failedCount (uploadResults : list value) : option nat :=
  length <$> Service.filter_results negb uploadResults.

(** [handleUploadAgain] *)
Definition handleUploadAgain (st : Home.page) : Home.page :=
  Home.mkPage (Home.uploading st) [] (Home.mkShown 0 0 0%float) (Home.toasts st).

End HomePage.

(** A result the page can show and copy: an object that, when it reports
    success, carries a record with a non-empty [src]. *)
Definition showable (v : value) : Prop :=
  exists r, v = object r
            /\ (Result.success r = true -> Single.has_src (Result.data r) = true).

(** The requests among the effects of one upload, in order. *)
Definition Upload_of (effects : list Single.effect) : list nat :=
  omap (fun eff => match eff with Single.Upload attempt => Some attempt | _ => None end)
       effects.

(** The back-off delays among the effects of one upload, in order. *)
Definition SetTimeout_of (effects : list Single.effect) : list Z :=
  omap (fun eff => match eff with Single.SetTimeout ms => Some ms | _ => None end) effects.

(** *** When the throttle calls [fn] *)

(** The clock reading of an event; [flush] reads no clock. *)
Definition time_of {A} (ev : Throttle.event A) : option Z :=
  match ev with
  | Throttle.Call _ now => Some now
  | Throttle.TimerFires now => Some now
  | Throttle.Flush => None
  end.

(** The times at which [fn] is called by the throttled function itself or
    by its timer (not by [flush]) along a history that starts in [s]. *)
Fixpoint delivery_times {A} (delay : Z) (s : Throttle.state A)
         (evs : list (Throttle.event A)) : list Z :=
  match evs with
  | [] => []
  | ev :: rest =>
      match Throttle.step delay s ev with
      | Some (s', out) =>
          match time_of ev with
          | Some now => (fun _ => now) <$> out
          | None => []
          end ++ delivery_times delay s' rest
      | None => []
      end
  end.

(** Timers are punctual along a history that starts in [s]: a timer does
    not fire before it is due ([lastCall + delay], the time it was set plus
    its duration), and it fires before any call made from that time on. *)
Fixpoint punctual {A} (delay : Z) (s : Throttle.state A)
         (evs : list (Throttle.event A)) : Prop :=
  match evs with
  | [] => True
  | ev :: rest =>
      match ev with
      | Throttle.Call _ now =>
          is_Some (Throttle.timeoutId s) -> (now < Throttle.lastCall s + delay)%Z
      | Throttle.TimerFires now => (Throttle.lastCall s + delay <= now)%Z
      | Throttle.Flush => True
      end
      /\ match Throttle.step delay s ev with
         | Some (s', _) => punctual delay s' rest
         | None => True
         end
  end.

(** Each time is at least [delay] after the one before. *)
Fixpoint spaced (delay : Z) (times : list Z) : Prop :=
  match times with
  | [] => True
  | t :: rest =>
      match rest with
      | [] => True
      | t' :: _ => (t + delay <= t')%Z
      end /\ spaced delay rest
  end.

(* ================================================================== *)
(** * Properties                                                       *)
(* ================================================================== *)

(** ** createThrottle *)

Section ThrottleFacts.
Context {A : Type}.
Implicit Types (s : Throttle.state A) (ev : Throttle.event A).

Lemma timer_has_args_create : timer_has_args (@Throttle.createThrottle A).
Proof. intros [d Hd]. discriminate Hd. Qed.

Lemma timer_has_args_step delay s ev s' out :
  timer_has_args s ->
  Throttle.step delay s ev = Some (s', out) ->
  timer_has_args s'.
Proof.
  intros Hs Hstep. destruct ev as [args now | now | ]; simpl in Hstep.
  - unfold Throttle.throttled in Hstep.
    destruct (decide _); [|destruct (Throttle.timeoutId s)];
      inversion Hstep; subst; intros _; simpl; eauto.
  - destruct (Throttle.timeoutId s); [|discriminate].
    inversion Hstep; subst. intros [d Hd]. discriminate Hd.
  - unfold Throttle.flush in Hstep.
    destruct (Throttle.lastArgs s); inversion Hstep; subst;
      intros [d Hd]; simpl in Hd; destruct (Throttle.timeoutId s); discriminate Hd.
Qed.

Lemma timer_has_args_run delay evs : forall s s' out,
  timer_has_args s ->
  Throttle.run delay s evs = Some (s', out) ->
  timer_has_args s'.
Proof.
  induction evs as [|ev evs IH]; intros s s' out Hs Hrun; simpl in Hrun.
  - inversion Hrun; subst; exact Hs.
  - destruct (Throttle.step delay s ev) as [[s1 out1]|] eqn:Hstep; [|discriminate].
    destruct (Throttle.run delay s1 evs) as [[s2 out2]|] eqn:Hrest; [|discriminate].
    inversion Hrun; subst. eapply IH; [|exact Hrest].
    eapply timer_has_args_step; eauto.
Qed.


End ThrottleFacts.

(** The latest arguments are never lost. *)

Section ThrottleFresh.
Context {A : Type}.
Implicit Types (s : Throttle.state A) (evs : list (Throttle.event A)) (out : list A).

Lemma throttle_run_snoc delay evs : forall s ev,
  Throttle.run delay s (evs ++ [ev])
  = match Throttle.run delay s evs with
    | Some (s1, out1) =>
        match Throttle.step delay s1 ev with
        | Some (s2, out2) => Some (s2, out1 ++ out2)
        | None => None
        end
    | None => None
    end.
Proof.
  induction evs as [|e evs IH]; intros s ev; simpl.
  - destruct (Throttle.step delay s ev) as [[s2 out2]|]; [|reflexivity].
    rewrite app_nil_r. reflexivity.
  - destruct (Throttle.step delay s e) as [[s1 out1]|]; [|reflexivity].
    rewrite IH. destruct (Throttle.run delay s1 evs) as [[s2 out2]|]; [|reflexivity].
    destruct (Throttle.step delay s2 ev) as [[s3 out3]|]; [|reflexivity].
    rewrite app_assoc. reflexivity.
Qed.

Lemma last_call_snoc evs ev :
  last_call (evs ++ [ev])
  = match ev with Throttle.Call args _ => Some args | _ => last_call evs end.
Proof.
  induction evs as [|e evs IH]; simpl.
  - destruct ev; reflexivity.
  - rewrite IH. destruct ev; [reflexivity | |]; destruct (last_call evs); reflexivity.
Qed.

Lemma last_call_called evs args : last_call evs = Some args -> args ∈ called evs.
Proof.
  unfold called. induction evs as [|e evs IH]; simpl; [discriminate|].
  destruct (last_call evs) as [a|].
  - intros [= ->]. destruct e; simpl; [right | |]; apply IH; reflexivity.
  - destruct e; [|discriminate..]. intros [= ->]. simpl. left.
Qed.

Lemma called_snoc evs ev args : args ∈ called evs -> args ∈ called (evs ++ [ev]).
Proof.
  unfold called. rewrite omap_app. intros H. apply elem_of_app. left. exact H.
Qed.

Lemma fresh_inv_step delay evs s out ev s' out' :
  fresh_inv evs s out ->
  Throttle.step delay s ev = Some (s', out') ->
  fresh_inv (evs ++ [ev]) s' (out ++ out').
Proof.
  intros [Hargs Hkept Htimer Hcalled] Hstep.
  assert (Htimer' : timer_has_args s') by (eapply timer_has_args_step; eauto).
  assert (Hold : forall x, x ∈ out -> x ∈ called (evs ++ [ev]))
    by (intros x Hx; apply called_snoc, Hcalled, Hx).
  destruct ev as [args now | now | ]; simpl in Hstep.
  - (* a call *)
    assert (Hnew : args ∈ called (evs ++ [Throttle.Call args now])).
    { unfold called. rewrite omap_app. apply elem_of_app. right. simpl. left. }
    unfold Throttle.throttled in Hstep.
    destruct (decide _); [|destruct (Throttle.timeoutId s) eqn:Hid];
      inversion Hstep; subst s' out'; clear Hstep;
      split; try exact Htimer'; rewrite ?last_call_snoc; simpl.
    + intros a [= ->]. reflexivity.
    + intros a [= ->]. left. apply last_snoc.
    + intros x Hx. apply elem_of_app in Hx as [Hx|Hx]; [auto|].
      apply list_elem_of_singleton in Hx as ->. exact Hnew.
    + intros a [= ->]. reflexivity.
    + intros a [= ->]. right. split; [reflexivity | eauto].
    + intros x Hx. rewrite app_nil_r in Hx. auto.
    + intros a [= ->]. reflexivity.
    + intros a [= ->]. right. split; [reflexivity | eauto].
    + intros x Hx. rewrite app_nil_r in Hx. auto.
  - (* the timer fires *)
    destruct (Throttle.timeoutId s) as [d|] eqn:Hid; [|discriminate].
    destruct (Htimer ltac:(rewrite Hid; eauto)) as [b Hb].
    unfold Throttle.timeout_callback in Hstep. rewrite Hb in Hstep.
    inversion Hstep; subst s' out'; clear Hstep.
    pose proof (Hargs b Hb) as Hlast.
    split; try exact Htimer'; rewrite ?last_call_snoc; simpl.
    + intros a [= <-]. exact Hlast.
    + intros a Ha. left. rewrite last_snoc. congruence.
    + intros x Hx. apply elem_of_app in Hx as [Hx|Hx]; [auto|].
      apply list_elem_of_singleton in Hx as ->.
      apply called_snoc, last_call_called, Hlast.
  - (* flush *)
    unfold Throttle.flush in Hstep.
    destruct (Throttle.lastArgs s) as [b|] eqn:Hb;
      inversion Hstep; subst s' out'; clear Hstep;
      split; try exact Htimer'; rewrite ?last_call_snoc; simpl.
    + discriminate.
    + intros a Ha. left. rewrite last_snoc. rewrite (Hargs b eq_refl) in Ha. congruence.
    + intros x Hx. apply elem_of_app in Hx as [Hx|Hx]; [auto|].
      apply list_elem_of_singleton in Hx as ->.
      apply called_snoc, last_call_called, Hargs. reflexivity.
    + discriminate.
    + intros a Ha. left. rewrite app_nil_r.
      destruct (Hkept a Ha) as [Hl | [Hl _]]; [exact Hl | congruence].
    + intros x Hx. rewrite app_nil_r in Hx. auto.
Qed.

Lemma fresh_inv_run delay evs : forall s out,
  Throttle.run delay Throttle.createThrottle evs = Some (s, out) ->
  fresh_inv evs s out.
Proof.
  induction evs as [|ev evs IH] using rev_ind; intros s out Hrun.
  - inversion Hrun; subst. split; simpl.
    + discriminate.
    + discriminate.
    + apply timer_has_args_create.
    + intros x Hx. inversion Hx.
  - rewrite throttle_run_snoc in Hrun.
    destruct (Throttle.run delay Throttle.createThrottle evs) as [[s1 out1]|]; [|discriminate].
    destruct (Throttle.step delay s1 ev) as [[s2 out2]|] eqn:Hstep; [|discriminate].
    inversion Hrun; subst. eapply fresh_inv_step; eauto.
Qed.

End ThrottleFresh.




(** ** uploadSingleFile *)

Section SingleFacts.
Variable upload : nat -> list float * JS.settled response_data.
Variable toISOString : string.
Variable file : File.t.

Local Abbreviation fails := (attempt_fails upload toISOString file).
Local Abbreviation loop := (Single.retry_loop upload toISOString file).

(** A failed attempt that is not the last one: wait, then go on. *)
Lemma retry_loop_again retries remaining attempt error :
  Single.try_block upload toISOString file attempt = inr error ->
  attempt <> retries - 1 ->
  loop retries (S remaining) attempt
  = ((Single.Upload attempt :: map Single.OnProgress (upload attempt).1)
       ++ Single.SetTimeout (1000 * (Z.of_nat attempt + 1))
       :: (loop retries remaining (S attempt)).1,
     (loop retries remaining (S attempt)).2).
Proof.
  intros Herr Hne. cbn [Single.retry_loop]. rewrite Herr.
  case_bool_decide; [contradiction|].
  destruct (Single.retry_loop upload toISOString file retries remaining (S attempt)).
  reflexivity.
Qed.

(** An iteration of the loop starts with its request. *)
Lemma retry_loop_head retries remaining attempt :
  exists rest,
    (loop retries (S remaining) attempt).1 = Single.Upload attempt :: rest.
Proof.
  simpl. destruct (Single.try_block upload toISOString file attempt) as [r|error].
  - eexists; reflexivity.
  - case_bool_decide.
    + eexists; reflexivity.
    + destruct (loop retries remaining (S attempt)) as [rest r]. eexists; reflexivity.
Qed.

(** The loop never lets an exception escape. *)
Lemma retry_loop_fulfilled retries remaining : forall attempt,
  exists v, (loop retries remaining attempt).2 = JS.Fulfilled v.
Proof.
  induction remaining as [|remaining IH]; intros attempt; simpl.
  - eexists; reflexivity.
  - destruct (Single.try_block upload toISOString file attempt) as [r|error].
    + eexists; reflexivity.
    + case_bool_decide.
      * eexists; reflexivity.
      * specialize (IH (S attempt)).
        destruct (loop retries remaining (S attempt)) as [rest r]. exact IH.
Qed.

Lemma retry_loop_delay retries n :
  n + 1 < retries ->
  (forall j, j <= n -> fails j) ->
  forall k attempt remaining,
    attempt + k = n -> attempt + remaining = retries ->
    exists before after,
      (loop retries remaining attempt).1
      = before ++ Single.Upload n :: map Single.OnProgress (upload n).1
               ++ Single.SetTimeout (1000 * (Z.of_nat n + 1)) :: Single.Upload (S n) :: after.
Proof.
  intros Hn Hfail. induction k as [|k IH]; intros attempt remaining Hk Hrem.
  - assert (attempt = n) by lia. subst attempt.
    destruct remaining as [|[|remaining]]; [lia | lia |].
    destruct (retry_loop_head retries remaining (S n)) as [rest Hrest].
    destruct (Hfail n) as [error Herr]; [lia|].
    rewrite (retry_loop_again _ _ _ _ Herr) by lia.
    cbn [fst]. rewrite Hrest. exists [], rest. reflexivity.
  - destruct remaining as [|remaining]; [lia|].
    destruct (Hfail attempt) as [error Herr]; [lia|].
    destruct (IH (S attempt) remaining) as (before & after & Hrec); [lia | lia |].
    rewrite (retry_loop_again _ _ _ _ Herr) by lia.
    cbn [fst]. rewrite Hrec.
    exists ((Single.Upload attempt :: map Single.OnProgress (upload attempt).1)
              ++ Single.SetTimeout (1000 * (Z.of_nat attempt + 1)) :: before), after.
    rewrite <- !app_assoc. reflexivity.
Qed.

Lemma retry_loop_last_succeeds retries r :
  Single.try_block upload toISOString file (retries - 1) = inl r ->
  forall remaining attempt,
    attempt + S remaining = retries ->
    (forall j, attempt <= j -> j < retries - 1 -> fails j) ->
    (loop retries (S remaining) attempt).2 = JS.Fulfilled (object r).
Proof.
  intros Hlast. induction remaining as [|remaining IH]; intros attempt Hrem Hfail.
  - replace attempt with (retries - 1) by lia. simpl. rewrite Hlast. reflexivity.
  - destruct (Hfail attempt) as [error Herr]; [lia | lia |].
    rewrite (retry_loop_again _ _ _ _ Herr) by lia. cbn [snd].
    apply IH; [lia|]. intros j ? ?. apply Hfail; lia.
Qed.

Lemma retry_loop_all_fail retries error :
  Single.try_block upload toISOString file (retries - 1) = inr error ->
  forall remaining attempt,
    attempt + S remaining = retries ->
    (forall j, attempt <= j -> j < retries - 1 -> fails j) ->
    (loop retries (S remaining) attempt).2
    = JS.Fulfilled (object (Single.failure file (Single.error_string error))).
Proof.
  intros Hlast. induction remaining as [|remaining IH]; intros attempt Hrem Hfail.
  - assert (attempt = retries - 1) by lia. subst attempt.
    simpl. rewrite Hlast. case_bool_decide; [reflexivity | lia].
  - destruct (Hfail attempt) as [error' Herr]; [lia | lia |].
    rewrite (retry_loop_again _ _ _ _ Herr) by lia. cbn [snd].
    apply IH; [lia|]. intros j ? ?. apply Hfail; lia.
Qed.

End SingleFacts.

(** The error string of a failure: the remote payload when it is there (and
    not empty), else the error's own message, else the generic text. *)
Lemma error_string_cases (error : JS.Error) :
  (forall payload, JS.response_data_error error = Some payload -> payload <> "" ->
     Single.error_string error = payload)
  /\ ((JS.response_data_error error = None \/ JS.response_data_error error = Some "") ->
      JS.message error <> "" -> Single.error_string error = JS.message error)
  /\ ((JS.response_data_error error = None \/ JS.response_data_error error = Some "") ->
      JS.message error = "" -> Single.error_string error = "上传失败").
Proof.
  unfold Single.error_string, JS.opt_or_else, JS.or_else, JS.truthy.
  repeat split.
  - intros payload -> Hne. apply String.eqb_neq in Hne. rewrite Hne. simpl. rewrite Hne. reflexivity.
  - intros Hpay Hmsg. apply String.eqb_neq in Hmsg.
    destruct Hpay as [-> | ->]; simpl; rewrite Hmsg; reflexivity.
  - intros Hpay Hmsg. destruct Hpay as [-> | ->]; rewrite Hmsg; reflexivity.
Qed.

(** C2: when attempts [0..n] fail and [n] is not the last allowed attempt,
    the call waits [1000 * (n + 1)] milliseconds between the request of
    attempt [n] and the request of attempt [n + 1]: the back-off grows
    linearly with the attempt number. *)
Theorem backoff_is_linear (upload : nat -> list float * JS.settled response_data)
        (toISOString : string) (file : File.t) (retries n : nat) :
  (File.size file <= Single.maxSize)%Z ->
  n + 1 < retries ->
  (forall j, j <= n -> attempt_fails upload toISOString file j) ->
  exists before after,
    (Single.uploadSingleFile upload toISOString file retries).1
    = before ++ Single.Upload n :: map Single.OnProgress (upload n).1
             ++ Single.SetTimeout (1000 * (Z.of_nat n + 1)) :: Single.Upload (S n) :: after.
Proof.
  intros Hsize Hn Hfail. unfold Single.uploadSingleFile.
  destruct (File.size file >? Single.maxSize)%Z eqn:Hgt; [lia|].
  eapply (retry_loop_delay upload toISOString file retries n Hn Hfail n 0); lia.
Qed.

Lemma backoff_is_linear_witness :
  exists before after,
    (Single.uploadSingleFile flaky stamp photo 3).1
    = before ++ Single.Upload 1 :: map Single.OnProgress (flaky 1).1
             ++ Single.SetTimeout (1000 * (Z.of_nat 1 + 1)) :: Single.Upload 2 :: after.
Proof.
  apply (backoff_is_linear flaky stamp photo 3 1).
  - vm_compute. discriminate.
  - lia.
  - intros j Hj. destruct j as [|[|j]]; [eexists; reflexivity | eexists; reflexivity | lia].
Defined.

(** C3: the call never rejects; with [retries >= 1] allowed attempts on a
    file that passes the size check, if the attempts before the last fail
    and the last succeeds the call resolves with that attempt's success
    result, and if the last fails too it resolves with a failure result
    whose error string is the one of the last attempt's error
    ([error_string_cases]: the remote payload when present, else the
    error's message, else the generic text). *)
Theorem retries_end_in_a_result (upload : nat -> list float * JS.settled response_data)
        (toISOString : string) (file : File.t) (retries : nat) :
  (exists v, (Single.uploadSingleFile upload toISOString file retries).2 = JS.Fulfilled v)
  /\ ((File.size file <= Single.maxSize)%Z ->
      1 <= retries ->
      (forall j, j < retries - 1 -> attempt_fails upload toISOString file j) ->
      (forall r,
          Single.try_block upload toISOString file (retries - 1) = inl r ->
          (Single.uploadSingleFile upload toISOString file retries).2 = JS.Fulfilled (object r)
          /\ Result.success r = true)
      /\ (forall error,
          Single.try_block upload toISOString file (retries - 1) = inr error ->
          (Single.uploadSingleFile upload toISOString file retries).2
          = JS.Fulfilled (object (Single.failure file (Single.error_string error)))
          /\ Result.success (Single.failure file (Single.error_string error)) = false
          /\ Result.error (Single.failure file (Single.error_string error))
             = Some (Single.error_string error)
          /\ (forall payload, JS.response_data_error error = Some payload -> payload <> "" ->
                Single.error_string error = payload)
          /\ ((JS.response_data_error error = None \/ JS.response_data_error error = Some "") ->
                JS.message error <> "" -> Single.error_string error = JS.message error)
          /\ ((JS.response_data_error error = None \/ JS.response_data_error error = Some "") ->
                JS.message error = "" -> Single.error_string error = "上传失败"))).
Proof.
  split.
  - unfold Single.uploadSingleFile. destruct (File.size file >? Single.maxSize)%Z.
    + eexists; reflexivity.
    + apply retry_loop_fulfilled.
  - intros Hsize Hretries Hfail. unfold Single.uploadSingleFile.
    destruct (File.size file >? Single.maxSize)%Z eqn:Hgt; [lia|].
    destruct retries as [|remaining]; [lia|].
    split.
    + intros r Hlast. split.
      * apply retry_loop_last_succeeds; [exact Hlast | lia |].
        intros j _ Hj. apply Hfail. exact Hj.
      * unfold Single.try_block in Hlast.
        destruct (upload (S remaining - 1)).2 as [response|e]; [|discriminate].
        destruct (Single.has_src _); [|discriminate].
        inversion Hlast; reflexivity.
    + intros error Hlast. split; [|split; [reflexivity | split; [reflexivity|]]].
      * apply retry_loop_all_fail; [exact Hlast | lia |].
        intros j _ Hj. apply Hfail. exact Hj.
      * apply error_string_cases.
Qed.

Lemma retries_end_in_a_result_witness :
  (Single.uploadSingleFile flaky stamp photo 3).2
  = JS.Fulfilled (object (Result.mk true (Some "photo.png") (Some 100%Z) (Some "image/png")
                                    (Some stored) (Some stamp) None))
  /\ (Single.uploadSingleFile refusing stamp photo 3).2
     = JS.Fulfilled (object (Single.failure photo "storage quota exceeded")).
Proof.
  split.
  - destruct (retries_end_in_a_result flaky stamp photo 3) as [_ H].
    destruct H as [Hok _].
    + vm_compute. discriminate.
    + lia.
    + intros j Hj. destruct j as [|[|j]]; [eexists; reflexivity | eexists; reflexivity | simpl in Hj; lia].
    + destruct (Hok _ eq_refl) as [Hres _]. exact Hres.
  - destruct (retries_end_in_a_result refusing stamp photo 3) as [_ H].
    destruct H as [_ Hfail].
    + vm_compute. discriminate.
    + lia.
    + intros j Hj. eexists; reflexivity.
    + destruct (Hfail _ eq_refl) as [Hres _]. exact Hres.
Defined.

(** With no attempt allowed the loop body never runs and the call resolves
    with [undefined]. *)
Lemma zero_retries_resolve_undefined (upload : nat -> list float * JS.settled response_data)
      (toISOString : string) (file : File.t) :
  (File.size file <= Single.maxSize)%Z ->
  Single.uploadSingleFile upload toISOString file 0 = ([], JS.Fulfilled undefined).
Proof.
  intros Hsize. unfold Single.uploadSingleFile.
  destruct (File.size file >? Single.maxSize)%Z eqn:Hgt; [lia | reflexivity].
Qed.

(** ** Pre-flight validation *)

Lemma validateFile_checks_size_and_type (file : File.t) (opts : Validate.options) :
  Validate.isValid (Validate.validateFile file opts) = true
  <-> (File.size file <= Validate.maxSize opts)%Z
      /\ Validate.isValidType file (Validate.allowedTypes opts) = true.
Proof.
  unfold Validate.validateFile.
  destruct (File.size file >? Validate.maxSize opts)%Z eqn:Hsize;
    destruct (Validate.isValidType file (Validate.allowedTypes opts)) eqn:Htype;
    simpl; split; intros H; try discriminate H; try lia;
    try (destruct H as [? ?]; try discriminate; lia); try (split; [lia | reflexivity]).
  all: reflexivity.
Qed.

(** C4, as stated, fails: a text file is rejected by [validateFile] for its
    type, but [uploadSingleFile] sends it to the endpoint and reports a
    success. *)
Lemma uploader_does_not_check_type :
  Validate.validateFile notes Validate.default_options
    = Validate.mkValidation false ["不支持的文件类型"]
  /\ (Single.uploadSingleFile reliable stamp notes 3).1 = [Single.Upload 0]
  /\ (Single.uploadSingleFile reliable stamp notes 3).2
     = JS.Fulfilled (object (Result.mk true (Some "notes.txt") (Some 100%Z) (Some "text/plain")
                                       (Some stored) (Some stamp) None)).
Proof. repeat split. Qed.

(** C4 (amended): the uploader's own pre-flight check is on the size alone.
    A file larger than 10 MB is answered at once with a failure result: no
    request is sent and no back-off timer is set.  A file within the limit
    goes to the endpoint whatever its type; the type is checked, with the
    size, by [validateFile], which callers run beforehand. *)
Theorem oversized_file_short_circuits (upload : nat -> list float * JS.settled response_data)
        (toISOString : string) (file : File.t) (retries : nat) :
  ((File.size file > Single.maxSize)%Z ->
   Single.uploadSingleFile upload toISOString file retries
   = ([], JS.Fulfilled (object (Single.failure file "文件大小不能超过 10MB"))))
  /\ ((File.size file <= Single.maxSize)%Z -> 1 <= retries ->
      exists rest,
        (Single.uploadSingleFile upload toISOString file retries).1 = Single.Upload 0 :: rest)
  /\ (forall opts,
         Validate.isValid (Validate.validateFile file opts) = true
         <-> (File.size file <= Validate.maxSize opts)%Z
             /\ Validate.isValidType file (Validate.allowedTypes opts) = true).
Proof.
  split; [|split].
  - intros Hsize. unfold Single.uploadSingleFile.
    destruct (File.size file >? Single.maxSize)%Z eqn:Hgt; [reflexivity | lia].
  - intros Hsize Hretries. unfold Single.uploadSingleFile.
    destruct (File.size file >? Single.maxSize)%Z eqn:Hgt; [lia|].
    destruct retries as [|remaining]; [lia|].
    apply retry_loop_head.
  - intros opts. apply validateFile_checks_size_and_type.
Qed.

Lemma oversized_file_short_circuits_witness :
  Single.uploadSingleFile reliable stamp huge 3
  = ([], JS.Fulfilled (object (Single.failure huge "文件大小不能超过 10MB"))).
Proof.
  apply (oversized_file_short_circuits reliable stamp huge 3).
  vm_compute. reflexivity.
Defined.

(** ** The favorite store *)

Lemma remove_each_is_difference (ids : list string) : forall S0 : gset string,
  foldl (fun newFavorites id => newFavorites ∖ {[id]}) S0 ids = S0 ∖ list_to_set ids.
Proof.
  induction ids as [|i ids IH]; intros S0; simpl.
  - rewrite difference_empty_L. reflexivity.
  - rewrite IH. apply set_eq. intros x.
    rewrite !elem_of_difference, elem_of_union, elem_of_singleton. tauto.
Qed.

(** C7: [addFavorite c] on membership [S0] puts the store at [S0 ∪ {c}]
    before the request is awaited; if the request fails, whatever the store
    holds by then, the membership is set back to exactly [S0], and the error
    message is stored and returned as [{success: false, error}]. *)
Theorem addFavorite_rolls_back {R : Type} (S0 : gset string) (c : string)
        (st : FavoriteStore.state) :
  FavoriteStore.favorites st = S0 ->
  FavoriteStore.favorites (FavoriteStore.addFavorite_begin c st).2 = S0 ∪ {[c]}
  /\ forall (err : JS.Error) (st' : FavoriteStore.state),
      let after :=
        FavoriteStore.addFavorite_resume (R := R)
          (FavoriteStore.addFavorite_begin c st).1 (JS.Rejected err) st' in
      let errorMessage := JS.opt_or_else (JS.response_data_error err) "添加收藏失败" in
      FavoriteStore.favorites after.1 = S0
      /\ FavoriteStore.error after.1 = Some errorMessage
      /\ after.2 = {| action_success := false; action_error := Some errorMessage |}.
Proof.
  intros HS0. split.
  - simpl. rewrite HS0. reflexivity.
  - intros err st'. simpl. rewrite HS0. repeat split.
Qed.

Lemma addFavorite_rolls_back_witness :
  FavoriteStore.favorites (FavoriteStore.addFavorite_begin "c" two_favorites).2
    = {["a"; "b"]} ∪ {["c"]}
  /\ (FavoriteStore.addFavorite (R := unit) "c" (JS.Rejected server_down) two_favorites).2
     = {| action_success := false; action_error := Some "service unavailable" |}
  /\ FavoriteStore.favorites
       (FavoriteStore.addFavorite (R := unit) "c" (JS.Rejected server_down) two_favorites).1
     = {["a"; "b"]}.
Proof.
  pose proof (addFavorite_rolls_back (R := unit) {["a"; "b"]} "c" two_favorites eq_refl)
    as [Hbegin Hfail].
  split; [exact Hbegin|].
  specialize (Hfail server_down (FavoriteStore.addFavorite_begin "c" two_favorites).2).
  destruct Hfail as (Hfav & _ & Hres).
  split; [exact Hres | exact Hfav].
Defined.

(** The same pattern in [removeFavorite]: both the set and the list are
    restored. *)
Lemma removeFavorite_rolls_back {R : Type} (c : string) (st st' : FavoriteStore.state)
      (err : JS.Error) :
  let after :=
    FavoriteStore.removeFavorite_resume (R := R)
      (FavoriteStore.removeFavorite_begin c st).1 (JS.Rejected err) st' in
  FavoriteStore.favorites (FavoriteStore.removeFavorite_begin c st).2
    = FavoriteStore.favorites st ∖ {[c]}
  /\ FavoriteStore.favorites after.1 = FavoriteStore.favorites st
  /\ FavoriteStore.favoriteImages after.1 = FavoriteStore.favoriteImages st
  /\ action_success after.2 = false.
Proof. repeat split. Qed.

(** C8: the batch mutations roll back as a whole.  [addFavorites ids] on
    membership [S0] first puts the store at [S0] plus every id of [ids],
    [removeFavorites ids] at [S0] minus every id of [ids]; when the request
    fails, whatever the store holds by then, the membership is set back to
    exactly [S0] (for [removeFavorites] the image list is set back too), and
    [{success: false, error}] is returned. *)
Theorem batch_favorites_roll_back {R : Type} (S0 : gset string) (ids : list string)
        (st : FavoriteStore.state) :
  FavoriteStore.favorites st = S0 ->
  FavoriteStore.favorites (FavoriteStore.addFavorites_begin ids st).2 = S0 ∪ list_to_set ids
  /\ FavoriteStore.favorites (FavoriteStore.removeFavorites_begin ids st).2
     = S0 ∖ list_to_set ids
  /\ forall (err : JS.Error) (st' : FavoriteStore.state),
      let added :=
        FavoriteStore.addFavorites_resume (R := R)
          (FavoriteStore.addFavorites_begin ids st).1 (JS.Rejected err) st' in
      let removed :=
        FavoriteStore.removeFavorites_resume (R := R)
          (FavoriteStore.removeFavorites_begin ids st).1 (JS.Rejected err) st' in
      FavoriteStore.favorites added.1 = S0
      /\ added.2 = {| action_success := false;
                      action_error :=
                        Some (JS.opt_or_else (JS.response_data_error err) "批量添加收藏失败") |}
      /\ FavoriteStore.favorites removed.1 = S0
      /\ FavoriteStore.favoriteImages removed.1 = FavoriteStore.favoriteImages st
      /\ removed.2 = {| action_success := false;
                        action_error :=
                          Some (JS.opt_or_else (JS.response_data_error err) "批量取消收藏失败") |}.
Proof.
  intros HS0. split; [|split].
  - simpl. rewrite HS0. reflexivity.
  - simpl. rewrite remove_each_is_difference, HS0. reflexivity.
  - intros err st'. simpl. rewrite HS0. repeat split.
Qed.

Lemma batch_favorites_roll_back_witness :
  FavoriteStore.favorites (FavoriteStore.addFavorites_begin ["c"; "d"] two_favorites).2
    = {["a"; "b"]} ∪ list_to_set ["c"; "d"]
  /\ FavoriteStore.favorites
       (FavoriteStore.addFavorites (R := unit) ["c"; "d"] (JS.Rejected server_down) two_favorites).1
     = {["a"; "b"]}.
Proof.
  pose proof (batch_favorites_roll_back (R := unit) {["a"; "b"]} ["c"; "d"] two_favorites eq_refl)
    as (Hadd & _ & Hfail).
  split; [exact Hadd|].
  specialize (Hfail server_down (FavoriteStore.addFavorites_begin ["c"; "d"] two_favorites).2).
  destruct Hfail as (Hfav & _). exact Hfav.
Defined.

(** ** The cursor, the results array and the workers *)

Section ArrayFacts.
Context {A : Type}.
Implicit Types (l : list A) (workers : list (option nat)).

Lemma array_set_lookup_eq (u : A) l i v : JS.array_set u l i v !! i = Some v.
Proof.
  unfold JS.array_set. case_decide as Hi.
  - apply list_lookup_insert_eq. exact Hi.
  - rewrite lookup_app_r by lia. rewrite lookup_app_r by (rewrite length_replicate; lia).
    rewrite length_replicate. replace (i - length l - (i - length l)) with 0 by lia.
    reflexivity.
Qed.

Lemma array_set_lookup_ne (u : A) l i j v x :
  j <> i -> l !! j = Some x -> JS.array_set u l i v !! j = Some x.
Proof.
  intros Hne Hj. unfold JS.array_set. case_decide as Hi.
  - rewrite list_lookup_insert_ne by congruence. exact Hj.
  - apply lookup_app_l_Some. exact Hj.
Qed.

Lemma array_set_length (u : A) l i v :
  length (JS.array_set u l i v) = max (length l) (S i).
Proof.
  unfold JS.array_set. case_decide as Hi.
  - rewrite length_insert. lia.
  - rewrite !length_app, length_replicate. simpl. lia.
Qed.

Lemma elem_of_insert_inv (x y : A) l w : x ∈ <[w := y]> l -> x = y \/ x ∈ l.
Proof.
  intros Hin. apply list_elem_of_lookup in Hin as [j Hj].
  destruct (decide (w = j)) as [->|Hne].
  - destruct (decide (j < length l)) as [Hlt|Hge].
    + rewrite list_lookup_insert_eq in Hj by exact Hlt. left. congruence.
    + rewrite list_insert_ge in Hj by lia. right. eapply list_elem_of_lookup_2, Hj.
  - rewrite list_lookup_insert_ne in Hj by exact Hne.
    right. eapply list_elem_of_lookup_2, Hj.
Qed.

Lemma elem_of_insert_other (x y z : A) l w :
  l !! w = Some z -> x ∈ l -> x <> z -> x ∈ <[w := y]> l.
Proof.
  intros Hw Hin Hne. apply list_elem_of_lookup in Hin as [j Hj].
  apply list_elem_of_lookup. exists j.
  rewrite list_lookup_insert_ne; [exact Hj|]. intros ->. congruence.
Qed.

Lemma awaiting_insert_Some workers w i j :
  workers !! w = Some (Some i) -> awaiting (<[w := Some j]> workers) = awaiting workers.
Proof.
  revert w. induction workers as [|o workers IH]; intros w Hw; [discriminate Hw|].
  destruct w as [|w]; simpl in Hw.
  - inversion Hw; subst. reflexivity.
  - simpl. rewrite (IH w Hw). reflexivity.
Qed.

Lemma awaiting_insert_None workers w i :
  workers !! w = Some (Some i) -> S (awaiting (<[w := None]> workers)) = awaiting workers.
Proof.
  revert w. induction workers as [|o workers IH]; intros w Hw; [discriminate Hw|].
  destruct w as [|w]; simpl in Hw.
  - inversion Hw; subst. reflexivity.
  - simpl. destruct o; rewrite <- (IH w Hw); reflexivity.
Qed.

Lemma awaiting_zero workers :
  awaiting workers = 0 <-> forall o, o ∈ workers -> o = None.
Proof.
  induction workers as [|o workers IH]; simpl.
  - split; [intros _ o Ho; inversion Ho | reflexivity].
  - destruct o as [i|].
    + split; [discriminate|]. intros Hall.
      specialize (Hall (Some i)). discriminate Hall. left.
    + rewrite IH. split.
      * intros Hall o' Ho'. apply elem_of_cons in Ho' as [->|Ho']; auto.
      * intros Hall o' Ho'. apply Hall. right. exact Ho'.
Qed.

Lemma awaiting_positive workers :
  awaiting workers <> 0 -> exists w i, workers !! w = Some (Some i).
Proof.
  induction workers as [|o workers IH]; simpl; [congruence|].
  destruct o as [i|].
  - intros _. exists 0, i. reflexivity.
  - intros H. destruct (IH H) as (w & i & Hw). exists (S w), i. exact Hw.
Qed.

Lemma awaiting_started n : awaiting (Some <$> seq 0 n) = n.
Proof.
  generalize 0. induction n as [|n IH]; intros k; simpl; [reflexivity|].
  rewrite IH. reflexivity.
Qed.

Lemma all_None_forallb workers :
  forallb (fun o => bool_decide (o = None)) workers = true
  <-> forall o, o ∈ workers -> o = None.
Proof.
  rewrite forallb_forall. split.
  - intros H o Ho. apply list_elem_of_In in Ho. apply H in Ho.
    apply bool_decide_eq_true in Ho. exact Ho.
  - intros H o Ho. apply bool_decide_eq_true. apply H. apply list_elem_of_In. exact Ho.
Qed.

End ArrayFacts.

Section CoreFacts.
Context {V : Type} (undef : V) (N : nat) (expected : nat -> V).
Implicit Types (results : list V) (workers : list (option nat)) (done : list nat).

(** The workers as the call leaves them once all are started: worker [w]
    awaits task [w]. *)
Lemma core_inv_started n :
  n <= N -> core_inv N expected [] n [] (Some <$> seq 0 n).
Proof.
  intros Hn.
  assert (Hmem : forall i, Some i ∈ (Some <$> seq 0 n) <-> i < n).
  { intros i. rewrite list_elem_of_fmap. split.
    - intros (j & [= ->] & Hj). apply elem_of_seq in Hj. lia.
    - intros Hi. exists i. split; [reflexivity|]. apply elem_of_seq. lia. }
  split; simpl.
  - exact Hn.
  - lia.
  - intros i Hi Hnot. exfalso. apply Hnot, Hmem, Hi.
  - intros i Hi. apply Hmem, Hi.
  - intros Hin. apply list_elem_of_fmap in Hin as (j & Hj & _). discriminate Hj.
  - apply awaiting_started.
Qed.

(** Task [i], awaited by worker [w], settles and the worker claims the
    next index. *)
Lemma core_inv_claim done index results workers w i :
  core_inv N expected done index results workers ->
  workers !! w = Some (Some i) ->
  index < N ->
  core_inv N expected (i :: done) (S index)
           (JS.array_set undef results i (expected i)) (<[w := Some index]> workers).
Proof.
  intros [Hidx Hlen Hset Haw Hexit Hcount] Hw Hlt.
  assert (Hi : i < index) by (apply Haw; eapply list_elem_of_lookup_2, Hw).
  assert (Hwlen : w < length workers) by (eapply lookup_lt_Some, Hw).
  split.
  - lia.
  - rewrite array_set_length. lia.
  - intros j Hj Hnot.
    destruct (decide (j = index)) as [->|Hne].
    { exfalso. apply Hnot. apply list_elem_of_insert. exact Hwlen. }
    destruct (decide (j = i)) as [->|Hji].
    { split; [left | apply array_set_lookup_eq]. }
    destruct (Hset j) as [Hdone Hres]; [lia | |].
    + intros Hin. apply Hnot. eapply elem_of_insert_other; [exact Hw | exact Hin | congruence].
    + split; [right; exact Hdone | apply array_set_lookup_ne; assumption].
  - intros j Hin. apply elem_of_insert_inv in Hin as [[= ->]|Hin]; [lia|].
    apply Haw in Hin. lia.
  - intros Hin. apply elem_of_insert_inv in Hin as [Heq|Hin]; [discriminate Heq|].
    apply Hexit in Hin. lia.
  - simpl. rewrite (awaiting_insert_Some _ _ _ _ Hw). lia.
Qed.

(** Task [i], awaited by worker [w], settles with the cursor exhausted: the
    worker returns. *)
Lemma core_inv_exit done index results workers w i :
  core_inv N expected done index results workers ->
  workers !! w = Some (Some i) ->
  ~ index < N ->
  core_inv N expected (i :: done) index
           (JS.array_set undef results i (expected i)) (<[w := None]> workers).
Proof.
  intros [Hidx Hlen Hset Haw Hexit Hcount] Hw Hge.
  assert (Hi : i < index) by (apply Haw; eapply list_elem_of_lookup_2, Hw).
  split.
  - lia.
  - rewrite array_set_length. lia.
  - intros j Hj Hnot.
    destruct (decide (j = i)) as [->|Hji].
    { split; [left | apply array_set_lookup_eq]. }
    destruct (Hset j) as [Hdone Hres]; [lia | |].
    + intros Hin. apply Hnot. eapply elem_of_insert_other; [exact Hw | exact Hin | congruence].
    + split; [right; exact Hdone | apply array_set_lookup_ne; assumption].
  - intros j Hin. apply elem_of_insert_inv in Hin as [Heq|Hin]; [discriminate Heq|].
    apply Haw, Hin.
  - intros _. lia.
  - simpl. pose proof (awaiting_insert_None _ _ _ Hw). lia.
Qed.

(** Once every worker has returned, every task has settled and the results
    array holds exactly the expected slots, in task order. *)
Lemma core_inv_returned done index results workers :
  core_inv N expected done index results workers ->
  (forall o, o ∈ workers -> o = None) ->
  (1 <= N -> workers <> []) ->
  results = expected <$> seq 0 N
  /\ length done = N
  /\ forall i, i < N -> i ∈ done.
Proof.
  intros [Hidx Hlen Hset Haw Hexit Hcount] Hall Hne.
  assert (Hzero : awaiting workers = 0) by (apply awaiting_zero, Hall).
  assert (HN : index = N).
  { destruct workers as [|o workers'] eqn:Hws.
    - destruct N; [lia|]. exfalso. apply Hne; [lia | reflexivity].
    - apply Hexit. rewrite <- (Hall o); left. }
  assert (Hlen0 : length results <= N) by lia.
  rewrite HN in Hset, Hcount.
  assert (Hnone : forall i, Some i ∉ workers).
  { intros i Hin. apply Hall in Hin. discriminate Hin. }
  split; [|split].
  - apply list_eq. intros j. rewrite list_lookup_fmap.
    destruct (decide (j < N)) as [Hj|Hj].
    + rewrite lookup_seq_lt by exact Hj. simpl. apply Hset; [exact Hj | apply Hnone].
    + rewrite lookup_seq_ge by lia. simpl. apply lookup_ge_None_2. lia.
  - lia.
  - intros i Hi. apply Hset; [exact Hi | apply Hnone].
Qed.

(** While some worker has not returned, a task is in flight and fewer than
    [N] tasks have settled. *)
Lemma core_inv_in_flight done index results workers :
  core_inv N expected done index results workers ->
  ~ (forall o, o ∈ workers -> o = None) ->
  length done < N /\ exists w i, workers !! w = Some (Some i) /\ i < N.
Proof.
  intros [Hidx Hlen Hset Haw Hexit Hcount] Hsome.
  assert (Hpos : awaiting workers <> 0) by (rewrite awaiting_zero; exact Hsome).
  split; [lia|].
  destruct (awaiting_positive _ Hpos) as (w & i & Hw).
  exists w, i. split; [exact Hw|].
  assert (i < index) by (apply Haw; eapply list_elem_of_lookup_2, Hw). lia.
Qed.

End CoreFacts.

(** ** runWithConcurrencyLimit *)

Section LimitFacts.
Context {R : Type}.
Variable tasks : list (JS.settled R).
Variable limit : nat.
Implicit Types (st : Limit.pool R) (done order : list nat).

Lemma limit_expected_all :
  limit_expected tasks <$> seq 0 (length tasks) = limit_slot <$> tasks.
Proof.
  apply list_eq. intros j. rewrite !list_lookup_fmap.
  destruct (decide (j < length tasks)) as [Hj|Hj].
  - rewrite lookup_seq_lt by exact Hj. simpl. unfold limit_expected.
    destruct (lookup_lt_is_Some_2 tasks j Hj) as [o Ho]. rewrite Ho. reflexivity.
  - rewrite lookup_seq_ge by lia. rewrite (lookup_ge_None_2 tasks j) by lia. reflexivity.
Qed.

(** Starting [m] workers from cursor [k]: worker [w] claims task [w]. *)
Lemma limit_start m : forall k st,
  Limit.index st = k ->
  k + m <= length tasks ->
  Limit.workers st = (Some <$> seq 0 k) ++ replicate m None ->
  Limit.index (foldl (fun st w => Limit.runTask tasks w st) st (seq k m)) = k + m
  /\ Limit.workers (foldl (fun st w => Limit.runTask tasks w st) st (seq k m))
     = Some <$> seq 0 (k + m)
  /\ Limit.results (foldl (fun st w => Limit.runTask tasks w st) st (seq k m))
     = Limit.results st
  /\ Limit.returned (foldl (fun st w => Limit.runTask tasks w st) st (seq k m))
     = Limit.returned st.
Proof.
  induction m as [|m IH]; intros k st Hidx Hle Hws; simpl.
  - rewrite Nat.add_0_r, Hws, app_nil_r. auto.
  - assert (Hclaim : Limit.runTask tasks k st
                     = Limit.mkPool (Limit.results st) (S k)
                                    ((Some <$> seq 0 (S k)) ++ replicate m None)
                                    (Limit.returned st)).
    { unfold Limit.runTask. rewrite bool_decide_eq_true_2 by lia.
      rewrite Hidx, Hws. f_equal.
      rewrite seq_S, fmap_app, <- app_assoc.
      replace k with (length (Some <$> seq 0 k) + 0) at 1
        by (rewrite length_fmap, length_seq; lia).
      rewrite insert_app_r. reflexivity. }
    rewrite Hclaim.
    destruct (IH (S k) (Limit.mkPool (Limit.results st) (S k)
                          ((Some <$> seq 0 (S k)) ++ replicate m None)
                          (Limit.returned st)))
      as (H1 & H2 & H3 & H4); [reflexivity | lia | reflexivity |].
    rewrite H1, H2, H3, H4. replace (S k + m) with (k + S m) by lia. auto.
Qed.

(** [await Promise.all(workers)] on a pool that has not returned. *)
Lemma limit_inv_await done st :
  core_inv (length tasks) (limit_expected tasks) done
           (Limit.index st) (Limit.results st) (Limit.workers st) ->
  (1 <= length tasks -> 1 <= limit -> Limit.workers st <> []) ->
  Limit.returned st = None ->
  limit_inv tasks limit done (Limit.await_workers st).
Proof.
  intros Hcore Hws Hret. unfold Limit.await_workers.
  destruct (Limit.all_returned st) eqn:Hall.
  - split; simpl; [exact Hcore | exact Hws |].
    unfold Limit.all_returned in *. simpl. rewrite Hall. reflexivity.
  - split; [exact Hcore | exact Hws |]. rewrite Hall. exact Hret.
Qed.

Lemma limit_inv_start : limit_inv tasks limit [] (Limit.runWithConcurrencyLimit tasks limit).
Proof.
  unfold Limit.runWithConcurrencyLimit.
  set (n := min limit (length tasks)).
  set (st0 := Limit.mkPool _ _ _ _).
  destruct (limit_start n 0 st0) as (Hidx & Hws & Hres & Hret);
    [reflexivity | lia | reflexivity |].
  simpl in Hidx, Hws, Hres, Hret.
  apply limit_inv_await.
  - rewrite Hidx, Hws, Hres. apply core_inv_started. lia.
  - intros HN HK Hnil. rewrite Hws in Hnil.
    destruct n eqn:Hn; [lia | discriminate Hnil].
  - exact Hret.
Qed.

Lemma limit_worker_of st i w :
  Limit.worker_of i st = Some w -> Limit.workers st !! w = Some (Some i).
Proof.
  unfold Limit.worker_of. intros H.
  destruct (list_find _ _) as [[w' o]|] eqn:Hfind; [|discriminate H].
  simpl in H. inversion H; subst w'.
  apply list_find_Some in Hfind as (Hw & -> & _). exact Hw.
Qed.

Lemma limit_worker_of_exists st i w :
  Limit.workers st !! w = Some (Some i) -> is_Some (Limit.worker_of i st).
Proof.
  intros Hw. unfold Limit.worker_of.
  destruct (list_find_elem_of (fun o => o = Some i) (Limit.workers st) (Some i))
    as [[w' o] Hfind]; [eapply list_elem_of_lookup_2, Hw | reflexivity |].
  rewrite Hfind. eexists; reflexivity.
Qed.

Lemma limit_inv_step done st i st' :
  limit_inv tasks limit done st ->
  Limit.step tasks st i = Some st' ->
  limit_inv tasks limit (i :: done) st'.
Proof.
  intros [Hcore Hws _] Hstep. unfold Limit.step in Hstep.
  destruct (Limit.returned st) eqn:Hret; [discriminate|].
  destruct (Limit.worker_of i st) as [w|] eqn:Hw; [|discriminate].
  destruct (tasks !! i) as [outcome|] eqn:Htask; [|discriminate].
  inversion Hstep; subst st'; clear Hstep.
  apply limit_worker_of in Hw.
  assert (Hslot : limit_slot outcome = limit_expected tasks i)
    by (unfold limit_expected; rewrite Htask; reflexivity).
  apply limit_inv_await.
  - unfold Limit.runTask, Limit.task_settled.
    cbn [Limit.index Limit.results Limit.workers Limit.returned].
    fold (limit_slot outcome). rewrite Hslot.
    case_bool_decide as Hlt; cbn [Limit.index Limit.results Limit.workers].
    + apply core_inv_claim; assumption.
    + apply core_inv_exit; assumption.
  - intros _ _ Hnil. apply (f_equal length) in Hnil.
    apply lookup_lt_Some in Hw.
    unfold Limit.runTask, Limit.task_settled in Hnil.
    case_bool_decide; simpl in Hnil; rewrite length_insert in Hnil; lia.
  - unfold Limit.runTask, Limit.task_settled. case_bool_decide; exact Hret.
Qed.

Lemma limit_inv_run order : forall done st st',
  limit_inv tasks limit done st ->
  Limit.run tasks st order = Some st' ->
  limit_inv tasks limit (rev order ++ done) st'.
Proof.
  induction order as [|i order IH]; intros done st st' Hinv Hrun; simpl in Hrun.
  - inversion Hrun; subst. exact Hinv.
  - destruct (Limit.step tasks st i) as [st1|] eqn:Hstep; [|discriminate].
    simpl. rewrite <- app_assoc. simpl.
    eapply IH; [|exact Hrun]. eapply limit_inv_step; eauto.
Qed.

(** At any point of any run of the limiter, either it has not returned,
    fewer than all tasks have settled and one more can settle; or it has
    returned the slot of every task, in task order, after all have settled. *)
Lemma limit_run_cases order st :
  1 <= limit ->
  Limit.run tasks (Limit.runWithConcurrencyLimit tasks limit) order = Some st ->
  (Limit.returned st = None
   /\ length order < length tasks
   /\ exists i, i < length tasks /\ is_Some (Limit.step tasks st i))
  \/ (Limit.returned st = Some (JS.Fulfilled (limit_slot <$> tasks))
      /\ Limit.results st = limit_slot <$> tasks
      /\ length order = length tasks
      /\ forall i, i < length tasks -> i ∈ order).
Proof.
  intros HK Hrun.
  pose proof (limit_inv_run order [] _ _ limit_inv_start Hrun) as [Hcore Hws Hret].
  rewrite app_nil_r in Hcore.
  destruct (Limit.all_returned st) eqn:Hall.
  - right.
    destruct (core_inv_returned (length tasks) (limit_expected tasks) _ _ _ _ Hcore)
      as (Hres & Hlen & Hdone).
    + apply all_None_forallb. exact Hall.
    + intros HN. apply Hws; assumption.
    + rewrite limit_expected_all in Hres. rewrite length_rev in Hlen.
      rewrite Hret, Hres. repeat split; try assumption.
      intros i Hi. apply list_elem_of_In, in_rev, list_elem_of_In. apply Hdone, Hi.
  - left.
    destruct (core_inv_in_flight (length tasks) (limit_expected tasks) _ _ _ _ Hcore)
      as (Hlen & w & i & Hw & Hi).
    + intros Hnone. apply all_None_forallb in Hnone.
      unfold Limit.all_returned in Hall. congruence.
    + rewrite length_rev in Hlen. repeat split; try assumption.
      exists i. split; [exact Hi|]. unfold Limit.step. rewrite Hret.
      destruct (limit_worker_of_exists st i w Hw) as [w' ->].
      destruct (lookup_lt_is_Some_2 tasks i Hi) as [o ->]. eexists; reflexivity.
Qed.

End LimitFacts.

(** ** runWithConcurrency *)

Lemma SFcompare_swap (x y : spec_float) :
  SFcompare y x = option_map CompOpp (SFcompare x y).
Proof.
  destruct x as [sx|sx| |sx mx ex], y as [sy|sy| |sy my ey]; simpl;
    try reflexivity; try (destruct sx; reflexivity); try (destruct sy; reflexivity);
    try (destruct sx, sy; reflexivity).
  assert (Hpos : Pos.compare_cont Eq my mx = CompOpp (Pos.compare_cont Eq mx my))
    by (rewrite (Pos.compare_cont_antisym mx my Eq); reflexivity).
  destruct sx, sy; simpl; try reflexivity; f_equal;
    rewrite (Z.compare_antisym ey ex); destruct (ey ?= ex)%Z; simpl; try reflexivity;
    change PosDef.Pos.compare_cont with Pos.compare_cont; rewrite Hpos;
    destruct (Pos.compare_cont Eq mx my); reflexivity.
Qed.

Lemma leb_not_ltb (x y : float) : (x <=? y)%float = true -> (y <? x)%float = false.
Proof.
  rewrite FloatAxioms.leb_spec, FloatAxioms.ltb_spec. unfold SFleb, SFltb.
  rewrite (SFcompare_swap (Prim2SF x)).
  destruct (SFcompare (Prim2SF x) (Prim2SF y)) as [[| |]|]; simpl; congruence.
Qed.

(** [Math.min(x, 99)] is never above 99. *)
Lemma Math_min_capped (x : float) : (99 <? JS.Math_min x 99)%float = false.
Proof.
  unfold JS.Math_min. destruct (is_nan x) eqn:Hnan; simpl; [reflexivity|].
  change (is_nan 99) with false. cbv iota.
  destruct (x <=? 99)%float eqn:Hle; [apply leb_not_ltb, Hle | reflexivity].
Qed.


(** *** What holds whatever the callback does *)

Section BatchShape.
Variable tasks : list (JS.settled value).
Variable files : list File.t.
Variable concurrency : nat.
Variable onProgress : option Batch.callback.
Implicit Types (st : Batch.pool) (done : list nat) (evs : list Batch.event).

Lemma batch_expected_all :
  batch_expected tasks <$> seq 0 (length tasks) = batch_slot <$> tasks.
Proof.
  apply list_eq. intros j. rewrite !list_lookup_fmap.
  destruct (decide (j < length tasks)) as [Hj|Hj].
  - rewrite lookup_seq_lt by exact Hj. simpl. unfold batch_expected.
    destruct (lookup_lt_is_Some_2 tasks j Hj) as [o Ho]. rewrite Ho. reflexivity.
  - rewrite lookup_seq_ge by lia. rewrite (lookup_ge_None_2 tasks j) by lia. reflexivity.
Qed.

(** The calls made are among those asked for. *)
Lemma call_all_emitted fn calls : forall emitted e,
  e ∈ (Batch.call_all fn emitted calls).1 -> e ∈ emitted \/ e ∈ calls.
Proof.
  induction calls as [|a calls IH]; intros emitted e; simpl; [auto|].
  destruct (fn emitted a); simpl.
  - intros He. apply elem_of_app in He as [He|He]; [auto|].
    apply list_elem_of_singleton in He as ->. right. left.
  - intros He. apply IH in He as [He|He]; [|right; right; exact He].
    apply elem_of_app in He as [He|He]; [auto|].
    apply list_elem_of_singleton in He as ->. right. left.
Qed.

Lemma call_emitted emitted calls e :
  e ∈ (Batch.call onProgress emitted calls).1 -> e ∈ emitted \/ e ∈ calls.
Proof. apply call_all_emitted. Qed.

(** [report] touches the throttle and the emitted events only. *)
Lemma report_fields args now st :
  Batch.results (Batch.report onProgress args now st).1 = Batch.results st
  /\ Batch.completed (Batch.report onProgress args now st).1 = Batch.completed st
  /\ Batch.index (Batch.report onProgress args now st).1 = Batch.index st
  /\ Batch.workers (Batch.report onProgress args now st).1 = Batch.workers st
  /\ Batch.returned (Batch.report onProgress args now st).1 = Batch.returned st.
Proof.
  unfold Batch.report. destruct (Batch.throttledProgress st) as [th|]; [|auto].
  destruct (Throttle.throttled 100 args now th).
  destruct (Batch.call onProgress (Batch.emitted st) l). auto.
Qed.

Lemma report_emitted args now st e :
  e ∈ Batch.emitted (Batch.report onProgress args now st).1 ->
  e ∈ Batch.emitted st \/ e = args.
Proof.
  unfold Batch.report. destruct (Batch.throttledProgress st) as [th|]; [|auto].
  destruct (Throttle.throttled 100 args now th) as [th' calls] eqn:Hth.
  pose proof (call_emitted (Batch.emitted st) calls e) as Hcall.
  destruct (Batch.call onProgress (Batch.emitted st) calls) as [emitted' thrown].
  simpl in *. intros He. destruct (Hcall He) as [Hin|Hin]; [auto|]. right.
  unfold Throttle.throttled in Hth.
  destruct (decide _); [|destruct (Throttle.timeoutId th)];
    inversion Hth; subst calls; [|inversion Hin..].
  apply list_elem_of_singleton in Hin. exact Hin.
Qed.

(** After a report the throttle holds the arguments of that report. *)
Lemma report_holds args now st th :
  Batch.throttledProgress (Batch.report onProgress args now st).1 = Some th ->
  Throttle.lastArgs th = Some args.
Proof.
  unfold Batch.report. destruct (Batch.throttledProgress st) as [th0|] eqn:Hth.
  - destruct (Throttle.throttled 100 args now th0) as [th' calls] eqn:Hthrottled.
    destruct (Batch.call onProgress (Batch.emitted st) calls). simpl.
    intros [= <-]. unfold Throttle.throttled in Hthrottled.
    destruct (decide _); [|destruct (Throttle.timeoutId th0)];
      inversion Hthrottled; reflexivity.
  - simpl. congruence.
Qed.

Lemma report_lastArgs args now st th a :
  Batch.throttledProgress (Batch.report onProgress args now st).1 = Some th ->
  Throttle.lastArgs th = Some a ->
  a = args.
Proof. intros Hth Ha. rewrite (report_holds _ _ _ _ Hth) in Ha. congruence. Qed.

Lemma report_throttle args now st :
  Batch.throttledProgress (Batch.report onProgress args now st).1 = None
  <-> Batch.throttledProgress st = None.
Proof.
  unfold Batch.report. destruct (Batch.throttledProgress st) as [th|] eqn:Hth.
  - destruct (Throttle.throttled 100 args now th).
    destruct (Batch.call onProgress (Batch.emitted st) l).
    simpl. split; intros H; discriminate H.
  - simpl. rewrite Hth. tauto.
Qed.

(** Whatever the callback does, a settlement leaves the cursor, the workers
    and the promise of the call alone. *)
Lemma task_settled_shape i file outcome now st :
  Batch.index (Batch.task_settled tasks files onProgress i file outcome now st)
  = Batch.index st
  /\ Batch.workers (Batch.task_settled tasks files onProgress i file outcome now st)
     = Batch.workers st
  /\ Batch.returned (Batch.task_settled tasks files onProgress i file outcome now st)
     = Batch.returned st.
Proof.
  unfold Batch.task_settled. destruct outcome as [result|error]; [|auto].
  match goal with |- context [Batch.report onProgress ?a ?n ?s] =>
    pose proof (report_fields a n s) as (_ & _ & H3 & H4 & H5);
    destruct (Batch.report onProgress a n s) as [st' thrown]
  end.
  simpl in H3, H4, H5. destruct thrown; simpl; auto.
Qed.

Lemma batch_await_fields st :
  Batch.index (Batch.await_workers tasks onProgress st) = Batch.index st
  /\ Batch.workers (Batch.await_workers tasks onProgress st) = Batch.workers st
  /\ Batch.completed (Batch.await_workers tasks onProgress st) = Batch.completed st
  /\ Batch.results (Batch.await_workers tasks onProgress st) = Batch.results st.
Proof.
  unfold Batch.await_workers. destruct (Batch.all_returned st); [|auto].
  unfold Batch.finish. destruct (Batch.throttledProgress st) as [th|]; [|auto].
  destruct (Throttle.flush th) as [th' calls].
  destruct (Batch.call onProgress (Batch.emitted st) calls) as [emitted' [error|]]; [auto|].
  destruct (Batch.call onProgress emitted' [Batch.final tasks st]). auto.
Qed.

(** Starting [m] workers from cursor [k]: worker [w] claims task [w]. *)
Lemma batch_start m : forall k st,
  Batch.index st = k ->
  k + m <= length tasks ->
  Batch.workers st = (Some <$> seq 0 k) ++ replicate m None ->
  foldl (fun st w => Batch.runTask tasks w st) st (seq k m)
  = Batch.mkPool (Batch.results st) (Batch.completed st) (k + m) (Batch.fileProgress st)
                 (Batch.uploadedSizeCache st) (Batch.throttledProgress st)
                 (Some <$> seq 0 (k + m)) (Batch.emitted st) (Batch.returned st).
Proof.
  induction m as [|m IH]; intros k st Hidx Hle Hws; simpl.
  - rewrite Nat.add_0_r. rewrite app_nil_r in Hws. rewrite <- Hws, <- Hidx.
    destruct st; reflexivity.
  - assert (Hclaim : Batch.runTask tasks k st
                     = Batch.mkPool (Batch.results st) (Batch.completed st) (S k)
                                    (Batch.fileProgress st) (Batch.uploadedSizeCache st)
                                    (Batch.throttledProgress st)
                                    ((Some <$> seq 0 (S k)) ++ replicate m None)
                                    (Batch.emitted st) (Batch.returned st)).
    { unfold Batch.runTask. rewrite bool_decide_eq_true_2 by lia.
      rewrite Hidx, Hws. f_equal.
      rewrite seq_S, fmap_app, <- app_assoc.
      replace k with (length (Some <$> seq 0 k) + 0) at 1
        by (rewrite length_fmap, length_seq; lia).
      rewrite insert_app_r. reflexivity. }
    rewrite Hclaim, (IH (S k)); [|reflexivity | lia | reflexivity].
    simpl. replace (k + S m) with (S (k + m)) by lia. reflexivity.
Qed.

Lemma batch_worker_of st i w :
  Batch.worker_of i st = Some w -> Batch.workers st !! w = Some (Some i).
Proof.
  unfold Batch.worker_of. intros H.
  destruct (list_find _ _) as [[w' o]|] eqn:Hfind; [|discriminate H].
  simpl in H. inversion H; subst w'.
  apply list_find_Some in Hfind as (Hw & -> & _). exact Hw.
Qed.

Lemma batch_worker_of_exists st i w :
  Batch.workers st !! w = Some (Some i) -> is_Some (Batch.worker_of i st).
Proof.
  intros Hw. unfold Batch.worker_of.
  destruct (list_find_elem_of (fun o => o = Some i) (Batch.workers st) (Some i))
    as [[w' o] Hfind]; [eapply list_elem_of_lookup_2, Hw | reflexivity |].
  rewrite Hfind. eexists; reflexivity.
Qed.

(** What a step does to the cursor and the workers: nothing, unless a task
    settles; then the worker that awaited it claims the task at the cursor
    when one is left, and returns otherwise. *)
Lemma batch_step_shape st ev st' :
  Batch.step tasks files onProgress st ev = Some st' ->
  (settles [ev] = [] /\ Batch.index st' = Batch.index st
   /\ Batch.workers st' = Batch.workers st)
  \/ exists i now w next,
       ev = Batch.TaskSettles i now
       /\ Batch.workers st !! w = Some (Some i)
       /\ Batch.workers st' = <[w := next]> (Batch.workers st)
       /\ ((next = Some (Batch.index st) /\ Batch.index st' = S (Batch.index st)
            /\ Batch.index st < length tasks)
           \/ (next = None /\ Batch.index st' = Batch.index st
               /\ ~ Batch.index st < length tasks)).
Proof.
  unfold Batch.step. destruct (Batch.returned st); [discriminate|].
  destruct ev as [i percent now | i now | now].
  - destruct (Batch.worker_of i st); [|discriminate].
    destruct (files !! i) as [file|]; [|discriminate].
    intros [= <-]. left. unfold Batch.progress_callback.
    match goal with |- context [Batch.report onProgress ?a ?n ?s] =>
      pose proof (report_fields a n s) as (_ & _ & H3 & H4 & _)
    end.
    rewrite H3, H4. auto.
  - destruct (Batch.worker_of i st) as [w|] eqn:Hw; [|discriminate].
    destruct (files !! i) as [file|]; [|discriminate].
    destruct (tasks !! i) as [outcome|]; [|discriminate].
    intros [= <-]. right. apply batch_worker_of in Hw.
    pose proof (task_settled_shape i file outcome now st) as (H3 & H4 & _).
    match goal with |- context [Batch.await_workers tasks onProgress ?s] =>
      pose proof (batch_await_fields s) as (A1 & A2 & _)
    end.
    rewrite A1, A2. unfold Batch.runTask. rewrite H3.
    case_bool_decide; simpl; rewrite H4.
    + exists i, now, w, (Some (Batch.index st)).
      repeat (split; [reflexivity || assumption|]). left. auto.
    + exists i, now, w, None.
      repeat (split; [reflexivity || assumption|]). right. auto.
  - destruct (Batch.throttledProgress st) as [th|]; [|discriminate].
    destruct (Throttle.timeoutId th); [|discriminate].
    destruct (Throttle.timeout_callback now th). intros [= <-]. left. auto.
Qed.

Lemma settles_app evs1 evs2 : settles (evs1 ++ evs2) = settles evs1 ++ settles evs2.
Proof. unfold settles. apply omap_app. Qed.

Lemma batch_run_app evs1 : forall evs2 st,
  Batch.run tasks files onProgress st (evs1 ++ evs2)
  = match Batch.run tasks files onProgress st evs1 with
    | Some st' => Batch.run tasks files onProgress st' evs2
    | None => None
    end.
Proof.
  induction evs1 as [|ev evs1 IH]; intros evs2 st; simpl; [reflexivity|].
  destruct (Batch.step tasks files onProgress st ev); [apply IH | reflexivity].
Qed.

(** The cursor and the workers keep the pool's bookkeeping, whatever is
    written in the results array. *)
Lemma batch_sched_run evs : forall done st st',
  (exists ghost : list unit,
      core_inv (length tasks) (fun _ => tt) done
               (Batch.index st) ghost (Batch.workers st)) ->
  Batch.run tasks files onProgress st evs = Some st' ->
  exists ghost : list unit,
    core_inv (length tasks) (fun _ => tt) (rev (settles evs) ++ done)
             (Batch.index st') ghost (Batch.workers st').
Proof.
  induction evs as [|ev evs IH]; intros done st st' Hinv Hrun; simpl in Hrun.
  - inversion Hrun; subst. exact Hinv.
  - destruct (Batch.step tasks files onProgress st ev) as [st1|] eqn:Hstep; [|discriminate].
    change (ev :: evs) with ([ev] ++ evs). rewrite settles_app, rev_app_distr, <- app_assoc.
    eapply IH; [|exact Hrun].
    destruct Hinv as [ghost Hcore].
    destruct (batch_step_shape _ _ _ Hstep)
      as [(-> & -> & ->) | (i & now & w & next & -> & Hw & -> & Hnext)].
    + exists ghost. exact Hcore.
    + exists (JS.array_set tt ghost i tt). simpl.
      destruct Hnext as [(-> & -> & Hlt) | (-> & -> & Hge)].
      * apply (core_inv_claim tt); assumption.
      * apply (core_inv_exit tt); assumption.
Qed.

Lemma batch_sched_start :
  exists ghost : list unit,
    core_inv (length tasks) (fun _ => tt) []
             (Batch.index (Batch.runWithConcurrency tasks files concurrency onProgress))
             ghost
             (Batch.workers (Batch.runWithConcurrency tasks files concurrency onProgress)).
Proof.
  exists []. unfold Batch.runWithConcurrency.
  match goal with |- context [Batch.await_workers tasks onProgress ?s] =>
    pose proof (batch_await_fields s) as (A1 & A2 & _)
  end.
  rewrite A1, A2.
  rewrite (batch_start (min concurrency (length tasks)) 0);
    [|reflexivity | lia | reflexivity].
  simpl. apply core_inv_started. lia.
Qed.






End BatchShape.

(** *** With a callback that does not throw *)

Section BatchFacts.
Variable tasks : list (JS.settled value).
Variable files : list File.t.
Variable concurrency : nat.
Variable onProgress : option Batch.callback.
Implicit Types (st : Batch.pool) (done : list nat) (evs : list Batch.event).

Lemma call_quiet calls :
  quiet onProgress ->
  forall emitted, Batch.call onProgress emitted calls = (emitted ++ calls, None).
Proof.
  intros Hquiet. unfold Batch.call.
  assert (Hfn : forall emitted args,
            default (fun _ _ => None) onProgress emitted args = None).
  { destruct onProgress as [fn|]; simpl; [apply Hquiet; reflexivity | reflexivity]. }
  induction calls as [|a calls IH]; intros emitted; simpl.
  - rewrite app_nil_r. reflexivity.
  - rewrite Hfn, IH, <- app_assoc. reflexivity.
Qed.

Lemma report_quiet args now st :
  quiet onProgress ->
  Batch.report onProgress args now st
  = (match Batch.throttledProgress st with
     | Some th =>
         Batch.mkPool (Batch.results st) (Batch.completed st) (Batch.index st)
                      (Batch.fileProgress st) (Batch.uploadedSizeCache st)
                      (Some (Throttle.throttled 100 args now th).1) (Batch.workers st)
                      (Batch.emitted st ++ (Throttle.throttled 100 args now th).2)
                      (Batch.returned st)
     | None => st
     end, None).
Proof.
  intros Hquiet. unfold Batch.report.
  destruct (Batch.throttledProgress st) as [th|]; [|reflexivity].
  destruct (Throttle.throttled 100 args now th) as [th' calls].
  rewrite (call_quiet calls Hquiet). reflexivity.
Qed.

(** A report delivers its own arguments at once, or nothing. *)
Lemma report_delivers args now st :
  quiet onProgress ->
  exists imm,
    Batch.emitted (Batch.report onProgress args now st).1 = Batch.emitted st ++ imm
    /\ forall e, e ∈ imm -> e = args.
Proof.
  intros Hquiet. rewrite (report_quiet _ _ _ Hquiet). simpl.
  destruct (Batch.throttledProgress st) as [th|].
  - eexists. split; [reflexivity|]. unfold Throttle.throttled.
    destruct (decide _); [|destruct (Throttle.timeoutId th)]; simpl; intros e He;
      [apply list_elem_of_singleton in He; exact He | inversion He..].
  - exists []. rewrite app_nil_r. split; [reflexivity|]. intros e He. inversion He.
Qed.

Lemma finish_quiet st :
  quiet onProgress ->
  Batch.finish tasks onProgress st
  = match Batch.throttledProgress st with
    | Some th =>
        Batch.mkPool (Batch.results st) (Batch.completed st) (Batch.index st)
                     (Batch.fileProgress st) (Batch.uploadedSizeCache st)
                     (Some (Throttle.flush th).1) (Batch.workers st)
                     (Batch.emitted st ++ (Throttle.flush th).2
                      ++ [final_event tasks (Batch.results st)])
                     (Some (JS.Fulfilled (Batch.results st)))
    | None =>
        Batch.mkPool (Batch.results st) (Batch.completed st) (Batch.index st)
                     (Batch.fileProgress st) (Batch.uploadedSizeCache st)
                     None (Batch.workers st) (Batch.emitted st)
                     (Some (JS.Fulfilled (Batch.results st)))
    end.
Proof.
  intros Hquiet. unfold Batch.finish.
  destruct (Batch.throttledProgress st) as [th|]; [|reflexivity].
  destruct (Throttle.flush th) as [th' calls].
  rewrite (call_quiet calls Hquiet). cbv iota beta.
  rewrite (call_quiet _ Hquiet). cbv iota beta.
  rewrite <- app_assoc. reflexivity.
Qed.

(** A fulfilled task: the [try] block runs to its end, and reports. *)
Lemma task_settled_fulfilled i file result now st :
  quiet onProgress ->
  exists args,
    Batch.task_settled tasks files onProgress i file (JS.Fulfilled result) now st
    = (Batch.report onProgress args now (Batch.settle i file result st)).1
    /\ Progress.completed args = S (Batch.completed st)
    /\ Progress.total args = length tasks
    /\ Progress.currentIndex args = Z.of_nat i
    /\ Progress.result args = result
    /\ (S (Batch.completed st) = length tasks -> Progress.percent args = 100%float)
    /\ (S (Batch.completed st) <> length tasks -> capped args).
Proof.
  intros Hquiet. unfold Batch.task_settled.
  match goal with |- context [Batch.report onProgress ?a now ?s] => exists a end.
  split; [rewrite (report_quiet _ _ _ Hquiet); reflexivity|].
  cbn [Progress.completed Progress.total Progress.currentIndex
       Progress.result Progress.percent Batch.completed Batch.settle].
  repeat (split; [reflexivity|]). split.
  - intros Heq. rewrite bool_decide_eq_true_2 by exact Heq. reflexivity.
  - intros Hne. unfold capped. cbn [Progress.percent].
    rewrite bool_decide_eq_false_2 by exact Hne. apply Math_min_capped.
Qed.

Lemma task_settled_fields i file outcome now st :
  quiet onProgress ->
  Batch.results (Batch.task_settled tasks files onProgress i file outcome now st)
  = JS.array_set undefined (Batch.results st) i (batch_slot outcome)
  /\ Batch.completed (Batch.task_settled tasks files onProgress i file outcome now st)
     = S (Batch.completed st)
  /\ Batch.index (Batch.task_settled tasks files onProgress i file outcome now st)
     = Batch.index st
  /\ Batch.workers (Batch.task_settled tasks files onProgress i file outcome now st)
     = Batch.workers st
  /\ Batch.returned (Batch.task_settled tasks files onProgress i file outcome now st)
     = Batch.returned st
  /\ (Batch.throttledProgress (Batch.task_settled tasks files onProgress i file outcome now st)
      = None
      <-> Batch.throttledProgress st = None).
Proof.
  intros Hquiet. destruct outcome as [result|error].
  - destruct (task_settled_fulfilled i file result now st Hquiet) as (args & -> & _).
    match goal with |- context [Batch.report onProgress ?a ?n ?s] =>
      pose proof (report_fields onProgress a n s) as (H1 & H2 & H3 & H4 & H5);
      pose proof (report_throttle onProgress a n s) as H6
    end.
    rewrite H1, H2, H3, H4, H5, H6. simpl. tauto.
  - simpl. tauto.
Qed.

(** What a settlement adds to the events, the events emitted before and
    the one the throttle held being capped: capped events only unless it is
    the last settlement; at the last settlement a fulfilled task leaves its
    completion event, at 100, with the throttle. *)
Lemma task_settled_split i file outcome now st :
  quiet onProgress ->
  (forall e, e ∈ Batch.emitted st -> capped e) ->
  (forall th a, Batch.throttledProgress st = Some th ->
                Throttle.lastArgs th = Some a -> capped a) ->
  exists low high,
    Batch.emitted (Batch.task_settled tasks files onProgress i file outcome now st)
    = low ++ high
    /\ Forall capped low
    /\ Forall full high
    /\ (forall th a,
          Batch.throttledProgress (Batch.task_settled tasks files onProgress i file outcome now st)
          = Some th ->
          Throttle.lastArgs th = Some a -> (capped a /\ high = []) \/ full a)
    /\ (S (Batch.completed st) <> length tasks ->
        high = []
        /\ forall th a,
            Batch.throttledProgress
              (Batch.task_settled tasks files onProgress i file outcome now st) = Some th ->
            Throttle.lastArgs th = Some a -> capped a)
    /\ (S (Batch.completed st) = length tasks ->
        forall result th,
          outcome = JS.Fulfilled result ->
          Batch.throttledProgress
            (Batch.task_settled tasks files onProgress i file outcome now st) = Some th ->
          Throttle.lastArgs th = Some (completion_event tasks i result)).
Proof.
  intros Hquiet Hemitted Hheld.
  assert (Hlow : Forall capped (Batch.emitted st)) by (apply Forall_forall; exact Hemitted).
  destruct outcome as [result|error].
  - destruct (task_settled_fulfilled i file result now st Hquiet)
      as (args & -> & Hc & Ht & Hi & Hr & H100 & Hcap).
    destruct (report_delivers args now (Batch.settle i file result st) Hquiet)
      as (imm & Himm & Hargs).
    pose proof (report_holds onProgress args now (Batch.settle i file result st)) as Hholds.
    rewrite Himm. cbn [Batch.emitted Batch.settle].
    destruct (decide (S (Batch.completed st) = length tasks)) as [Heq|Hne].
    + exists (Batch.emitted st), imm. split; [reflexivity|]. split; [exact Hlow|].
      split; [|split; [|split]].
      * apply Forall_forall. intros e He. rewrite (Hargs e He). apply H100, Heq.
      * intros th a Hth Ha. right. rewrite (Hholds th Hth) in Ha. inversion Ha; subst a.
        apply H100, Heq.
      * intros Hne. contradiction.
      * intros _ result' th [= <-] Hth. rewrite (Hholds th Hth). f_equal.
        destruct args as [c t p ci r]. simpl in *. unfold completion_event.
        rewrite (H100 Heq). subst. rewrite Heq. reflexivity.
    + exists (Batch.emitted st ++ imm), []. rewrite app_nil_r. split; [reflexivity|].
      assert (Hcapped : forall th a,
                Batch.throttledProgress
                  (Batch.report onProgress args now (Batch.settle i file result st)).1
                = Some th ->
                Throttle.lastArgs th = Some a -> capped a).
      { intros th a Hth Ha. rewrite (Hholds th Hth) in Ha. inversion Ha; subst a.
        apply Hcap, Hne. }
      split; [|split; [constructor|split; [|split]]].
      * apply Forall_app. split; [exact Hlow|].
        apply Forall_forall. intros e He. rewrite (Hargs e He). apply Hcap, Hne.
      * intros th a Hth Ha. left. split; [eapply Hcapped; eassumption | reflexivity].
      * intros _. split; [reflexivity | exact Hcapped].
      * intros Heq. contradiction.
  - cbn [Batch.task_settled Batch.settle Batch.emitted Batch.throttledProgress].
    exists (Batch.emitted st), []. rewrite app_nil_r. split; [reflexivity|].
    split; [exact Hlow|]. split; [constructor|]. split; [|split].
    + intros th a Hth Ha. left. split; [eapply Hheld; eassumption | reflexivity].
    + intros _. split; [reflexivity | exact Hheld].
    + intros _ result th Hout. discriminate Hout.
Qed.

(** [await Promise.all(workers)] and what follows, on a pool that has not
    returned. *)
Lemma batch_inv_await done st low high :
  quiet onProgress ->
  core_inv (length tasks) (batch_expected tasks) done
           (Batch.index st) (Batch.results st) (Batch.workers st) ->
  (1 <= length tasks -> 1 <= concurrency -> Batch.workers st <> []) ->
  Batch.completed st = length done ->
  (Batch.throttledProgress st = None <-> onProgress = None) ->
  Batch.returned st = None ->
  Batch.emitted st = low ++ high ->
  Forall capped low ->
  Forall full high ->
  (forall th a, Batch.throttledProgress st = Some th -> Throttle.lastArgs th = Some a ->
                (capped a /\ high = []) \/ full a) ->
  (Batch.all_returned st = false ->
   high = []
   /\ forall th a, Batch.throttledProgress st = Some th ->
                   Throttle.lastArgs th = Some a -> capped a) ->
  (Batch.all_returned st = true ->
   forall i result th,
     head done = Some i -> tasks !! i = Some (JS.Fulfilled result) ->
     Batch.throttledProgress st = Some th ->
     Throttle.lastArgs th = Some (completion_event tasks i result)) ->
  batch_inv tasks concurrency onProgress done (Batch.await_workers tasks onProgress st).
Proof.
  intros Hquiet Hcore Hws Hcompleted Hthrottle Hret Hem Hlow Hhigh Hheld Hrunning Hlast.
  unfold Batch.await_workers. destruct (Batch.all_returned st) eqn:Hall.
  - rewrite (finish_quiet st Hquiet).
    destruct (Batch.throttledProgress st) as [th|] eqn:Hth.
    + assert (Hon : exists fn, onProgress = Some fn).
      { destruct onProgress as [fn|]; [eauto|].
        destruct Hthrottle as [_ Hoff]. discriminate (Hoff eq_refl). }
      destruct Hon as [fn Hon].
      split; simpl; try assumption.
      * split; [discriminate|]. intros Hoff. apply Hthrottle in Hoff. discriminate Hoff.
      * discriminate.
      * intros r [= <-]. split; [exact Hall|]. split; [reflexivity|].
        rewrite Hem, Hon. unfold Throttle.flush.
        destruct (Throttle.lastArgs th) as [a|] eqn:Ha; simpl.
        -- assert (Hevent : forall i result,
                     head done = Some i -> tasks !! i = Some (JS.Fulfilled result) ->
                     a = completion_event tasks i result).
           { intros i result Hi Htask.
             specialize (Hlast eq_refl i result th Hi Htask eq_refl). congruence. }
           destruct (Hheld th a eq_refl Ha) as [[Hcap ->]|Hfull].
           ++ exists (low ++ [a]), []. rewrite !app_nil_r, <- app_assoc.
              split; [reflexivity|]. split; [|split; [constructor|]].
              ** apply Forall_app. split; [exact Hlow | repeat constructor; exact Hcap].
              ** intros _ i result Hi Htask. exists low.
                 rewrite (Hevent i result Hi Htask). reflexivity.
           ++ exists low, (high ++ [a]). rewrite <- !app_assoc.
              split; [reflexivity|]. split; [exact Hlow|]. split.
              ** apply Forall_app. split; [exact Hhigh | repeat constructor; exact Hfull].
              ** intros _ i result Hi Htask. exists (low ++ high).
                 rewrite (Hevent i result Hi Htask), <- app_assoc. reflexivity.
        -- exists low, high. rewrite <- app_assoc.
           split; [reflexivity|]. split; [exact Hlow|]. split; [exact Hhigh|].
           intros _ i result Hi Htask.
           specialize (Hlast eq_refl i result th Hi Htask eq_refl). congruence.
    + assert (Hoff : onProgress = None) by (apply Hthrottle; reflexivity).
      split; simpl; try assumption.
      * discriminate.
      * intros r [= <-]. split; [exact Hall|]. split; [reflexivity|].
        exists low, high. rewrite Hem, Hoff, app_nil_r.
        split; [reflexivity|]. split; [exact Hlow|]. split; [exact Hhigh|].
        intros Hon. contradiction.
  - split; try assumption.
    + intros _. destruct (Hrunning eq_refl) as [-> Hcap]. rewrite app_nil_r in Hem.
      split; [exact Hall|]. split; [|exact Hcap].
      intros e He. rewrite Hem in He. rewrite Forall_forall in Hlow. apply Hlow, He.
    + intros r Hr. congruence.
Qed.

Lemma batch_inv_start :
  quiet onProgress ->
  batch_inv tasks concurrency onProgress []
            (Batch.runWithConcurrency tasks files concurrency onProgress).
Proof.
  intros Hquiet. unfold Batch.runWithConcurrency.
  set (n := min concurrency (length tasks)).
  rewrite (batch_start tasks n 0); [|reflexivity | lia | reflexivity].
  apply (batch_inv_await [] _ [] []); simpl.
  - exact Hquiet.
  - apply core_inv_started. lia.
  - intros HN HK Hnil. destruct n eqn:Hn; [lia | discriminate Hnil].
  - reflexivity.
  - destruct onProgress; split; intros H; try reflexivity; discriminate H.
  - reflexivity.
  - reflexivity.
  - constructor.
  - constructor.
  - intros th a Hth Ha. destruct onProgress; [|discriminate Hth].
    inversion Hth; subst th. discriminate Ha.
  - intros _. split; [reflexivity|].
    intros th a Hth Ha. destruct onProgress; [|discriminate Hth].
    inversion Hth; subst th. discriminate Ha.
  - intros _ i result th Hi. discriminate Hi.
Qed.

Lemma batch_inv_step done st ev st' :
  quiet onProgress ->
  batch_inv tasks concurrency onProgress done st ->
  Batch.step tasks files onProgress st ev = Some st' ->
  batch_inv tasks concurrency onProgress (settles [ev] ++ done) st'.
Proof.
  intros Hquiet [Hcore Hws Hcompleted Hthrottle Hrunning _] Hstep.
  unfold Batch.step in Hstep.
  destruct (Batch.returned st) eqn:Hret; [discriminate|].
  destruct (Hrunning eq_refl) as (Hall & Hemitted & Hlast).
  destruct ev as [i percent now | i now | now].
  - (* a task reports progress *)
    destruct (Batch.worker_of i st) as [w|]; [|discriminate].
    destruct (files !! i) as [file|]; [|discriminate].
    inversion Hstep; subst st'; clear Hstep. simpl.
    unfold Batch.progress_callback.
    match goal with |- context [Batch.report onProgress ?a ?n ?s] =>
      pose proof (report_fields onProgress a n s) as (H1 & H2 & H3 & H4 & H5);
      pose proof (report_throttle onProgress a n s) as H6;
      pose proof (report_emitted onProgress a n s) as H7;
      pose proof (report_lastArgs onProgress a n s) as H8;
      set (st1 := (Batch.report onProgress a n s).1) in *
    end.
    simpl in H1, H2, H3, H4, H5, H6, H7.
    split.
    + rewrite H1, H3, H4. exact Hcore.
    + rewrite H4. exact Hws.
    + rewrite H2. exact Hcompleted.
    + rewrite H6. exact Hthrottle.
    + intros _. split; [|split].
      * unfold Batch.all_returned. rewrite H4. exact Hall.
      * intros e He. apply H7 in He as [He| ->]; [apply Hemitted, He|].
        apply Math_min_capped.
      * intros th args Hth Hargs. rewrite (H8 _ _ Hth Hargs). apply Math_min_capped.
    + intros r Hr. rewrite H5 in Hr. congruence.
  - (* a task settles *)
    destruct (Batch.worker_of i st) as [w|] eqn:Hw; [|discriminate].
    destruct (files !! i) as [file|]; [|discriminate].
    destruct (tasks !! i) as [outcome|] eqn:Htask; [|discriminate].
    inversion Hstep; subst st'; clear Hstep. simpl.
    apply batch_worker_of in Hw.
    assert (Hslot : batch_slot outcome = batch_expected tasks i)
      by (unfold batch_expected; rewrite Htask; reflexivity).
    pose proof (task_settled_fields i file outcome now st Hquiet)
      as (H1 & H2 & H3 & H4 & H5 & H6).
    destruct (task_settled_split i file outcome now st Hquiet Hemitted Hlast)
      as (low & high & Hem & Hlow & Hhigh & Hheld & Hcapped & Hevent).
    set (st1 := Batch.task_settled tasks files onProgress i file outcome now st) in *.
    assert (Hcore' : core_inv (length tasks) (batch_expected tasks) (i :: done)
                       (Batch.index (Batch.runTask tasks w st1))
                       (Batch.results (Batch.runTask tasks w st1))
                       (Batch.workers (Batch.runTask tasks w st1))).
    { unfold Batch.runTask. rewrite H3.
      case_bool_decide as Hlt; cbn [Batch.index Batch.results Batch.workers];
        rewrite H1, H4, Hslot.
      - apply core_inv_claim; assumption.
      - apply core_inv_exit; assumption. }
    assert (Hsame : Batch.emitted (Batch.runTask tasks w st1) = Batch.emitted st1
                    /\ Batch.throttledProgress (Batch.runTask tasks w st1)
                       = Batch.throttledProgress st1)
      by (unfold Batch.runTask; case_bool_decide; auto).
    destruct Hsame as [E2 T2].
    assert (Hnonempty : Batch.workers (Batch.runTask tasks w st1) <> []).
    { intros Hnil. apply (f_equal length) in Hnil.
      apply lookup_lt_Some in Hw. unfold Batch.runTask in Hnil.
      case_bool_decide; simpl in Hnil; rewrite length_insert, H4 in Hnil; lia. }
    assert (Hnot_last : Batch.all_returned (Batch.runTask tasks w st1) = false ->
                        S (Batch.completed st) <> length tasks).
    { intros Hall'. destruct (core_inv_in_flight _ _ _ _ _ _ Hcore') as [Hlen _].
      - intros Hnone. apply all_None_forallb in Hnone.
        unfold Batch.all_returned in Hall'. congruence.
      - simpl in Hlen. lia. }
    assert (His_last : Batch.all_returned (Batch.runTask tasks w st1) = true ->
                       S (Batch.completed st) = length tasks).
    { intros Hall'.
      destruct (core_inv_returned (length tasks) (batch_expected tasks) _ _ _ _ Hcore')
        as (_ & Hlen & _).
      - apply all_None_forallb. exact Hall'.
      - intros _. exact Hnonempty.
      - simpl in Hlen. lia. }
    apply (batch_inv_await (i :: done) _ low high).
    + exact Hquiet.
    + exact Hcore'.
    + intros _ _. exact Hnonempty.
    + unfold Batch.runTask. case_bool_decide; simpl; rewrite H2, Hcompleted; reflexivity.
    + unfold Batch.runTask. case_bool_decide; simpl; rewrite H6; exact Hthrottle.
    + unfold Batch.runTask. case_bool_decide; simpl; rewrite H5; exact Hret.
    + rewrite E2. exact Hem.
    + exact Hlow.
    + exact Hhigh.
    + rewrite T2. exact Hheld.
    + intros Hall'. rewrite T2. apply Hcapped, Hnot_last, Hall'.
    + intros Hall' i0 result th [= <-] Htask' Hth. rewrite T2 in Hth.
      apply (Hevent (His_last Hall') result th); [congruence | exact Hth].
  - (* the throttle's timer fires *)
    destruct (Batch.throttledProgress st) as [th|] eqn:Hth; [|discriminate].
    destruct (Throttle.timeoutId th); [|discriminate].
    unfold Throttle.timeout_callback in Hstep. rewrite (call_quiet _ Hquiet) in Hstep.
    inversion Hstep; subst st'; clear Hstep. simpl.
    split; simpl; try assumption.
    + split; [discriminate|]. intros Hoff. apply Hthrottle in Hoff. discriminate Hoff.
    + intros _. split; [exact Hall|]. split.
      * intros e He. apply elem_of_app in He as [He|He]; [apply Hemitted, He|].
        destruct (Throttle.lastArgs th) as [args|] eqn:Hargs; [|inversion He].
        apply list_elem_of_singleton in He as ->. eapply Hlast; [reflexivity | exact Hargs].
      * intros th' args [= <-] Hargs. simpl in Hargs. eapply Hlast; [reflexivity | exact Hargs].
    + intros r Hr. congruence.
Qed.

Lemma batch_inv_run evs :
  quiet onProgress ->
  forall done st st',
  batch_inv tasks concurrency onProgress done st ->
  Batch.run tasks files onProgress st evs = Some st' ->
  batch_inv tasks concurrency onProgress (rev (settles evs) ++ done) st'.
Proof.
  intros Hquiet.
  induction evs as [|ev evs IH]; intros done st st' Hinv Hrun; simpl in Hrun.
  - inversion Hrun; subst. exact Hinv.
  - destruct (Batch.step tasks files onProgress st ev) as [st1|] eqn:Hstep; [|discriminate].
    change (ev :: evs) with ([ev] ++ evs). rewrite settles_app, rev_app_distr, <- app_assoc.
    eapply IH; [|exact Hrun].
    replace (rev (settles [ev])) with (settles [ev])
      by (destruct ev; reflexivity).
    eapply batch_inv_step; eauto.
Qed.

End BatchFacts.

Section LimitRuns.
Context {R : Type}.
Variable tasks : list (JS.settled R).
Variable limit : nat.

Lemma limit_run_app order1 : forall order2 st,
  Limit.run tasks st (order1 ++ order2)
  = match Limit.run tasks st order1 with
    | Some st' => Limit.run tasks st' order2
    | None => None
    end.
Proof.
  induction order1 as [|i order1 IH]; intros order2 st; simpl; [reflexivity|].
  destruct (Limit.step tasks st i); [apply IH | reflexivity].
Qed.

(** Every run of the limiter can be continued until it returns. *)
Lemma limit_completes (fuel : nat) : forall order st,
  1 <= limit ->
  Limit.run tasks (Limit.runWithConcurrencyLimit tasks limit) order = Some st ->
  length tasks - length order <= fuel ->
  exists more st',
    Limit.run tasks (Limit.runWithConcurrencyLimit tasks limit) (order ++ more) = Some st'
    /\ Limit.returned st' = Some (JS.Fulfilled (limit_slot <$> tasks)).
Proof.
  induction fuel as [|fuel IH]; intros order st HK Hrun Hfuel.
  - destruct (limit_run_cases tasks limit order st HK Hrun)
      as [(_ & Hlen & _) | (Hret & _)]; [lia|].
    exists [], st. rewrite app_nil_r. auto.
  - destruct (limit_run_cases tasks limit order st HK Hrun)
      as [(_ & Hlen & i & _ & [st1 Hstep]) | (Hret & _)].
    + destruct (IH (order ++ [i]) st1 HK) as (more & st' & Hrun' & Hret').
      * rewrite limit_run_app, Hrun. simpl. rewrite Hstep. reflexivity.
      * rewrite length_app. simpl. lia.
      * exists (i :: more), st'. rewrite <- app_assoc in Hrun'. auto.
    + exists [], st. rewrite app_nil_r. auto.
Qed.

Lemma limit_await_fields (st : Limit.pool R) :
  Limit.index (Limit.await_workers st) = Limit.index st
  /\ Limit.workers (Limit.await_workers st) = Limit.workers st
  /\ Limit.results (Limit.await_workers st) = Limit.results st.
Proof. unfold Limit.await_workers. destruct (Limit.all_returned st); auto. Qed.

(** What a step of the limiter does: the slot of the settled task is
    written, and the worker that awaited it claims the task at the cursor
    when one is left, and returns otherwise. *)
Lemma limit_step_shape st i st' :
  Limit.step tasks st i = Some st' ->
  exists w next outcome,
    Limit.workers st !! w = Some (Some i)
    /\ tasks !! i = Some outcome
    /\ Limit.results st' !! i = Some (limit_slot outcome)
    /\ Limit.workers st' = <[w := next]> (Limit.workers st)
    /\ ((next = Some (Limit.index st) /\ Limit.index st' = S (Limit.index st)
         /\ Limit.index st < length tasks)
        \/ (next = None /\ Limit.index st' = Limit.index st
            /\ ~ Limit.index st < length tasks)).
Proof.
  unfold Limit.step. destruct (Limit.returned st); [discriminate|].
  destruct (Limit.worker_of i st) as [w|] eqn:Hw; [|discriminate].
  destruct (tasks !! i) as [outcome|]; [|discriminate].
  intros [= <-]. apply limit_worker_of in Hw.
  match goal with |- context [Limit.await_workers ?s] =>
    pose proof (limit_await_fields s) as (A1 & A2 & A3)
  end.
  rewrite A1, A2, A3. unfold Limit.runTask. simpl.
  assert (Hslot : JS.array_set Limit.undefined (Limit.results st) i
                    match outcome with
                    | JS.Fulfilled r => Limit.resolved r
                    | JS.Rejected error => Limit.caught (JS.message error)
                    end !! i = Some (limit_slot outcome))
    by apply array_set_lookup_eq.
  case_bool_decide; simpl.
  - exists w, (Some (Limit.index st)), outcome.
    repeat (split; [reflexivity || assumption|]). left. auto.
  - exists w, None, outcome.
    repeat (split; [reflexivity || assumption|]). right. auto.
Qed.

End LimitRuns.

Lemma quiet_silent : quiet (Some silent).
Proof. intros fn [= <-] emitted args. reflexivity. Qed.

Lemma quiet_setUploadProgress : quiet (Some Home.setUploadProgress).
Proof. intros fn [= <-] emitted args. reflexivity. Qed.

Lemma quiet_None : quiet None.
Proof. intros fn Hfn. discriminate Hfn. Qed.


Section BatchRuns.
Variable tasks : list (JS.settled value).
Variable files : list File.t.
Variable concurrency : nat.
Variable onProgress : option Batch.callback.

(** With a callback that does not throw, at any point of any run of the
    upload pool, either it has not returned, fewer than all tasks have
    settled and one more can settle; or it has returned the slot of every
    task, in task order, after all have settled. *)
Lemma batch_run_cases evs st :
  1 <= concurrency ->
  quiet onProgress ->
  length files = length tasks ->
  Batch.run tasks files onProgress
            (Batch.runWithConcurrency tasks files concurrency onProgress) evs
    = Some st ->
  (Batch.returned st = None
   /\ length (settles evs) < length tasks
   /\ exists i, i < length tasks
                /\ forall now,
                     is_Some (Batch.step tasks files onProgress st (Batch.TaskSettles i now)))
  \/ (Batch.returned st = Some (JS.Fulfilled (batch_slot <$> tasks))
      /\ Batch.results st = batch_slot <$> tasks
      /\ length (settles evs) = length tasks
      /\ forall i, i < length tasks -> i ∈ settles evs).
Proof.
  intros HK Hquiet Hfiles Hrun.
  pose proof (batch_inv_run tasks files concurrency onProgress evs Hquiet [] _ _
                (batch_inv_start tasks files concurrency onProgress Hquiet) Hrun)
    as [Hcore Hws _ _ Hrunning Hreturned].
  rewrite app_nil_r in Hcore.
  destruct (Batch.returned st) as [r|] eqn:Hret.
  - right. destruct (Hreturned r eq_refl) as (Hall & -> & _).
    destruct (core_inv_returned (length tasks) (batch_expected tasks) _ _ _ _ Hcore)
      as (Hres & Hlen & Hdone).
    + apply all_None_forallb. exact Hall.
    + intros HN. apply Hws; assumption.
    + rewrite batch_expected_all in Hres. rewrite length_rev in Hlen.
      rewrite Hres. repeat split; try assumption.
      intros i Hi. apply list_elem_of_In, in_rev, list_elem_of_In. apply Hdone, Hi.
  - left. destruct (Hrunning eq_refl) as (Hall & _).
    destruct (core_inv_in_flight (length tasks) (batch_expected tasks) _ _ _ _ Hcore)
      as (Hlen & w & i & Hw & Hi).
    + intros Hnone. apply all_None_forallb in Hnone.
      unfold Batch.all_returned in Hall. congruence.
    + rewrite length_rev in Hlen. repeat split; try assumption.
      exists i. split; [exact Hi|]. intros now. unfold Batch.step. rewrite Hret.
      destruct (batch_worker_of_exists st i w Hw) as [w' ->].
      destruct (lookup_lt_is_Some_2 files i) as [file ->]; [lia|].
      destruct (lookup_lt_is_Some_2 tasks i Hi) as [o ->]. eexists; reflexivity.
Qed.

(** With a callback that does not throw, every run of the upload pool can
    be continued until it returns. *)
Lemma batch_completes (fuel : nat) : forall evs st,
  1 <= concurrency ->
  quiet onProgress ->
  length files = length tasks ->
  Batch.run tasks files onProgress
            (Batch.runWithConcurrency tasks files concurrency onProgress) evs
    = Some st ->
  length tasks - length (settles evs) <= fuel ->
  exists more st',
    Batch.run tasks files onProgress
              (Batch.runWithConcurrency tasks files concurrency onProgress)
              (evs ++ more) = Some st'
    /\ Batch.returned st' = Some (JS.Fulfilled (batch_slot <$> tasks)).
Proof.
  induction fuel as [|fuel IH]; intros evs st HK Hquiet Hfiles Hrun Hfuel.
  - destruct (batch_run_cases evs st HK Hquiet Hfiles Hrun)
      as [(_ & Hlen & _) | (Hret & _)]; [lia|].
    exists [], st. rewrite app_nil_r. auto.
  - destruct (batch_run_cases evs st HK Hquiet Hfiles Hrun)
      as [(_ & Hlen & i & _ & Hstep) | (Hret & _)].
    + destruct (Hstep 0%Z) as [st1 Hstep1].
      destruct (IH (evs ++ [Batch.TaskSettles i 0%Z]) st1 HK Hquiet Hfiles)
        as (more & st' & Hrun' & Hret').
      * rewrite batch_run_app, Hrun. simpl. rewrite Hstep1. reflexivity.
      * rewrite settles_app, length_app. simpl. lia.
      * exists (Batch.TaskSettles i 0%Z :: more), st'. rewrite <- app_assoc in Hrun'. auto.
    + exists [], st. rewrite app_nil_r. auto.
Qed.

(** Whatever the callback does, the [catch] block leaves its failure
    object in the slot of a rejected task. *)
Lemma batch_step_rejected st i now st' error :
  Batch.step tasks files onProgress st (Batch.TaskSettles i now) = Some st' ->
  tasks !! i = Some (JS.Rejected error) ->
  Batch.results st' !! i = Some (Batch.caught error).
Proof.
  unfold Batch.step. destruct (Batch.returned st); [discriminate|].
  destruct (Batch.worker_of i st) as [w|]; [|discriminate].
  destruct (files !! i) as [file|]; [|discriminate].
  intros Hstep Htask. rewrite Htask in Hstep. inversion Hstep; subst st'; clear Hstep.
  match goal with |- context [Batch.await_workers tasks onProgress ?s] =>
    pose proof (batch_await_fields tasks onProgress s) as (_ & _ & _ & A4)
  end.
  rewrite A4. unfold Batch.runTask.
  case_bool_decide; cbn [Batch.results Batch.task_settled Batch.settle];
    apply array_set_lookup_eq.
Qed.

End BatchRuns.

(** ** The two worker pools *)

(** C1, as stated, fails on a callback that throws.  One image is uploaded
    and stored; the callback throws when the completion is reported to it,
    inside the [try] block.  The [catch] block then replaces the upload's
    result with a failure object and counts the file a second time.  When
    the callback throws on its first call only, the pool resolves with that
    failure object in slot 0, not with the outcome of task 0; when it throws
    on every call, the promise of the pool is rejected. *)
Lemma throwing_callback_breaks_the_pool :
  photo_tasks
  = [JS.Fulfilled (object (Result.mk true (Some "photo.png") (Some 100%Z) (Some "image/png")
                                     (Some stored) (Some stamp) None))]
  /\ (exists st,
        photo_batch throws_once = Some st
        /\ Batch.returned st
           = Some (JS.Fulfilled [object (Result.mk false None None None None None
                                                   (Some "boom"))])
        /\ Batch.completed st = 2)
  /\ (exists st,
        photo_batch throwing = Some st
        /\ Batch.returned st = Some (JS.Rejected boom)).
Proof.
  split; [reflexivity|]. split; eexists; (split; [vm_compute; reflexivity|]).
  - split; reflexivity.
  - reflexivity.
Qed.

(** C1 (amended): with a concurrency limit of at least 1 and, for
    [runWithConcurrency], a progress callback that does not throw (or
    none), at every point of every run, whatever the order in which the
    tasks settle, a pool is in one of two states.  Either its promise has
    not resolved: then fewer than N tasks have settled and a task is in
    flight and can settle.  Or its promise has resolved with a results
    array: then all N tasks have settled and the array has exactly N slots,
    slot [i] holding what task [i] resolved with, or the failure object
    made from its rejection: [{success: false, error: message || '上传失败'}]
    in [runWithConcurrency], [{error: message}] in
    [runWithConcurrencyLimit].  Every run can be continued to that second
    state.  And whenever a rejected task settles, the failure object is
    written to its slot in that very step and the worker that awaited it
    goes on: it claims the task at the cursor if one is left. *)
Theorem worker_pool_settles_every_task :
  (forall (tasks : list (JS.settled value)) (files : list File.t) (concurrency : nat)
          (onProgress : option Batch.callback) (evs : list Batch.event) (st : Batch.pool),
      1 <= concurrency ->
      quiet onProgress ->
      length files = length tasks ->
      Batch.run tasks files onProgress
                (Batch.runWithConcurrency tasks files concurrency onProgress) evs
        = Some st ->
      ((Batch.returned st = None
        /\ length (settles evs) < length tasks
        /\ exists i, i < length tasks
             /\ forall now,
                  is_Some (Batch.step tasks files onProgress st (Batch.TaskSettles i now)))
       \/ (exists results,
             Batch.returned st = Some (JS.Fulfilled results)
             /\ length results = length tasks
             /\ (forall i result, tasks !! i = Some (JS.Fulfilled result) ->
                   results !! i = Some result)
             /\ (forall i error, tasks !! i = Some (JS.Rejected error) ->
                   results !! i
                   = Some (object (Result.mk false None None None None None
                                             (Some (JS.or_else (JS.message error) "上传失败")))))
             /\ length (settles evs) = length tasks
             /\ forall i, i < length tasks -> i ∈ settles evs))
      /\ (exists more st' results,
            Batch.run tasks files onProgress
                      (Batch.runWithConcurrency tasks files concurrency onProgress)
                      (evs ++ more) = Some st'
            /\ Batch.returned st' = Some (JS.Fulfilled results))
      /\ (forall i now st' error,
            Batch.step tasks files onProgress st (Batch.TaskSettles i now) = Some st' ->
            tasks !! i = Some (JS.Rejected error) ->
            Batch.results st' !! i
            = Some (object (Result.mk false None None None None None
                                      (Some (JS.or_else (JS.message error) "上传失败"))))
            /\ exists w,
                 Batch.workers st !! w = Some (Some i)
                 /\ (Batch.index st < length tasks ->
                     Batch.workers st' !! w = Some (Some (Batch.index st))
                     /\ Batch.index st' = S (Batch.index st))))
  /\ (forall (R : Type) (tasks : list (JS.settled R)) (limit : nat)
             (order : list nat) (st : Limit.pool R),
      1 <= limit ->
      Limit.run tasks (Limit.runWithConcurrencyLimit tasks limit) order = Some st ->
      ((Limit.returned st = None
        /\ length order < length tasks
        /\ exists i, i < length tasks /\ is_Some (Limit.step tasks st i))
       \/ (exists results,
             Limit.returned st = Some (JS.Fulfilled results)
             /\ length results = length tasks
             /\ (forall i r, tasks !! i = Some (JS.Fulfilled r) ->
                   results !! i = Some (Limit.resolved r))
             /\ (forall i error, tasks !! i = Some (JS.Rejected error) ->
                   results !! i = Some (Limit.caught (JS.message error)))
             /\ length order = length tasks
             /\ forall i, i < length tasks -> i ∈ order))
      /\ (exists more st' results,
            Limit.run tasks (Limit.runWithConcurrencyLimit tasks limit) (order ++ more)
              = Some st'
            /\ Limit.returned st' = Some (JS.Fulfilled results))
      /\ (forall i st' error,
            Limit.step tasks st i = Some st' ->
            tasks !! i = Some (JS.Rejected error) ->
            Limit.results st' !! i = Some (Limit.caught (JS.message error))
            /\ exists w,
                 Limit.workers st !! w = Some (Some i)
                 /\ (Limit.index st < length tasks ->
                     Limit.workers st' !! w = Some (Some (Limit.index st))
                     /\ Limit.index st' = S (Limit.index st)))).
Proof.
  split.
  - intros tasks files concurrency onProgress evs st HK Hquiet Hfiles Hrun.
    split; [|split].
    + destruct (batch_run_cases tasks files concurrency onProgress evs st
                  HK Hquiet Hfiles Hrun)
        as [Hrunning | (Hret & _ & Hlen & Hall)]; [left; exact Hrunning | right].
      exists (batch_slot <$> tasks). split; [exact Hret|].
      split; [apply length_fmap|]. split; [|split; [|auto]].
      * intros i result Hi. rewrite list_lookup_fmap, Hi. reflexivity.
      * intros i error Hi. rewrite list_lookup_fmap, Hi. reflexivity.
    + destruct (batch_completes tasks files concurrency onProgress (length tasks) evs st
                  HK Hquiet Hfiles Hrun) as (more & st' & Hrun' & Hret'); [lia|].
      exists more, st', (batch_slot <$> tasks). auto.
    + intros i now st' error Hstep Htask. split.
      * apply (batch_step_rejected tasks files onProgress st i now st' error Hstep Htask).
      * destruct (batch_step_shape tasks files onProgress st _ st' Hstep)
          as [(Hnone & _) | (i0 & now0 & w & next & [= <- <-] & Hw & Hws & Hnext)];
          [discriminate Hnone|].
        exists w. split; [exact Hw|]. intros Hlt.
        destruct Hnext as [(-> & Hidx & _) | (_ & _ & Hge)]; [|contradiction].
        split; [|exact Hidx]. rewrite Hws. apply list_lookup_insert_eq.
        eapply lookup_lt_Some, Hw.
  - intros R tasks limit order st HK Hrun. split; [|split].
    + destruct (limit_run_cases tasks limit order st HK Hrun)
        as [Hrunning | (Hret & _ & Hlen & Hall)]; [left; exact Hrunning | right].
      exists (limit_slot <$> tasks). split; [exact Hret|].
      split; [apply length_fmap|]. split; [|split; [|auto]].
      * intros i r Hi. rewrite list_lookup_fmap, Hi. reflexivity.
      * intros i error Hi. rewrite list_lookup_fmap, Hi. reflexivity.
    + destruct (limit_completes tasks limit (length tasks) order st HK Hrun)
        as (more & st' & Hrun' & Hret'); [lia|].
      exists more, st', (limit_slot <$> tasks). auto.
    + intros i st' error Hstep Htask.
      destruct (limit_step_shape tasks st i st' Hstep)
        as (w & next & outcome & Hw & Hout & Hres & Hws & Hnext).
      rewrite Htask in Hout. inversion Hout; subst outcome. split; [exact Hres|].
      exists w. split; [exact Hw|]. intros Hlt.
      destruct Hnext as [(-> & Hidx & _) | (_ & _ & Hge)]; [|contradiction].
      split; [|exact Hidx]. rewrite Hws. apply list_lookup_insert_eq.
      eapply lookup_lt_Some, Hw.
Qed.

Lemma worker_pool_settles_every_task_witness :
  exists st,
    mixed_batch = Some st
    /\ Batch.returned st
       = Some (JS.Fulfilled
                 [object (Result.mk false None None None None None (Some "Network Error"));
                  object (Result.mk true (Some "photo.png") (Some 100%Z) (Some "image/png")
                                    (Some stored) (Some stamp) None)]).
Proof.
  destruct mixed_batch as [st|] eqn:Hrun; [|vm_compute in Hrun; discriminate Hrun].
  exists st. split; [reflexivity|].
  destruct (proj1 worker_pool_settles_every_task mixed_tasks [notes; photo] 1 (Some silent)
                  _ st ltac:(lia) quiet_silent eq_refl Hrun)
    as [[(Hnone & _) | (results & Hret & Hlen & Hok & Hfailed & _)] _].
  - unfold mixed_batch in Hrun. vm_compute in Hrun. inversion Hrun; subst st.
    discriminate Hnone.
  - rewrite Hret. do 2 f_equal.
    pose proof (Hfailed 0 network_error eq_refl) as H0.
    pose proof (Hok 1 _ eq_refl) as H1.
    destruct results as [|r0 [|r1 [|r2 results]]]; try discriminate Hlen.
    simpl in H0, H1. inversion H0. inversion H1. reflexivity.
Defined.

(** ** deleteImages *)

(** C10: whatever each remote delete answers, the limiter's promise is
    fulfilled, never rejected, with one slot per listed id, in order: what
    the delete resolved with, or [{error: message}] holding the message of
    the error it was rejected with.  So [deleteImages] ends in its success
    branch: every complete run returns [{success: true}], removes every
    listed id from the images, empties the selection and leaves selection
    mode; the [catch] branch is not taken; and a complete run always
    exists. *)
Theorem deleteImages_always_succeeds {R : Type} (axios_delete : nat -> string -> JS.settled R)
        (imageIds : list string) (st : ImageStore.state) :
  (exists order, is_Some (ImageStore.deleteImages axios_delete imageIds order st))
  /\ (forall order p awaited,
        Limit.run (imap axios_delete imageIds)
                  (Limit.runWithConcurrencyLimit (imap axios_delete imageIds) 5) order = Some p ->
        Limit.returned p = Some awaited ->
        exists results,
          awaited = JS.Fulfilled results
          /\ results = limit_slot <$> imap axios_delete imageIds
          /\ length results = length imageIds
          /\ forall k imageId,
               imageIds !! k = Some imageId ->
               results !! k
               = Some match axios_delete k imageId with
                      | JS.Fulfilled r => Limit.resolved r
                      | JS.Rejected error => Limit.caught (JS.message error)
                      end)
  /\ (forall order st' res,
        ImageStore.deleteImages axios_delete imageIds order st = Some (st', res) ->
        res = {| action_success := true; action_error := None |}
        /\ ImageStore.images st'
           = filter (fun img => id img ∉ imageIds) (ImageStore.images st)
        /\ (forall img, img ∈ ImageStore.images st' -> id img ∉ imageIds)
        /\ ImageStore.selectedImages st' = ∅
        /\ ImageStore.isSelectionMode st' = false
        /\ ImageStore.isLoading st' = false
        /\ ImageStore.error st' = None).
Proof.
  assert (Hfive : 1 <= 5) by lia.
  split; [|split].
  - destruct (limit_completes (imap axios_delete imageIds) 5 (length (imap axios_delete imageIds))
                [] _ Hfive eq_refl) as (more & p & Hrun & Hret); [lia|].
    exists more. unfold ImageStore.deleteImages. simpl in Hrun.
    rewrite Hrun, Hret. eexists; reflexivity.
  - intros order p awaited Hrun Hret.
    destruct (limit_run_cases _ 5 order p Hfive Hrun) as [(Hnone & _) | (Hsome & _)];
      [congruence|].
    rewrite Hsome in Hret. inversion Hret.
    exists (limit_slot <$> imap axios_delete imageIds).
    split; [reflexivity|]. split; [reflexivity|].
    split; [rewrite length_fmap; apply length_imap|].
    intros k imageId Hk. rewrite list_lookup_fmap, list_lookup_imap, Hk. reflexivity.
  - intros order st' res Hdel. unfold ImageStore.deleteImages in Hdel.
    destruct (Limit.run _ _ order) as [p|] eqn:Hrun; [|discriminate].
    destruct (Limit.returned p) as [awaited|] eqn:Hret; [|discriminate].
    destruct (limit_run_cases _ 5 order p Hfive Hrun) as [(Hnone & _) | (Hsome & _)];
      [congruence|].
    rewrite Hsome in Hret. inversion Hret; subst awaited.
    simpl in Hdel. inversion Hdel; subst st' res. simpl.
    repeat split.
    intros img Himg. apply list_elem_of_filter in Himg as [Hnot _]. exact Hnot.
Qed.

Lemma deleteImages_always_succeeds_witness :
  ImageStore.deleteImages refuse_delete ["a"; "b"] [1; 0] gallery
  = Some (ImageStore.mkState [mkImage "c" "c.png"] ∅ false false None,
          {| action_success := true; action_error := None |}).
Proof.
  destruct (ImageStore.deleteImages refuse_delete ["a"; "b"] [1; 0] gallery)
    as [[st' res]|] eqn:Hdel; [|vm_compute in Hdel; discriminate Hdel].
  destruct (deleteImages_always_succeeds refuse_delete ["a"; "b"] gallery)
    as (_ & _ & Hok).
  destruct (Hok _ _ _ Hdel) as (-> & Himages & _ & Hsel & Hmode & Hload & Herr).
  destruct st' as [images selected mode loading error]. simpl in *.
  subst. reflexivity.
Defined.

(** The continuation of [deleteImages] on any store: a fulfilled limiter
    leads to the success branch. *)
Lemma deleteImages_resume_fulfilled {R : Type} (imageIds : list string)
      (results : list (Limit.slot R)) (st : ImageStore.state) :
  ImageStore.deleteImages_resume imageIds (JS.Fulfilled results) st
  = (ImageStore.mkState (filter (fun img => id img ∉ imageIds) (ImageStore.images st))
                        ∅ false false None,
     {| action_success := true; action_error := None |}).
Proof. reflexivity. Qed.

(** ** Progress events of a batch *)

(** C5, on the code: a batch of two empty files has total size 0; when the
    first upload settles the pool reports the percent [0 / 0 * 100], which
    is NaN, not 100. *)
Theorem zero_byte_batch_reports_nan :
  Batch.totalSize [empty_a; empty_b] = 0%float
  /\ empty_tasks = [JS.Fulfilled (object (Result.mk true (Some "a.png") (Some 0%Z) (Some "image/png")
                                               (Some stored) (Some stamp) None));
                     JS.Fulfilled (object (Result.mk true (Some "b.png") (Some 0%Z) (Some "image/png")
                                               (Some stored) (Some stamp) None))]
  /\ percents empty_batch = [nan; 100%float; 100%float; 100%float].
Proof. repeat split; vm_compute; reflexivity. Qed.


(** *** The counts of the progress events *)

Section ProgressCounts.
Variable tasks : list (JS.settled value).
Variable files : list File.t.
Variable concurrency : nat.
Variable onProgress : option Batch.callback.

Lemma completed_sorted_snoc es e :
  completed_sorted es ->
  (forall x, x ∈ es -> Progress.completed x <= Progress.completed e) ->
  completed_sorted (es ++ [e]).
Proof.
  intros Hsorted Hle i j ei ej Hij Hi Hj.
  destruct (decide (j < length es)) as [Hlt|Hge].
  - rewrite lookup_app_l in Hi by lia. rewrite lookup_app_l in Hj by lia.
    exact (Hsorted i j ei ej Hij Hi Hj).
  - assert (ej = e) as ->.
    { rewrite lookup_app_r in Hj by lia.
      apply list_lookup_singleton_Some in Hj as [_ Hj]. congruence. }
    destruct (decide (i < length es)) as [Hlt|Hge'].
    + rewrite lookup_app_l in Hi by lia. apply Hle. eapply list_elem_of_lookup_2, Hi.
    + rewrite lookup_app_r in Hi by lia.
      apply list_lookup_singleton_Some in Hi as [_ Hi]. subst ei. lia.
Qed.

Lemma mono_inv_weaken N c c' th emitted :
  c <= c' -> mono_inv N c th emitted -> mono_inv N c' th emitted.
Proof.
  intros Hle [Hsorted Hemitted Hheld]. split; [exact Hsorted | |].
  - intros e He. destruct (Hemitted e He). split; [assumption | lia].
  - intros t a Ht Ha. destruct (Hheld t a Ht Ha) as (H1 & H2 & H3).
    split; [assumption|]. split; [lia | assumption].
Qed.

(** The throttle delivers an event, or keeps it: either way the counts
    stay in order. *)
Lemma mono_inv_snoc N c t emitted a :
  mono_inv N c (Some t) emitted ->
  Throttle.lastArgs t = Some a ->
  forall t', (Throttle.lastArgs t' = Some a \/ Throttle.lastArgs t' = None) ->
  mono_inv N c (Some t') (emitted ++ [a]).
Proof.
  intros [Hsorted Hemitted Hheld] Ha t' Ht'.
  destruct (Hheld t a eq_refl Ha) as (H1 & H2 & H3).
  split.
  - apply completed_sorted_snoc; assumption.
  - intros e He. apply elem_of_app in He as [He|He]; [auto|].
    apply list_elem_of_singleton in He as ->. auto.
  - intros t0 a0 [= <-] Ha0. destruct Ht' as [Ht'|Ht']; [|congruence].
    assert (a0 = a) as -> by congruence.
    split; [assumption|]. split; [assumption|].
    intros e He. apply elem_of_app in He as [He|He]; [auto|].
    apply list_elem_of_singleton in He as ->. lia.
Qed.

Lemma mono_report N args now st :
  quiet onProgress ->
  mono_inv N (Progress.completed args) (Batch.throttledProgress st) (Batch.emitted st) ->
  Progress.total args = N ->
  mono_inv N (Progress.completed args)
           (Batch.throttledProgress (Batch.report onProgress args now st).1)
           (Batch.emitted (Batch.report onProgress args now st).1).
Proof.
  intros Hquiet Hinv Htotal. rewrite (report_quiet onProgress args now st Hquiet).
  cbn [fst].
  destruct (Batch.throttledProgress st) as [th|] eqn:Hth; [|rewrite Hth; exact Hinv].
  cbn [Batch.throttledProgress Batch.emitted].
  destruct Hinv as [Hsorted Hemitted Hheld].
  assert (Hkeep : forall t', Throttle.lastArgs t' = Some args ->
            mono_inv N (Progress.completed args) (Some t') (Batch.emitted st)).
  { intros t' Ht'. split; [exact Hsorted | exact Hemitted |].
    intros t0 a0 [= <-] Ha0. assert (a0 = args) as -> by congruence.
    split; [assumption|]. split; [lia|]. intros e He. apply Hemitted, He. }
  unfold Throttle.throttled.
  destruct (decide _); [|destruct (Throttle.timeoutId th)]; simpl;
    rewrite ?app_nil_r; try (apply Hkeep; reflexivity).
  split.
  - apply completed_sorted_snoc; [exact Hsorted|]. intros x Hx. apply Hemitted, Hx.
  - intros e He. apply elem_of_app in He as [He|He]; [auto|].
    apply list_elem_of_singleton in He as ->. auto.
  - intros t0 a0 [= <-] Ha0. simpl in Ha0. inversion Ha0; subst a0.
    split; [assumption|]. split; [lia|].
    intros e He. apply elem_of_app in He as [He|He]; [apply Hemitted, He|].
    apply list_elem_of_singleton in He as ->. lia.
Qed.

Lemma mono_finish st :
  quiet onProgress ->
  Batch.completed st <= length tasks ->
  mono_inv (length tasks) (Batch.completed st) (Batch.throttledProgress st) (Batch.emitted st) ->
  mono_inv (length tasks) (length tasks)
           (Batch.throttledProgress (Batch.finish tasks onProgress st))
           (Batch.emitted (Batch.finish tasks onProgress st)).
Proof.
  intros Hquiet Hle Hinv.
  apply (mono_inv_weaken _ _ (length tasks)) in Hinv; [|exact Hle].
  rewrite (finish_quiet tasks onProgress st Hquiet).
  destruct (Batch.throttledProgress st) as [th|] eqn:Hth; [|simpl; exact Hinv].
  cbn [Batch.throttledProgress Batch.emitted].
  assert (Hflushed : forall t' calls, Throttle.flush th = (t', calls) ->
            mono_inv (length tasks) (length tasks) (Some t') (Batch.emitted st ++ calls)
            /\ Throttle.lastArgs t' = None).
  { intros t' calls Hflush. unfold Throttle.flush in Hflush.
    destruct (Throttle.lastArgs th) as [a|] eqn:Ha; inversion Hflush; subst t' calls.
    - split; [|reflexivity]. eapply mono_inv_snoc; eauto.
    - rewrite app_nil_r. split; [|reflexivity].
      destruct Hinv as [Hsorted Hemitted Hheld]. split; [exact Hsorted | exact Hemitted |].
      intros t0 a0 [= <-] Ha0. simpl in Ha0. congruence. }
  destruct (Throttle.flush th) as [t' calls].
  destruct (Hflushed t' calls eq_refl) as [[Hsorted Hemitted Hheld] Hnone]. cbn [fst snd].
  rewrite app_assoc. split.
  - apply completed_sorted_snoc; [exact Hsorted|].
    intros x Hx. simpl. apply Hemitted, Hx.
  - intros e He. apply elem_of_app in He as [He|He]; [auto|].
    apply list_elem_of_singleton in He as ->. simpl. auto.
  - intros t0 a0 [= <-] Ha0. congruence.
Qed.

Lemma finish_returned st :
  is_Some (Batch.returned (Batch.finish tasks onProgress st))
  /\ Batch.completed (Batch.finish tasks onProgress st) = Batch.completed st.
Proof.
  unfold Batch.finish. destruct (Batch.throttledProgress st) as [th|]; [|split; eauto].
  destruct (Throttle.flush th) as [th' calls].
  destruct (Batch.call onProgress (Batch.emitted st) calls) as [emitted' [error|]];
    [split; eauto|].
  destruct (Batch.call onProgress emitted' [Batch.final tasks st]). split; eauto.
Qed.

Lemma mono_inv_step done st ev st' :
  quiet onProgress ->
  batch_inv tasks concurrency onProgress done st ->
  mono_inv (length tasks) (count_bound tasks st)
           (Batch.throttledProgress st) (Batch.emitted st) ->
  Batch.step tasks files onProgress st ev = Some st' ->
  mono_inv (length tasks) (count_bound tasks st')
           (Batch.throttledProgress st') (Batch.emitted st').
Proof.
  intros Hquiet Hbatch Hinv Hstep.
  pose proof (batch_inv_step tasks files concurrency onProgress done st ev st'
                Hquiet Hbatch Hstep) as Hbatch'.
  assert (Hle : Batch.completed st' <= length tasks).
  { rewrite (bi_completed _ _ _ _ _ Hbatch').
    pose proof (core_count _ _ _ _ _ _ (bi_core _ _ _ _ _ Hbatch')).
    pose proof (core_index _ _ _ _ _ _ (bi_core _ _ _ _ _ Hbatch')). lia. }
  clear Hbatch Hbatch'.
  unfold count_bound in *. unfold Batch.step in Hstep.
  destruct (Batch.returned st) eqn:Hret; [discriminate|].
  destruct ev as [i percent now | i now | now].
  - destruct (Batch.worker_of i st); [|discriminate].
    destruct (files !! i) as [file|]; [|discriminate].
    inversion Hstep; subst st'; clear Hstep. unfold Batch.progress_callback.
    match goal with |- context [Batch.report onProgress ?a ?n ?s] =>
      pose proof (report_fields onProgress a n s) as (_ & H2 & _ & _ & H5);
      pose proof (mono_report (length tasks) a n s Hquiet) as Hreport;
      set (r := (Batch.report onProgress a n s).1) in *
    end.
    simpl in H2, H5, Hreport. rewrite H5, Hret, H2. exact (Hreport Hinv eq_refl).
  - destruct (Batch.worker_of i st) as [w|]; [|discriminate].
    destruct (files !! i) as [file|]; [|discriminate].
    destruct (tasks !! i) as [outcome|]; [|discriminate].
    inversion Hstep; subst st'; clear Hstep.
    set (st1 := Batch.task_settled tasks files onProgress i file outcome now st) in *.
    assert (H1 : Batch.returned st1 = None /\ Batch.completed st1 = S (Batch.completed st)
                 /\ mono_inv (length tasks) (S (Batch.completed st))
                             (Batch.throttledProgress st1) (Batch.emitted st1)).
    { pose proof (task_settled_fields tasks files onProgress i file outcome now st Hquiet)
        as (_ & F2 & _ & _ & F5 & _).
      fold st1 in F2, F5. rewrite F5, F2. split; [exact Hret|]. split; [reflexivity|].
      apply (mono_inv_weaken _ _ (S (Batch.completed st))) in Hinv; [|lia].
      subst st1. destruct outcome as [result|error].
      - destruct (task_settled_fulfilled tasks files onProgress i file result now st Hquiet)
          as (args & -> & Hc & Ht & _).
        pose proof (mono_report (length tasks) args now (Batch.settle i file result st)
                      Hquiet) as Hreport.
        rewrite Hc in Hreport. apply Hreport; [exact Hinv | exact Ht].
      - exact Hinv. }
    destruct H1 as (R1 & C1 & M1).
    set (st2 := Batch.runTask tasks w st1) in *.
    assert (H2 : Batch.returned st2 = None /\ Batch.completed st2 = S (Batch.completed st)
                 /\ Batch.throttledProgress st2 = Batch.throttledProgress st1
                 /\ Batch.emitted st2 = Batch.emitted st1).
    { subst st2. unfold Batch.runTask. case_bool_decide; simpl; auto. }
    destruct H2 as (R2 & C2 & T2 & E2).
    rewrite <- T2, <- E2, <- C2 in M1.
    unfold Batch.await_workers in *. destruct (Batch.all_returned st2).
    + destruct (finish_returned st2) as [[r ->] Hcompleted].
      apply (mono_finish st2 Hquiet); [|exact M1]. rewrite <- Hcompleted. exact Hle.
    + rewrite R2. exact M1.
  - destruct (Batch.throttledProgress st) as [th|] eqn:Hth; [|discriminate].
    destruct (Throttle.timeoutId th) eqn:Hid; [|discriminate].
    unfold Throttle.timeout_callback in Hstep.
    rewrite (call_quiet onProgress _ Hquiet) in Hstep.
    simpl in Hstep. inversion Hstep; subst st'; clear Hstep. simpl.
    destruct (Throttle.lastArgs th) as [a|] eqn:Ha.
    + eapply mono_inv_snoc; eauto.
    + rewrite app_nil_r. destruct Hinv as [Hsorted Hemitted Hheld].
      split; [exact Hsorted | exact Hemitted |].
      intros t0 a0 [= <-] Ha0. simpl in Ha0. congruence.
Qed.

Lemma mono_inv_start :
  quiet onProgress ->
  let st := Batch.runWithConcurrency tasks files concurrency onProgress in
  mono_inv (length tasks) (count_bound tasks st)
           (Batch.throttledProgress st) (Batch.emitted st).
Proof.
  intros Hquiet. simpl. unfold Batch.runWithConcurrency.
  set (n := min concurrency (length tasks)).
  rewrite (batch_start tasks n 0); [|reflexivity | lia | reflexivity].
  simpl.
  match goal with |- context [Batch.await_workers tasks onProgress ?s] => set (st0 := s) end.
  assert (H0 : mono_inv (length tasks) 0 (Batch.throttledProgress st0) (Batch.emitted st0)).
  { subst st0. simpl. split.
    - intros i j ei ej _ Hi. discriminate Hi.
    - intros e He. inversion He.
    - intros t a Ht Ha. destruct onProgress; [|discriminate Ht].
      inversion Ht; subst t. discriminate Ha. }
  unfold count_bound, Batch.await_workers. destruct (Batch.all_returned st0).
  - destruct (finish_returned st0) as [[r ->] _].
    apply (mono_finish st0 Hquiet); [simpl; lia | exact H0].
  - exact H0.
Qed.

Lemma mono_inv_run evs :
  quiet onProgress ->
  forall done st st',
  batch_inv tasks concurrency onProgress done st ->
  mono_inv (length tasks) (count_bound tasks st)
           (Batch.throttledProgress st) (Batch.emitted st) ->
  Batch.run tasks files onProgress st evs = Some st' ->
  mono_inv (length tasks) (count_bound tasks st')
           (Batch.throttledProgress st') (Batch.emitted st').
Proof.
  intros Hquiet.
  induction evs as [|ev evs IH]; intros done st st' Hbatch Hinv Hrun; simpl in Hrun.
  - inversion Hrun; subst. exact Hinv.
  - destruct (Batch.step tasks files onProgress st ev) as [st1|] eqn:Hstep; [|discriminate].
    eapply IH; [| |exact Hrun].
    + eapply batch_inv_step; eauto.
    + eapply mono_inv_step; eauto.
Qed.

End ProgressCounts.



(* ================================================================== *)
(** * Further properties                                               *)
(* ================================================================== *)

(** ** uploadFiles and uploadFile *)

Section ServiceFacts.
Variable upload : nat -> nat -> list float * JS.settled response_data.
Variable toISOString : string.
Variable typeError : string.

(** With at least one attempt allowed [uploadSingleFile] resolves with a
    result object, never with [undefined]. *)
Lemma retry_loop_object (fetch : nat -> list float * JS.settled response_data)
      (file : File.t) (retries : nat) : forall remaining attempt,
  attempt + S remaining = retries ->
  exists r, (Single.retry_loop fetch toISOString file retries (S remaining) attempt).2
            = JS.Fulfilled (object r).
Proof.
  induction remaining as [|remaining IH]; intros attempt Hsum.
  - simpl. destruct (Single.try_block fetch toISOString file attempt) as [r|error].
    + eexists; reflexivity.
    + rewrite bool_decide_eq_true_2 by lia. eexists; reflexivity.
  - destruct (Single.try_block fetch toISOString file attempt) as [r|error] eqn:Htry.
    + cbn [Single.retry_loop]. rewrite Htry. eexists; reflexivity.
    + rewrite (retry_loop_again _ _ _ _ _ _ _ Htry) by lia. cbn [snd].
      apply IH. lia.
Qed.

(** Every result object of the loop carries the file's name. *)
Lemma retry_loop_filename (fetch : nat -> list float * JS.settled response_data)
      (file : File.t) (retries : nat) (r : Result.t) : forall remaining attempt,
  (Single.retry_loop fetch toISOString file retries remaining attempt).2
  = JS.Fulfilled (object r) ->
  Result.filename r = Some (File.name file).
Proof.
  induction remaining as [|remaining IH]; intros attempt Hr; [discriminate Hr|].
  simpl in Hr. unfold Single.try_block in Hr.
  destruct (Single.retry_loop fetch toISOString file retries remaining (S attempt))
    as [tr res] eqn:Hrec.
  specialize (IH (S attempt)). rewrite Hrec in IH.
  destruct (fetch attempt).2 as [response|e].
  - destruct (Single.has_src _).
    + inversion Hr; reflexivity.
    + case_bool_decide; [inversion Hr; reflexivity | apply IH, Hr].
  - case_bool_decide; [inversion Hr; reflexivity | apply IH, Hr].
Qed.

Lemma uploadSingleFile_object (fetch : nat -> list float * JS.settled response_data)
      (file : File.t) (retries : nat) :
  1 <= retries ->
  exists r, (Single.uploadSingleFile fetch toISOString file retries).2 = JS.Fulfilled (object r)
            /\ Result.filename r = Some (File.name file).
Proof.
  intros Hretries. unfold Single.uploadSingleFile.
  destruct (File.size file >? Single.maxSize)%Z; [eexists; split; reflexivity|].
  destruct retries as [|remaining]; [lia|].
  destruct (retry_loop_object fetch file (S remaining) remaining 0) as [r Hr]; [lia|].
  exists r. split; [exact Hr|]. eapply retry_loop_filename, Hr.
Qed.

(** The two [filter] calls split a list of result objects in two. *)
Lemma filter_results_objects (results : list value) :
  Forall (fun v => exists r, v = object r) results ->
  exists successResults failedResults,
    Service.filter_results (fun b => b) results = Some successResults
    /\ Service.filter_results negb results = Some failedResults
    /\ length successResults + length failedResults = length results
    /\ length successResults = succeeded results.
Proof.
  unfold succeeded. induction 1 as [|v results [r ->] _ IH].
  - exists [], []. repeat split.
  - destruct IH as (ss & fs & Hs & Hf & Hlen & Hcount).
    cbn [Service.filter_results Service.success_of]. rewrite Hs, Hf.
    destruct (Result.success r) eqn:Hsucc.
    + rewrite filter_cons_True by (simpl; rewrite Hsucc; reflexivity).
      eexists _, _. split; [reflexivity|]. split; [reflexivity|].
      simpl. split; lia.
    + rewrite filter_cons_False by (simpl; rewrite Hsucc; discriminate).
      eexists _, _. split; [reflexivity|]. split; [reflexivity|].
      simpl. split; lia.
Qed.

(** A result that is not an object makes the first [filter] throw. *)
Lemma filter_results_undefined (keep : bool -> bool) (results : list value) :
  undefined ∈ results -> Service.filter_results keep results = None.
Proof.
  induction results as [|v results IH]; intros Hin; [inversion Hin|].
  apply elem_of_cons in Hin as [<-|Hin]; [reflexivity|].
  simpl. destruct (Service.success_of v); [|reflexivity].
  rewrite (IH Hin). reflexivity.
Qed.

Lemma tasks_lookup (retries : nat) (files : list File.t) (i : nat) (file : File.t) :
  files !! i = Some file ->
  Service.tasks upload toISOString retries files !! i
  = Some (Single.uploadSingleFile (upload i) toISOString file retries).2.
Proof.
  intros Hi. unfold Service.tasks. rewrite list_lookup_imap, Hi. reflexivity.
Qed.

Lemma tasks_length (retries : nat) (files : list File.t) :
  length (Service.tasks upload toISOString retries files) = length files.
Proof. apply length_imap. Qed.

(** A complete run of [uploadFiles] with a positive concurrency and a
    callback that does not throw hands the slots of the tasks, in file
    order, to the summary. *)
Lemma uploadFiles_complete (files : list File.t) (onProgress : option Batch.callback)
      (opts : Service.options) (evs : list Batch.event) (res : BatchResult.t)
      (emitted : list Progress.t) :
  Service.concurrency opts <> Some 0 ->
  quiet onProgress ->
  Service.uploadFiles upload toISOString typeError files onProgress opts evs
    = Some (res, emitted) ->
  res = Service.summarize typeError
          (batch_slot <$> Service.tasks upload toISOString
                            (default 3 (Service.retries opts)) files)
  /\ (onProgress <> None ->
      exists earlier final,
        emitted = earlier ++ [final]
        /\ Progress.completed final = length files
        /\ Progress.total final = length files
        /\ Progress.percent final = 100%float).
Proof.
  intros Hconc Hquiet Hrun. unfold Service.uploadFiles in Hrun.
  set (tasks := Service.tasks upload toISOString (default 3 (Service.retries opts)) files) in *.
  set (K := default 5 (Service.concurrency opts)) in *.
  assert (HK : 1 <= K).
  { unfold K. destruct (Service.concurrency opts) as [[|k]|]; simpl; try lia. congruence. }
  destruct (Batch.run tasks files onProgress _ evs) as [st|] eqn:Hst; [|discriminate].
  pose proof (batch_inv_run tasks files K onProgress evs Hquiet [] _ _
                (batch_inv_start tasks files K onProgress Hquiet) Hst)
    as [_ _ _ _ _ Hreturned].
  destruct (batch_run_cases tasks files K onProgress evs st HK Hquiet
              (eq_sym (tasks_length _ files)) Hst)
    as [(Hnone & _) | (Hret & Hres & _)].
  - rewrite Hnone in Hrun. discriminate.
  - rewrite Hret in Hrun. inversion Hrun; subst res emitted. split; [reflexivity|].
    intros Hon. destruct (Hreturned _ Hret) as (_ & _ & low & high & Hemitted & _).
    destruct onProgress as [fn|]; [|contradiction].
    exists (low ++ high), (final_event tasks (Batch.results st)).
    split; [rewrite Hemitted, app_assoc; reflexivity|].
    simpl. unfold tasks. rewrite tasks_length. auto.
Qed.

(** With a callback that does not throw, every state of affairs allows a
    complete run. *)
Lemma uploadFiles_completes (files : list File.t) (onProgress : option Batch.callback)
      (opts : Service.options) :
  Service.concurrency opts <> Some 0 ->
  quiet onProgress ->
  exists evs,
    is_Some (Service.uploadFiles upload toISOString typeError files onProgress opts evs).
Proof.
  intros Hconc Hquiet.
  set (tasks := Service.tasks upload toISOString (default 3 (Service.retries opts)) files).
  set (K := default 5 (Service.concurrency opts)).
  assert (HK : 1 <= K).
  { unfold K. destruct (Service.concurrency opts) as [[|k]|]; simpl; try lia. congruence. }
  destruct (batch_completes tasks files K onProgress (length tasks) [] _ HK Hquiet
              (eq_sym (tasks_length _ files)) eq_refl) as (more & st & Hrun & Hret); [lia|].
  exists more. unfold Service.uploadFiles. fold tasks. fold K.
  simpl in Hrun. rewrite Hrun, Hret. eexists; reflexivity.
Qed.

End ServiceFacts.

(** What a complete run of [uploadFiles] resolves with when every file
    gets at least one attempt and the callback does not throw: the slots of
    the tasks, all of them result objects, and their summary. *)
Lemma uploadFiles_data
      (upload : nat -> nat -> list float * JS.settled response_data)
      (toISOString typeError : string) (files : list File.t)
      (onProgress : option Batch.callback)
      (opts : Service.options) (evs : list Batch.event) (res : BatchResult.t)
      (emitted : list Progress.t) :
  Service.concurrency opts <> Some 0 ->
  Service.retries opts <> Some 0 ->
  quiet onProgress ->
  Service.uploadFiles upload toISOString typeError files onProgress opts evs
    = Some (res, emitted) ->
  BatchResult.success res = true
  /\ BatchResult.error res = None
  /\ BatchResult.data res
     = (batch_slot <$> Service.tasks upload toISOString
                         (default 3 (Service.retries opts)) files)
  /\ Forall (fun v => exists r, v = object r) (BatchResult.data res)
  /\ exists s,
       BatchResult.summary res = Some s
       /\ Summary.total s = length files
       /\ Summary.success s = succeeded (BatchResult.data res)
       /\ Summary.success s + Summary.failed s = Summary.total s.
Proof.
  intros Hconc Hretries Hquiet Hrun.
  destruct (uploadFiles_complete _ _ _ _ _ _ _ _ _ Hconc Hquiet Hrun) as [-> _].
  set (retries := default 3 (Service.retries opts)).
  assert (Hpos : 1 <= retries).
  { unfold retries. destruct (Service.retries opts) as [[|k]|]; simpl; try lia. congruence. }
  set (tasks := Service.tasks upload toISOString retries files).
  assert (Hlength : length (batch_slot <$> tasks) = length files)
    by (rewrite length_fmap; apply tasks_length).
  assert (Hobjects : Forall (fun v => exists r, v = object r) (batch_slot <$> tasks)).
  { apply Forall_lookup. intros i v Hv.
    assert (Hi : i < length files) by (apply lookup_lt_Some in Hv; lia).
    destruct (lookup_lt_is_Some_2 files i Hi) as [file Hfile].
    destruct (uploadSingleFile_object toISOString (upload i) file retries Hpos)
      as (r & Hr & _).
    exists r. rewrite list_lookup_fmap in Hv. unfold tasks in Hv.
    rewrite (tasks_lookup _ _ _ _ _ _ Hfile), Hr in Hv. simpl in Hv. congruence. }
  destruct (filter_results_objects _ Hobjects) as (ss & fs & Hs & Hf & Hlen & Hcount).
  unfold Service.summarize. rewrite Hs, Hf. simpl.
  split; [reflexivity|]. split; [reflexivity|]. split; [reflexivity|].
  split; [exact Hobjects|].
  eexists. split; [reflexivity|]. simpl. rewrite Hlength in *.
  split; [reflexivity|]. split; [exact Hcount | lia].
Qed.

(** X1: with a positive concurrency, at least one attempt per file and a
    progress callback that does not throw (or none), a run of [uploadFiles]
    always completes, and when it does it reports success with one result
    object per file, in file order, each being what [uploadSingleFile]
    resolved with for that file; the summary counts all the files, and its
    [success] and [failed] counts add up to the total. *)
Theorem uploadFiles_reports_every_file
        (upload : nat -> nat -> list float * JS.settled response_data)
        (toISOString typeError : string) (files : list File.t)
        (onProgress : option Batch.callback) (opts : Service.options) :
  Service.concurrency opts <> Some 0 ->
  Service.retries opts <> Some 0 ->
  quiet onProgress ->
  (exists evs,
      is_Some (Service.uploadFiles upload toISOString typeError files onProgress opts evs))
  /\ forall evs res emitted,
      Service.uploadFiles upload toISOString typeError files onProgress opts evs
        = Some (res, emitted) ->
      BatchResult.success res = true
      /\ BatchResult.error res = None
      /\ length (BatchResult.data res) = length files
      /\ (forall i file, files !! i = Some file ->
            exists r,
              BatchResult.data res !! i = Some (object r)
              /\ (Single.uploadSingleFile (upload i) toISOString file
                                          (default 3 (Service.retries opts))).2
                 = JS.Fulfilled (object r)
              /\ Result.filename r = Some (File.name file))
      /\ exists s,
          BatchResult.summary res = Some s
          /\ Summary.total s = length files
          /\ Summary.success s = succeeded (BatchResult.data res)
          /\ Summary.success s + Summary.failed s = Summary.total s.
Proof.
  intros Hconc Hretries Hquiet. split; [apply uploadFiles_completes; assumption|].
  intros evs res emitted Hrun.
  destruct (uploadFiles_data _ _ _ _ _ _ _ _ _ Hconc Hretries Hquiet Hrun)
    as (Hsuccess & Herror & Hdata & _ & Hsummary).
  assert (Hpos : 1 <= default 3 (Service.retries opts)).
  { destruct (Service.retries opts) as [[|k]|]; simpl; try lia. congruence. }
  split; [exact Hsuccess|]. split; [exact Herror|]. split; [|split; [|exact Hsummary]].
  - rewrite Hdata, length_fmap. apply tasks_length.
  - intros i file Hi.
    destruct (uploadSingleFile_object toISOString (upload i) file _ Hpos) as (r & Hr & Hname).
    exists r. rewrite Hdata, list_lookup_fmap, (tasks_lookup _ _ _ _ _ _ Hi), Hr. auto.
Qed.

Lemma uploadFiles_reports_every_file_witness :
  exists res emitted,
    Service.uploadFiles (fun _ => flaky) stamp "TypeError" [photo; huge] (Some silent)
                        (Service.mkOptions (Some 2) None)
                        [Batch.TaskSettles 1 t0; Batch.TaskSettles 0 (t0 + 3600)%Z]
      = Some (res, emitted)
    /\ BatchResult.success res = true
    /\ length (BatchResult.data res) = 2.
Proof.
  destruct (Service.uploadFiles (fun _ => flaky) stamp "TypeError" [photo; huge] (Some silent)
              (Service.mkOptions (Some 2) None)
              [Batch.TaskSettles 1 t0; Batch.TaskSettles 0 (t0 + 3600)%Z])
    as [[res emitted]|] eqn:Hrun; [|vm_compute in Hrun; discriminate Hrun].
  exists res, emitted. split; [reflexivity|].
  destruct (uploadFiles_reports_every_file (fun _ => flaky) stamp "TypeError" [photo; huge]
              (Some silent) (Service.mkOptions (Some 2) None)) as [_ Hall];
    [discriminate | discriminate | exact quiet_silent |].
  destruct (Hall _ _ _ Hrun) as (Hsucc & _ & Hlen & _).
  split; [exact Hsucc | exact Hlen].
Defined.

(** X2: with [retries: 0] every file within the size limit resolves with
    [undefined]; as soon as the batch holds one such file, a complete run
    with a progress callback that does not throw (or none) ends in the
    [catch] block: the whole batch is reported as failed, with the engine's
    TypeError message and no data, although the pool settled every task. *)
Theorem uploadFiles_without_retries_fails
        (upload : nat -> nat -> list float * JS.settled response_data)
        (toISOString typeError : string) (files : list File.t)
        (onProgress : option Batch.callback)
        (concurrency : option nat) (file : File.t) :
  concurrency <> Some 0 ->
  quiet onProgress ->
  file ∈ files ->
  (File.size file <= Single.maxSize)%Z ->
  (exists evs,
      is_Some (Service.uploadFiles upload toISOString typeError files onProgress
                                   (Service.mkOptions concurrency (Some 0)) evs))
  /\ forall evs res emitted,
      Service.uploadFiles upload toISOString typeError files onProgress
                          (Service.mkOptions concurrency (Some 0)) evs = Some (res, emitted) ->
      res = {| BatchResult.success := false;
               BatchResult.data := [];
               BatchResult.summary := None;
               BatchResult.error := Some (JS.or_else typeError "批量上传失败") |}.
Proof.
  intros Hconc Hquiet Hin Hsize.
  split; [apply (uploadFiles_completes upload toISOString typeError files onProgress
                   (Service.mkOptions concurrency (Some 0))); assumption|].
  intros evs res emitted Hrun.
  destruct (uploadFiles_complete upload toISOString typeError files onProgress
              (Service.mkOptions concurrency (Some 0)) evs res emitted Hconc Hquiet Hrun)
    as [-> _]. simpl.
  apply list_elem_of_lookup in Hin as [i Hi].
  assert (Hundef : undefined ∈ batch_slot <$> Service.tasks upload toISOString 0 files).
  { apply list_elem_of_lookup. exists i.
    rewrite list_lookup_fmap, (tasks_lookup _ _ _ _ _ _ Hi).
    rewrite zero_retries_resolve_undefined by exact Hsize. reflexivity. }
  unfold Service.summarize. rewrite (filter_results_undefined _ _ Hundef). reflexivity.
Qed.

Lemma uploadFiles_without_retries_fails_witness :
  Service.uploadFiles (fun _ => reliable) stamp "Cannot read properties of undefined" [photo]
                      (Some silent) (Service.mkOptions None (Some 0)) [Batch.TaskSettles 0 t0]
  = Some ({| BatchResult.success := false;
             BatchResult.data := [];
             BatchResult.summary := None;
             BatchResult.error := Some "Cannot read properties of undefined" |},
          [Progress.mk 1 1 100 0 undefined; Progress.mk 1 1 100 0 undefined;
           Progress.mk 1 1 100 0 undefined]).
Proof.
  destruct (Service.uploadFiles (fun _ => reliable) stamp "Cannot read properties of undefined"
              [photo] (Some silent) (Service.mkOptions None (Some 0)) [Batch.TaskSettles 0 t0])
    as [[res emitted]|] eqn:Hrun; [|vm_compute in Hrun; discriminate Hrun].
  destruct (uploadFiles_without_retries_fails (fun _ => reliable) stamp
              "Cannot read properties of undefined" [photo] (Some silent) None photo)
    as [_ Hall]; [discriminate | exact quiet_silent | left | vm_compute; discriminate |].
  rewrite (Hall _ _ _ Hrun).
  vm_compute in Hrun. inversion Hrun. reflexivity.
Defined.




(** ** handleUpload *)

Lemma page_validation (file : File.t) :
  Validate.isValid (Validate.validateFile file Home.page_options) = true <-> page_accepts file.
Proof.
  rewrite validateFile_checks_size_and_type. unfold page_accepts. simpl.
  unfold Validate.startsWith. rewrite orb_false_r. reflexivity.
Qed.

Lemma validate_loop_filter (files : list File.t) :
  (Home.validate_loop files).1 = filter page_accepts files
  /\ length (Home.validate_loop files).1 + length (Home.validate_loop files).2 = length files.
Proof.
  induction files as [|file files [IHv IHt]]; [split; reflexivity|].
  cbn [Home.validate_loop].
  destruct (Home.validate_loop files) as [valid toasts]. simpl in IHv, IHt.
  destruct (Validate.isValid (Validate.validateFile file Home.page_options)) eqn:Hvalid; simpl.
  - rewrite filter_cons_True by (apply page_validation; exact Hvalid).
    subst valid. split; [reflexivity | simpl; lia].
  - rewrite filter_cons_False.
    + subst valid. split; [reflexivity | simpl; lia].
    + intros Hacc. apply page_validation in Hacc. congruence.
Qed.

(** X5: the loop of [handleUpload] keeps, in order, exactly the files that
    are within 10 MB and whose type starts with [image], and shows one error
    toast for each of the others.  No file it keeps can take the size
    failure path of [uploadSingleFile]: with at least one attempt allowed
    the uploader goes straight to the first request. *)
Theorem handleUpload_keeps_valid_files (files : list File.t) :
  (Home.validate_loop files).1 = filter page_accepts files
  /\ length (Home.validate_loop files).1 + length (Home.validate_loop files).2 = length files
  /\ forall file, file ∈ (Home.validate_loop files).1 ->
       forall (upload : nat -> list float * JS.settled response_data)
              (toISOString : string) (retries : nat),
         1 <= retries ->
         exists rest,
           (Single.uploadSingleFile upload toISOString file retries).1
           = Single.Upload 0 :: rest.
Proof.
  destruct (validate_loop_filter files) as [Hvalid Hcount].
  split; [exact Hvalid|]. split; [exact Hcount|].
  intros file Hin upload toISOString retries Hretries.
  rewrite Hvalid in Hin. apply list_elem_of_filter in Hin as [[Hsize _] _].
  unfold Single.uploadSingleFile.
  destruct (File.size file >? Single.maxSize)%Z eqn:Hgt; [unfold Single.maxSize in Hgt; lia|].
  destruct retries as [|remaining]; [lia|].
  apply retry_loop_head.
Qed.

(** X6: when [handleUpload] keeps at least one file, its run always
    completes and leaves the page not uploading, with one result per kept
    file, the progress at [completed = total =] the number of kept files and
    100 percent, and one success toast after the error toasts.  When it keeps
    none it only adds the error toasts. *)
Theorem handleUpload_ends_at_100
        (upload : nat -> nat -> list float * JS.settled response_data)
        (toISOString typeError : string) (files : list File.t) (st : Home.page) :
  (filter page_accepts files = [] ->
   forall evs,
     Home.handleUpload upload toISOString typeError files evs st
     = Some (Home.mkPage (Home.uploading st) (Home.uploadResults st) (Home.uploadProgress st)
                         (Home.toasts st ++ (Home.validate_loop files).2)))
  /\ (filter page_accepts files <> [] ->
      (exists evs, is_Some (Home.handleUpload upload toISOString typeError files evs st))
      /\ forall evs st',
          Home.handleUpload upload toISOString typeError files evs st = Some st' ->
          let kept := length (filter page_accepts files) in
          Home.uploading st' = false
          /\ length (Home.uploadResults st') = kept
          /\ Home.uploadProgress st' = Home.mkShown kept kept 100
          /\ Home.toasts st'
             = Home.toasts st ++ (Home.validate_loop files).2
               ++ ["成功上传 " +:+ pretty (succeeded (Home.uploadResults st')) +:+ "/"
                   +:+ pretty kept +:+ " 张图片"]).
Proof.
  destruct (validate_loop_filter files) as [Hvalid _].
  unfold Home.handleUpload.
  destruct (Home.validate_loop files) as [validFiles errors]. simpl in Hvalid. subst validFiles.
  simpl. split.
  - intros Hnone evs. rewrite Hnone. reflexivity.
  - intros Hsome.
    assert (Hlen : length (filter page_accepts files) <> 0)
      by (destruct (filter page_accepts files); [congruence | discriminate]).
    rewrite bool_decide_eq_false_2 by exact Hlen.
    destruct (uploadFiles_completes upload toISOString typeError (filter page_accepts files)
                (Some Home.setUploadProgress) (Service.mkOptions (Some 5) (Some 3))
                ltac:(discriminate) quiet_setUploadProgress)
      as [evs [[res emitted] Hrun]].
    split.
    + exists evs. rewrite Hrun. destruct (BatchResult.success res); eexists; reflexivity.
    + intros evs' st' Hpage.
      destruct (Service.uploadFiles _ _ _ _ _ _ evs') as [[res' emitted']|] eqn:Hrun';
        [|discriminate].
      destruct (uploadFiles_data upload toISOString typeError (filter page_accepts files)
                  (Some Home.setUploadProgress) (Service.mkOptions (Some 5) (Some 3))
                  evs' res' emitted'
                  ltac:(discriminate) ltac:(discriminate) quiet_setUploadProgress Hrun')
        as (Hsucc & _ & Hslots & _ & s & Hs & Htotal & Hsuccess & _).
      assert (Hdata : length (BatchResult.data res') = length (filter page_accepts files))
        by (rewrite Hslots, length_fmap; apply tasks_length).
      destruct (uploadFiles_complete upload toISOString typeError (filter page_accepts files)
                  (Some Home.setUploadProgress) (Service.mkOptions (Some 5) (Some 3))
                  evs' res' emitted'
                  ltac:(discriminate) quiet_setUploadProgress Hrun')
        as [_ Hfinal].
      destruct (Hfinal ltac:(discriminate)) as (earlier & final & -> & Hc & Ht & Hp).
      rewrite Hsucc, Hs in Hpage. inversion Hpage; subst st'; clear Hpage. simpl.
      unfold Home.after_progress. rewrite last_snoc, Hc, Ht, Hp.
      rewrite Htotal, Hsuccess, <- app_assoc. auto.
Qed.

Lemma handleUpload_ends_at_100_witness :
  exists st',
    Home.handleUpload (fun _ => reliable) stamp "TypeError" [notes; holiday]
                      [Batch.TaskSettles 0 t0] page0 = Some st'
    /\ Home.uploadProgress st' = Home.mkShown 1 1 100
    /\ Home.toasts st' = ["notes.txt: 不支持的文件类型"; "成功上传 1/1 张图片"].
Proof.
  destruct (Home.handleUpload (fun _ => reliable) stamp "TypeError" [notes; holiday]
              [Batch.TaskSettles 0 t0] page0) as [st'|] eqn:Hrun;
    [|vm_compute in Hrun; discriminate Hrun].
  exists st'. split; [reflexivity|].
  destruct (handleUpload_ends_at_100 (fun _ => reliable) stamp "TypeError" [notes; holiday] page0)
    as [_ Hsome].
  destruct Hsome as [_ Hall]; [vm_compute; discriminate|].
  destruct (Hall _ _ Hrun) as (_ & _ & Hprogress & _).
  split; [exact Hprogress|].
  vm_compute in Hrun. inversion Hrun. reflexivity.
Defined.

(** ** createThrottle: the latest arguments are never lost *)


(** X7: after any history of calls, timer firings and flushes, the
    arguments of the latest call have not been lost: either they are the
    last thing delivered to the callback, or they are held with a timer
    pending that will deliver them; a flush therefore always ends with them
    delivered last.  And the callback only ever receives arguments that were
    passed to the throttle. *)
Theorem throttle_keeps_latest_call {A : Type} (delay : Z) (evs : list (Throttle.event A))
        (s : Throttle.state A) (out : list A) (args : A) :
  Throttle.run delay Throttle.createThrottle evs = Some (s, out) ->
  last_call evs = Some args ->
  (last out = Some args
   \/ (Throttle.lastArgs s = Some args /\ is_Some (Throttle.timeoutId s)))
  /\ last (out ++ (Throttle.flush s).2) = Some args
  /\ (forall now, is_Some (Throttle.timeoutId s) ->
        last (out ++ (Throttle.timeout_callback now s).2) = Some args)
  /\ forall x, x ∈ out -> x ∈ called evs.
Proof.
  intros Hrun Hlast.
  pose proof (fresh_inv_run delay evs s out Hrun) as Hinv.
  split; [apply (fresh_kept _ _ _ Hinv), Hlast|]. split; [|split].
  - destruct (Throttle.flush s) as [sf outf] eqn:Hf.
    assert (Hstep : Throttle.step delay s Throttle.Flush = Some (sf, outf))
      by (simpl; rewrite Hf; reflexivity).
    pose proof (fresh_inv_step delay evs s out _ _ _ Hinv Hstep) as Hflush.
    destruct (fresh_kept _ _ _ Hflush args) as [Hl | [Hl _]].
    + rewrite last_call_snoc. exact Hlast.
    + exact Hl.
    + unfold Throttle.flush in Hf. destruct (Throttle.lastArgs s);
        inversion Hf; subst sf; discriminate Hl.
  - intros now Hpending.
    destruct (fresh_timer _ _ _ Hinv Hpending) as [b Hb].
    unfold Throttle.timeout_callback. rewrite Hb. simpl. rewrite last_snoc.
    rewrite (fresh_args _ _ _ Hinv b Hb) in Hlast. exact Hlast.
  - apply (fresh_called _ _ _ Hinv).
Qed.

Lemma throttle_keeps_latest_call_witness :
  last (["a"] ++ (Throttle.flush deferred_call).2) = Some "b".
Proof.
  apply (throttle_keeps_latest_call 100
           [Throttle.Call "a" t0; Throttle.Call "b" (t0 + 10)%Z] deferred_call ["a"] "b");
    reflexivity.
Defined.

(** ** The worker pools: bounded concurrency, each task run once *)

Section OnceFacts.
Implicit Types (workers : list (option nat)) (done : list nat).

Lemma in_flight_length workers : length (in_flight workers) = awaiting workers.
Proof.
  unfold in_flight. induction workers as [|[i|] workers IH]; simpl; auto.
Qed.

Lemma in_flight_elem workers i : i ∈ in_flight workers <-> Some i ∈ workers.
Proof.
  unfold in_flight. rewrite list_elem_of_omap. split.
  - intros (o & Ho & Hid). simpl in Hid. subst o. exact Ho.
  - intros Hi. exists (Some i). split; [exact Hi | reflexivity].
Qed.

Lemma awaiting_le_length workers : awaiting workers <= length workers.
Proof. induction workers as [|[i|] workers IH]; simpl; lia. Qed.

Lemma awaiting_all_busy workers : None ∉ workers -> awaiting workers = length workers.
Proof.
  induction workers as [|[i|] workers IH]; simpl; intros Hnone.
  - reflexivity.
  - rewrite IH; [reflexivity|]. intros H. apply Hnone. right. exact H.
  - exfalso. apply Hnone. left.
Qed.

Lemma once_inv_started n : once_inv n [] n (Some <$> seq 0 n).
Proof.
  split.
  - constructor.
  - rewrite length_fmap, length_seq. reflexivity.
  - intros i Hi. inversion Hi.
  - intros w1 w2 i H1 H2. rewrite list_lookup_fmap in H1, H2.
    destruct (seq 0 n !! w1) as [a|] eqn:Ha; [|discriminate H1].
    destruct (seq 0 n !! w2) as [b|] eqn:Hb; [|discriminate H2].
    apply lookup_seq in Ha as [-> _]. apply lookup_seq in Hb as [-> _].
    simpl in H1, H2. inversion H1. inversion H2. lia.
  - intros i Hi. apply list_elem_of_fmap in Hi as (j & [= ->] & Hj).
    apply elem_of_seq in Hj. lia.
Qed.

(** Task [i], awaited by worker [w], settles and the worker goes on with
    [next]: the task at the cursor, or nothing. *)
Lemma once_inv_settle M done index index' workers w i next :
  once_inv M done index workers ->
  workers !! w = Some (Some i) ->
  (next = Some index /\ index' = S index) \/ (next = None /\ index' = index) ->
  once_inv M (i :: done) index' (<[w := next]> workers).
Proof.
  intros [Hnodup Hlen Hdone Hunique Hawaited] Hw Hnext.
  assert (Hi : i < index) by (eapply Hawaited, list_elem_of_lookup_2, Hw).
  assert (Hle : index <= index') by (destruct Hnext as [[_ ->]|[_ ->]]; lia).
  assert (Hfresh : forall j, next = Some j -> j = index /\ index' = S index).
  { intros j Hj. destruct Hnext as [[-> ->]|[-> _]]; [|discriminate Hj].
    inversion Hj. auto. }
  assert (Hother : forall w' j, <[w := next]> workers !! w' = Some (Some j) ->
                     (w' = w /\ next = Some j) \/ (w' <> w /\ workers !! w' = Some (Some j))).
  { intros w' j H. apply list_lookup_insert_Some in H as [(-> & Heq & _) | [Hne H]].
    - left. auto.
    - right. auto. }
  split.
  - constructor; [|exact Hnodup].
    intros Hin. destruct (Hdone i Hin) as [Hnot _].
    apply Hnot. eapply list_elem_of_lookup_2, Hw.
  - rewrite length_insert. exact Hlen.
  - intros j Hj. split.
    + intros Hin. apply list_elem_of_lookup_1 in Hin as [w' Hw'].
      destruct (Hother w' j Hw') as [[-> Hnew] | [Hne Hold]].
      * destruct (Hfresh j Hnew) as [-> _].
        apply elem_of_cons in Hj as [->|Hj]; [lia|].
        destruct (Hdone _ Hj) as [_ Hlt]. lia.
      * apply elem_of_cons in Hj as [->|Hj].
        -- apply Hne. eapply Hunique; eauto.
        -- destruct (Hdone _ Hj) as [Hnot _]. apply Hnot.
           eapply list_elem_of_lookup_2, Hold.
    + apply elem_of_cons in Hj as [->|Hj]; [lia|].
      destruct (Hdone _ Hj) as [_ Hlt]. lia.
  - intros w1 w2 j H1 H2.
    destruct (Hother w1 j H1) as [[-> Hn1] | [Hne1 Ho1]];
      destruct (Hother w2 j H2) as [[-> Hn2] | [Hne2 Ho2]].
    + reflexivity.
    + destruct (Hfresh j Hn1) as [-> _].
      assert (index < index) by (eapply Hawaited, list_elem_of_lookup_2, Ho2). lia.
    + destruct (Hfresh j Hn2) as [-> _].
      assert (index < index) by (eapply Hawaited, list_elem_of_lookup_2, Ho1). lia.
    + eapply Hunique; eauto.
  - intros j Hin. apply list_elem_of_lookup_1 in Hin as [w' Hw'].
    destruct (Hother w' j Hw') as [[-> Hnew] | [Hne Hold]].
    + destruct (Hfresh j Hnew) as [-> ->]. lia.
    + assert (j < index) by (eapply Hawaited, list_elem_of_lookup_2, Hold). lia.
Qed.

End OnceFacts.

Section BatchOnce.
Variable tasks : list (JS.settled value).
Variable files : list File.t.
Variable concurrency : nat.
Variable onProgress : option Batch.callback.

Lemma batch_once_run evs : forall done st st',
  once_inv (min concurrency (length tasks)) done (Batch.index st) (Batch.workers st) ->
  Batch.run tasks files onProgress st evs = Some st' ->
  once_inv (min concurrency (length tasks)) (rev (settles evs) ++ done)
           (Batch.index st') (Batch.workers st').
Proof.
  induction evs as [|ev evs IH]; intros done st st' Hinv Hrun; simpl in Hrun.
  - inversion Hrun; subst. exact Hinv.
  - destruct (Batch.step tasks files onProgress st ev) as [st1|] eqn:Hstep; [|discriminate].
    change (ev :: evs) with ([ev] ++ evs). rewrite settles_app, rev_app_distr, <- app_assoc.
    eapply IH; [|exact Hrun].
    destruct (batch_step_shape _ _ _ _ _ _ Hstep)
      as [(-> & -> & ->) | (i & now & w & next & -> & Hw & -> & Hnext)].
    + exact Hinv.
    + simpl. eapply once_inv_settle; [exact Hinv | exact Hw |].
      destruct Hnext as [(H1 & H2 & _) | (H1 & H2 & _)]; auto.
Qed.

Lemma batch_once_start :
  once_inv (min concurrency (length tasks)) []
           (Batch.index (Batch.runWithConcurrency tasks files concurrency onProgress))
           (Batch.workers (Batch.runWithConcurrency tasks files concurrency onProgress)).
Proof.
  unfold Batch.runWithConcurrency.
  match goal with |- context [Batch.await_workers tasks onProgress ?s] =>
    pose proof (batch_await_fields tasks onProgress s) as (A1 & A2 & _)
  end.
  rewrite A1, A2.
  rewrite (batch_start tasks (min concurrency (length tasks)) 0);
    [|reflexivity | lia | reflexivity].
  simpl. apply once_inv_started.
Qed.

End BatchOnce.

Section LimitOnce.
Context {R : Type}.
Variable tasks : list (JS.settled R).
Variable limit : nat.

Lemma limit_once_run order : forall done st st',
  once_inv (min limit (length tasks)) done (Limit.index st) (Limit.workers st) ->
  Limit.run tasks st order = Some st' ->
  once_inv (min limit (length tasks)) (rev order ++ done)
           (Limit.index st') (Limit.workers st').
Proof.
  induction order as [|i order IH]; intros done st st' Hinv Hrun; simpl in Hrun.
  - inversion Hrun; subst. exact Hinv.
  - destruct (Limit.step tasks st i) as [st1|] eqn:Hstep; [|discriminate].
    simpl. rewrite <- app_assoc. eapply IH; [|exact Hrun].
    destruct (limit_step_shape _ _ _ _ Hstep)
      as (w & next & outcome & Hw & _ & _ & -> & Hnext).
    simpl. eapply once_inv_settle; [exact Hinv | exact Hw |].
    destruct Hnext as [(H1 & H2 & _) | (H1 & H2 & _)]; auto.
Qed.

Lemma limit_once_start :
  once_inv (min limit (length tasks)) []
           (Limit.index (Limit.runWithConcurrencyLimit tasks limit))
           (Limit.workers (Limit.runWithConcurrencyLimit tasks limit)).
Proof.
  unfold Limit.runWithConcurrencyLimit.
  match goal with |- context [Limit.await_workers ?s] =>
    pose proof (limit_await_fields s) as (A1 & A2 & _)
  end.
  rewrite A1, A2.
  set (n := min limit (length tasks)).
  set (st0 := Limit.mkPool _ _ _ _).
  destruct (limit_start tasks n 0 st0) as (Hidx & Hws & _);
    [reflexivity | lia | reflexivity |].
  simpl in Hidx, Hws. rewrite Hidx, Hws. apply once_inv_started.
Qed.

End LimitOnce.

Lemma in_flight_NoDup (workers : list (option nat)) :
  (forall w1 w2 i, workers !! w1 = Some (Some i) -> workers !! w2 = Some (Some i) -> w1 = w2) ->
  NoDup (in_flight workers).
Proof.
  unfold in_flight. induction workers as [|o workers IH]; intros Hunique; simpl.
  - constructor.
  - assert (Hrest : NoDup (omap (fun o => o) workers)).
    { apply IH. intros w1 w2 i H1 H2.
      specialize (Hunique (S w1) (S w2) i H1 H2). lia. }
    destruct o as [i|]; simpl; [|exact Hrest].
    constructor; [|exact Hrest].
    intros Hin. apply in_flight_elem, list_elem_of_lookup_1 in Hin as [w Hw].
    specialize (Hunique 0 (S w) i eq_refl Hw). discriminate Hunique.
Qed.

Lemma once_core_facts {V : Type} (M N : nat) (expected : nat -> V) (done : list nat)
      (index : nat) (results : list V) (workers : list (option nat)) :
  core_inv N expected (rev done) index results workers ->
  once_inv M (rev done) index workers ->
  (NoDup done
   /\ NoDup (in_flight workers)
   /\ (forall i, i ∈ done -> i ∉ in_flight workers)
   /\ (forall i, i < index <-> i ∈ done \/ i ∈ in_flight workers)
   /\ index <= N)
  /\ (length (in_flight workers) <= M
      /\ length done + length (in_flight workers) = index
      /\ (index < N -> length (in_flight workers) = M)).
Proof.
  intros [Hindex _ Hsettled Hawaited Hexit Hcount] [Hnodup Hlen Hdone Hunique _].
  assert (Hrev : forall i, i ∈ done <-> i ∈ rev done).
  { intros i. rewrite !list_elem_of_In. apply in_rev. }
  split; [split; [|split; [|split; [|split]]] | split; [|split]].
  - apply NoDup_ListNoDup. apply NoDup_ListNoDup, NoDup_rev in Hnodup.
    rewrite rev_involutive in Hnodup. exact Hnodup.
  - apply in_flight_NoDup, Hunique.
  - intros i Hi Hin. apply in_flight_elem in Hin.
    destruct (Hdone i (proj1 (Hrev i) Hi)) as [Hnot _]. exact (Hnot Hin).
  - intros i. split.
    + intros Hi. destruct (decide (Some i ∈ workers)) as [Hin|Hnot].
      * right. apply in_flight_elem, Hin.
      * left. apply Hrev. apply (Hsettled i Hi Hnot).
    + intros [Hi|Hi].
      * apply (Hdone i (proj1 (Hrev i) Hi)).
      * apply Hawaited, in_flight_elem, Hi.
  - exact Hindex.
  - rewrite in_flight_length, <- Hlen. apply awaiting_le_length.
  - rewrite in_flight_length, <- Hcount, length_rev. reflexivity.
  - intros Hlt. rewrite in_flight_length, <- Hlen. apply awaiting_all_busy.
    intros Hnone. apply Hexit in Hnone. lia.
Qed.

(** X8: in both pools, whatever the order of settlement, every task is run
    exactly once and in index order: no task settles twice, no task is
    awaited by two workers, a settled task is no longer awaited, and the
    tasks below the cursor are exactly those settled or in flight (none is
    skipped, none above the cursor has been started). *)
Theorem pools_run_each_task_once :
  (forall (tasks : list (JS.settled value)) (files : list File.t) (concurrency : nat)
          (onProgress : option Batch.callback) (evs : list Batch.event) (st : Batch.pool),
      Batch.run tasks files onProgress
                (Batch.runWithConcurrency tasks files concurrency onProgress) evs
        = Some st ->
      NoDup (settles evs)
      /\ NoDup (in_flight (Batch.workers st))
      /\ (forall i, i ∈ settles evs -> i ∉ in_flight (Batch.workers st))
      /\ (forall i, i < Batch.index st
                    <-> i ∈ settles evs \/ i ∈ in_flight (Batch.workers st))
      /\ Batch.index st <= length tasks)
  /\ (forall (R : Type) (tasks : list (JS.settled R)) (limit : nat)
             (order : list nat) (st : Limit.pool R),
      Limit.run tasks (Limit.runWithConcurrencyLimit tasks limit) order = Some st ->
      NoDup order
      /\ NoDup (in_flight (Limit.workers st))
      /\ (forall i, i ∈ order -> i ∉ in_flight (Limit.workers st))
      /\ (forall i, i < Limit.index st <-> i ∈ order \/ i ∈ in_flight (Limit.workers st))
      /\ Limit.index st <= length tasks).
Proof.
  split.
  - intros tasks files concurrency onProgress evs st Hrun.
    destruct (batch_sched_run tasks files onProgress evs [] _ st
                (batch_sched_start tasks files concurrency onProgress) Hrun)
      as [ghost Hcore].
    pose proof (batch_once_run tasks files concurrency onProgress evs [] _ st
                  (batch_once_start tasks files concurrency onProgress) Hrun) as Honce.
    rewrite app_nil_r in Hcore, Honce.
    apply (once_core_facts _ _ _ _ _ _ _ Hcore Honce).
  - intros R tasks limit order st Hrun.
    pose proof (limit_inv_run tasks limit order [] _ st
                  (limit_inv_start tasks limit) Hrun) as Hinv.
    pose proof (limit_once_run tasks limit order [] _ st
                  (limit_once_start tasks limit) Hrun) as Honce.
    rewrite app_nil_r in Hinv, Honce.
    apply (once_core_facts _ _ _ _ _ _ _ (li_core _ _ _ _ Hinv) Honce).
Qed.

Lemma pools_run_each_task_once_witness :
  NoDup [1; 0; 2].
Proof.
  destruct (Limit.run three_deletes (Limit.runWithConcurrencyLimit three_deletes 2) [1; 0; 2])
    as [st|] eqn:Hrun; [|vm_compute in Hrun; discriminate Hrun].
  apply (proj2 pools_run_each_task_once nat three_deletes 2 [1; 0; 2] st Hrun).
Defined.




(** X10: along the events the upload pool hands to a progress callback
    that does not throw, the count [completed] never goes back (the percent
    may, the count may not), [total] is always the number of tasks, and
    [completed] is at most the number of tasks that have settled while the
    pool runs, at most [total] always. *)
Theorem progress_counts_never_go_back (tasks : list (JS.settled value)) (files : list File.t)
        (concurrency : nat) (onProgress : option Batch.callback)
        (evs : list Batch.event) (st : Batch.pool) :
  quiet onProgress ->
  Batch.run tasks files onProgress
            (Batch.runWithConcurrency tasks files concurrency onProgress) evs
    = Some st ->
  completed_sorted (Batch.emitted st)
  /\ (forall e, e ∈ Batch.emitted st ->
        Progress.total e = length tasks
        /\ Progress.completed e <= Progress.total e
        /\ (Batch.returned st = None -> Progress.completed e <= length (settles evs))).
Proof.
  intros Hquiet Hrun.
  pose proof (batch_inv_run tasks files concurrency onProgress evs Hquiet [] _ st
                (batch_inv_start tasks files concurrency onProgress Hquiet) Hrun) as Hbatch.
  pose proof (mono_inv_run tasks files concurrency onProgress evs Hquiet [] _ st
                (batch_inv_start tasks files concurrency onProgress Hquiet)
                (mono_inv_start tasks files concurrency onProgress Hquiet) Hrun)
    as [Hsorted Hemitted _].
  rewrite app_nil_r in Hbatch.
  pose proof (bi_completed _ _ _ _ _ Hbatch) as Hcompleted. rewrite length_rev in Hcompleted.
  assert (Hle : Batch.completed st <= length tasks).
  { rewrite (bi_completed _ _ _ _ _ Hbatch).
    pose proof (core_count _ _ _ _ _ _ (bi_core _ _ _ _ _ Hbatch)).
    pose proof (core_index _ _ _ _ _ _ (bi_core _ _ _ _ _ Hbatch)). lia. }
  split; [exact Hsorted|].
  intros e He. destruct (Hemitted e He) as [Htotal Hbound].
  unfold count_bound in Hbound. split; [exact Htotal|]. split.
  - rewrite Htotal. destruct (Batch.returned st); lia.
  - intros Hret. rewrite Hret in Hbound. lia.
Qed.

Lemma progress_counts_never_go_back_witness :
  exists st, flaky_batch = Some st /\ completed_sorted (Batch.emitted st).
Proof.
  destruct flaky_batch as [st|] eqn:Hrun; [|vm_compute in Hrun; discriminate Hrun].
  exists st. split; [reflexivity|].
  apply (progress_counts_never_go_back _ _ 5 (Some silent) _ st quiet_silent Hrun).
Defined.

(** ** The upload endpoint *)

(** X11: [sendToTelegram] makes at most three requests.  A request that
    gets an HTTP response ends the call, whatever the status: an [ok]
    response gives [{success: true, data}], any other
    [{success: false, error: description || '上传到Telegram失败'}] without a
    retry.  Only a thrown error is retried, after 1000 ms and then 2000 ms;
    a third thrown error gives [{success: false, error: '发生网络错误'}].
    The call never throws. *)
Theorem sendToTelegram_retries_thrown_errors_only (fetch : nat -> Server.fetched)
        (apiEndpoint : string) :
  (forall k http_ok responseData,
      k <= Server.MAX_RETRIES ->
      (forall j, j < k -> exists e, fetch j = Server.Threw e) ->
      fetch k = Server.Responded http_ok responseData ->
      Server.sendToTelegram fetch apiEndpoint 0
      = (attempts_before apiEndpoint k ++ [Server.Fetch apiEndpoint],
         if http_ok then Server.Success responseData
         else Server.Failure
                (JS.opt_or_else (Server.description responseData) "上传到Telegram失败")))
  /\ ((forall j, j <= Server.MAX_RETRIES -> exists e, fetch j = Server.Threw e) ->
      Server.sendToTelegram fetch apiEndpoint 0
      = (attempts_before apiEndpoint Server.MAX_RETRIES ++ [Server.Fetch apiEndpoint],
         Server.Failure "发生网络错误"))
  /\ 1 <= fetches (Server.sendToTelegram fetch apiEndpoint 0).1 <= 3.
Proof.
  unfold Server.sendToTelegram, Server.MAX_RETRIES, attempts_before. simpl.
  split; [|split].
  - intros k http_ok responseData Hk Hthrew Hresp.
    destruct k as [|[|[|k]]]; [| | |lia].
    + rewrite Hresp. destruct http_ok; reflexivity.
    + destruct (Hthrew 0 ltac:(lia)) as [e0 H0]. rewrite H0, Hresp.
      destruct http_ok; reflexivity.
    + destruct (Hthrew 0 ltac:(lia)) as [e0 H0]. destruct (Hthrew 1 ltac:(lia)) as [e1 H1].
      rewrite H0, H1, Hresp. destruct http_ok; reflexivity.
  - intros Hthrew.
    destruct (Hthrew 0 ltac:(lia)) as [e0 H0]. destruct (Hthrew 1 ltac:(lia)) as [e1 H1].
    destruct (Hthrew 2 ltac:(lia)) as [e2 H2].
    rewrite H0, H1, H2. reflexivity.
  - destruct (fetch 0) as [e0|[|] d0]; simpl;
      [destruct (fetch 1) as [e1|[|] d1]; simpl;
         [destruct (fetch 2) as [e2|[|] d2]; simpl| |]| |];
      vm_compute; lia.
Qed.

Lemma sendToTelegram_retries_thrown_errors_only_witness :
  Server.sendToTelegram third_time_lucky "sendDocument" 0
  = ([Server.Fetch "sendDocument"; Server.SetTimeout 1000;
      Server.Fetch "sendDocument"; Server.SetTimeout 2000;
      Server.Fetch "sendDocument"],
     Server.Success stored_document).
Proof.
  apply (proj1 (sendToTelegram_retries_thrown_errors_only third_time_lucky "sendDocument")
               2 true stored_document).
  - unfold Server.MAX_RETRIES. lia.
  - intros j Hj. exists (JS.new_Error "fetch failed").
    destruct j as [|[|j]]; [reflexivity | reflexivity | lia].
  - reflexivity.
Defined.

Section LargestPhoto.

(** [reduce] with [larger] over photos that all carry a size: the photo
    kept is the last of the largest ones. *)
Lemma fold_larger_last_max (rest : list Server.PhotoSize) : forall (seen : list Server.PhotoSize)
    (acc : Server.PhotoSize) (i : nat),
  (forall p, p ∈ seen ++ rest -> is_Some (Server.file_size p)) ->
  seen !! i = Some acc ->
  (forall q, q ∈ seen -> (size_of q <= size_of acc)%Z) ->
  (forall j q, i < j -> seen !! j = Some q -> (size_of q < size_of acc)%Z) ->
  exists i' p,
    (seen ++ rest) !! i' = Some p
    /\ fold_left Server.larger rest acc = p
    /\ (forall q, q ∈ seen ++ rest -> (size_of q <= size_of p)%Z)
    /\ (forall j q, i' < j -> (seen ++ rest) !! j = Some q -> (size_of q < size_of p)%Z).
Proof.
  induction rest as [|current rest IH]; intros seen acc i Hsizes Hacc Hmax Hlast; simpl.
  - exists i, acc. rewrite app_nil_r. auto.
  - assert (Hi : i < length seen) by (eapply lookup_lt_Some, Hacc).
    assert (Hin : acc ∈ seen) by (eapply list_elem_of_lookup_2, Hacc).
    destruct (Hsizes acc) as [a Ha]; [apply elem_of_app; left; exact Hin|].
    destruct (Hsizes current) as [b Hb]; [apply elem_of_app; right; left|].
    assert (Hsa : size_of acc = a) by (unfold size_of; rewrite Ha; reflexivity).
    assert (Hsb : size_of current = b) by (unfold size_of; rewrite Hb; reflexivity).
    replace (seen ++ current :: rest) with ((seen ++ [current]) ++ rest) in *
      by (rewrite <- app_assoc; reflexivity).
    unfold Server.larger at 2. rewrite Ha, Hb.
    destruct (Z.gtb_spec a b) as [Hgt|Hle].
    + (* the photo kept so far is strictly larger *)
      apply (IH (seen ++ [current]) acc i); [exact Hsizes | | |].
      * rewrite lookup_app_l by exact Hi. exact Hacc.
      * intros q Hq. apply elem_of_app in Hq as [Hq|Hq]; [auto|].
        apply list_elem_of_singleton in Hq as ->. lia.
      * intros j q Hj Hq. destruct (decide (j < length seen)) as [Hlt|Hge].
        -- rewrite lookup_app_l in Hq by exact Hlt. eauto.
        -- rewrite lookup_app_r in Hq by lia.
           apply list_lookup_singleton_Some in Hq as [_ <-]. lia.
    + (* the current photo is at least as large: it replaces the other *)
      apply (IH (seen ++ [current]) current (length seen)); [exact Hsizes | | |].
      * rewrite lookup_app_r by lia. rewrite Nat.sub_diag. reflexivity.
      * intros q Hq. apply elem_of_app in Hq as [Hq|Hq].
        -- specialize (Hmax q Hq). lia.
        -- apply list_elem_of_singleton in Hq as ->. lia.
      * intros j q Hj Hq. rewrite lookup_app_r in Hq by lia.
        apply list_lookup_singleton_Some in Hq as [Hj' _]. lia.
Qed.

End LargestPhoto.

(** X12: on an answer with photo sizes that all carry a [file_size],
    [getFileId] returns the [file_id] of a largest one, and among equally
    large ones of the last; a photo array takes precedence over document,
    video and audio.  On an empty photo array [reduce] throws.  An answer
    that is not [ok] or has no [result] gives [null]. *)
Theorem getFileId_takes_the_largest_photo (reduceError : string) (response : Server.Body)
        (message : Server.Message) :
  Server.ok response = true ->
  Server.result response = Some message ->
  (forall photos,
      Server.photo message = Some photos ->
      photos <> [] ->
      (forall p, p ∈ photos -> is_Some (Server.file_size p)) ->
      exists i p,
        photos !! i = Some p
        /\ Server.getFileId reduceError response = Server.Normal (Some (Server.file_id p))
        /\ (forall q, q ∈ photos -> (size_of q <= size_of p)%Z)
        /\ (forall j q, i < j -> photos !! j = Some q -> (size_of q < size_of p)%Z))
  /\ (Server.photo message = Some [] ->
      Server.getFileId reduceError response = Server.Throw (JS.new_Error reduceError))
  /\ (Server.photo message = None ->
      Server.getFileId reduceError response
      = Server.Normal
          (match Server.document message, Server.video message, Server.audio message with
           | Some id, _, _ | None, Some id, _ | None, None, Some id => Some id
           | None, None, None => None
           end)).
Proof.
  intros Hok Hresult. unfold Server.getFileId. rewrite Hok, Hresult. simpl.
  split; [|split].
  - intros photos Hphoto Hne Hsizes. rewrite Hphoto.
    destruct photos as [|first rest]; [congruence|].
    destruct (fold_larger_last_max rest [first] first 0) as (i & p & Hi & Hfold & Hmax & Hlast).
    + exact Hsizes.
    + reflexivity.
    + intros q Hq. apply list_elem_of_singleton in Hq as ->. lia.
    + intros j q Hj Hq. destruct j; [lia | discriminate Hq].
    + exists i, p. rewrite Hfold. auto.
  - intros ->. reflexivity.
  - intros ->. destruct (Server.document message), (Server.video message),
      (Server.audio message); reflexivity.
Qed.

Lemma getFileId_takes_the_largest_photo_witness :
  exists p,
    Server.getFileId "Reduce of empty array with no initial value" photo_message
    = Server.Normal (Some (Server.file_id p))
    /\ forall q, q ∈ three_sizes -> (size_of q <= size_of p)%Z.
Proof.
  destruct (proj1 (getFileId_takes_the_largest_photo
                     "Reduce of empty array with no initial value" photo_message
                     (Server.mkMessage (Some three_sizes) None None None) eq_refl eq_refl)
                  three_sizes eq_refl ltac:(discriminate))
    as (i & p & Hi & Hget & Hmax & _).
  - intros p Hp. unfold three_sizes in Hp.
    repeat (apply elem_of_cons in Hp as [->|Hp]; [eexists; reflexivity|]).
    inversion Hp.
  - exists p. auto.
Defined.

Section UploadFacts.
Variable toLowerCase : string -> string.
Variable splitError reduceError parseError : string.
Variable fetch : nat -> nat -> Server.fetched.
Variable now : nat -> Z.
Variable c : Server.ctx.

Local Abbreviation stored1 := (stored_one toLowerCase reduceError fetch).
Local Abbreviation storedN := (stored_from toLowerCase reduceError fetch).
Local Abbreviation record := (recorded now c).
Local Abbreviation iter :=
  (Server.iteration toLowerCase splitError reduceError parseError fetch now c).
Local Abbreviation loopc :=
  (Server.loop toLowerCase splitError reduceError parseError fetch now c).

(** An iteration that does not throw pushes the stored entry, if any, and
    records it. *)
Lemma iteration_normal i uploadFile kv effects kv1 pushed :
  iter i uploadFile kv = (effects, kv1, Server.Normal pushed) ->
  pushed = item_of <$> stored1 i uploadFile
  /\ match stored1 i uploadFile with
     | None => kv1 = kv
     | Some s =>
         kv1 = record s kv
         /\ (Server.bound c = true ->
             forall userId, Server.userId_of c = Some userId ->
               s.2 <> Server.userFilesKey userId
               /\ forall m, kv !! Server.userFilesKey userId <> Some (Server.Marker m))
     end.
Proof.
  unfold Server.iteration, stored_one. destruct uploadFile as [s|f].
  - destruct (JS.truthy s); intros [= <- <- <-]. auto.
  - destruct (Server.fileKey_of toLowerCase reduceError fetch i f) as [effs [[k|]|e]]; simpl.
    + unfold Server.record_file, recorded. cbn [snd fst].
      destruct (Server.bound c) eqn:Hbound.
      * destruct (Server.userId_of c) as [uid|] eqn:Huid; cbv zeta; cbn [default].
        -- destruct (decide (k = Server.userFilesKey uid)) as [->|Hne].
           ++ rewrite lookup_insert_eq. intros H. discriminate H.
           ++ rewrite lookup_insert_ne by exact Hne.
              destruct (kv !! Server.userFilesKey uid) as [[m|l]|] eqn:Hold;
                intros [= <- <- <-]; (split; [reflexivity|]); (split; [reflexivity|]);
                intros _ userId [= <-]; (split; [exact Hne|]); intros m'; congruence.
        -- intros [= <- <- <-]. split; [reflexivity|]. split; [reflexivity|].
           intros _ userId H. discriminate H.
      * intros [= <- <- <-]. split; [reflexivity|]. split; [reflexivity|].
        intros H. discriminate H.
    + intros [= <- <- <-]. auto.
    + intros H. discriminate H.
Qed.

(** A loop that does not throw pushes the stored entries in order and
    records them one after the other. *)
Lemma loop_normal entries : forall i kv acc effects kv' body,
  loopc i entries kv acc = (effects, kv', Server.Normal body) ->
  body = acc ++ (item_of <$> storedN i entries)
  /\ kv' = foldl (fun kv s => record s kv) kv (storedN i entries)
  /\ (Server.bound c = true -> apart c (storedN i entries))
  /\ (Server.bound c = true -> storedN i entries <> [] ->
      forall userId m, Server.userId_of c = Some userId ->
                       kv !! Server.userFilesKey userId <> Some (Server.Marker m)).
Proof.
  induction entries as [|uploadFile rest IH]; intros i kv acc effects kv' body Hloop;
    simpl in Hloop.
  - inversion Hloop; subst. simpl. rewrite app_nil_r.
    split; [reflexivity|]. split; [reflexivity|]. split.
    + intros _ userId s _ Hs. inversion Hs.
    + intros _ Hne. congruence.
  - destruct (iter i uploadFile kv) as [[effs kv1] [pushed|e]] eqn:Hiter;
      [|discriminate Hloop].
    destruct (loopc (S i) rest kv1 (acc ++ option_list pushed)) as [[effs' kv2] r] eqn:Hrest.
    inversion Hloop; subst effects kv' r; clear Hloop.
    destruct (IH _ _ _ _ _ _ Hrest) as (Hbody & Hkv & Hapart & Hfirst).
    destruct (iteration_normal _ _ _ _ _ _ Hiter) as [Hpushed Hone].
    simpl. destruct (stored1 i uploadFile) as [s|] eqn:Hs; simpl in *.
    + destruct Hone as [-> Hkey]. subst pushed. simpl in Hbody.
      split; [rewrite Hbody, <- app_assoc; reflexivity|]. split; [exact Hkv|]. split.
      * intros Hbound userId s' Huid Hin. apply elem_of_cons in Hin as [->|Hin].
        -- apply (Hkey Hbound userId Huid).
        -- apply (Hapart Hbound userId s' Huid Hin).
      * intros Hbound _ userId m Huid. apply (Hkey Hbound userId Huid).
    + subst kv1 pushed. simpl in Hbody. rewrite app_nil_r in Hbody.
      split; [exact Hbody|]. split; [exact Hkv|]. split; [exact Hapart | exact Hfirst].
Qed.

(** *** What recording does to the namespace *)

Lemma recorded_unbound s kv : Server.bound c = false -> record s kv = kv.
Proof. unfold recorded. intros ->. reflexivity. Qed.

Lemma recorded_keeps_keys s kv k : is_Some (kv !! k) -> is_Some (record s kv !! k).
Proof.
  unfold recorded. intros Hk. destruct (Server.bound c); [|exact Hk].
  assert (H1 : forall v, is_Some (<[s.2 := v]> kv !! k)).
  { intros v. destruct (decide (s.2 = k)) as [->|Hne].
    - rewrite lookup_insert_eq. eauto.
    - rewrite lookup_insert_ne by exact Hne. exact Hk. }
  destruct (Server.userId_of c) as [uid|]; simpl; [|apply H1].
  destruct (decide (Server.userFilesKey uid = k)) as [->|Hne].
  - rewrite lookup_insert_eq. eauto.
  - rewrite lookup_insert_ne by exact Hne. apply H1.
Qed.

Lemma recorded_other s kv k :
  k <> s.2 ->
  (forall userId, Server.userId_of c = Some userId -> k <> Server.userFilesKey userId) ->
  record s kv !! k = kv !! k.
Proof.
  unfold recorded. intros Hk Huser. destruct (Server.bound c); [|reflexivity].
  destruct (Server.userId_of c) as [uid|]; simpl.
  - rewrite lookup_insert_ne by (intros H; apply (Huser uid eq_refl); congruence).
    rewrite lookup_insert_ne by congruence. reflexivity.
  - rewrite lookup_insert_ne by congruence. reflexivity.
Qed.

Lemma recorded_marker s kv k :
  Server.bound c = true ->
  (forall userId, Server.userId_of c = Some userId -> k <> Server.userFilesKey userId) ->
  (k = s.2 \/ exists m, kv !! k = Some (Server.Marker m)) ->
  exists m, record s kv !! k = Some (Server.Marker m).
Proof.
  unfold recorded. intros -> Huser Hk.
  assert (H1 : exists m, <[s.2 := Server.Marker
                 (Server.mkMetadata (now s.1.1) "None" "None" false (File.name s.1.2)
                    (File.size s.1.2) (default "anonymous" (Server.userId_of c)))]> kv !! k
               = Some (Server.Marker m)).
  { destruct (decide (s.2 = k)) as [Heq|Hne].
    - rewrite Heq, lookup_insert_eq. eauto.
    - rewrite lookup_insert_ne by exact Hne. destruct Hk as [->|Hk]; [congruence | exact Hk]. }
  destruct (Server.userId_of c) as [uid|]; simpl; [|exact H1].
  rewrite lookup_insert_ne by (intros H; apply (Huser uid eq_refl); congruence).
  exact H1.
Qed.

Lemma recorded_list s kv userId :
  Server.bound c = true ->
  Server.userId_of c = Some userId ->
  s.2 <> Server.userFilesKey userId ->
  record s kv !! Server.userFilesKey userId
  = Some (Server.Json (list_of (kv !! Server.userFilesKey userId) ++ [userFile_of now s])).
Proof.
  unfold recorded. intros -> -> Hne. simpl.
  rewrite lookup_insert_eq, lookup_insert_ne by exact Hne. reflexivity.
Qed.

Lemma foldl_recorded_unbound ss : forall kv,
  Server.bound c = false -> foldl (fun kv s => record s kv) kv ss = kv.
Proof.
  induction ss as [|s ss IH]; intros kv Hb; simpl; [reflexivity|].
  rewrite recorded_unbound by exact Hb. apply IH, Hb.
Qed.

Lemma foldl_recorded_keeps_keys ss : forall kv k,
  is_Some (kv !! k) -> is_Some (foldl (fun kv s => record s kv) kv ss !! k).
Proof.
  induction ss as [|s ss IH]; intros kv k Hk; simpl; [exact Hk|].
  apply IH, recorded_keeps_keys, Hk.
Qed.

Lemma foldl_recorded_other ss : forall kv k,
  (forall s, s ∈ ss -> k <> s.2) ->
  (forall userId, Server.userId_of c = Some userId -> k <> Server.userFilesKey userId) ->
  foldl (fun kv s => record s kv) kv ss !! k = kv !! k.
Proof.
  induction ss as [|s ss IH]; intros kv k Hk Huser; simpl; [reflexivity|].
  rewrite IH; [|intros s' Hs'; apply Hk; right; exact Hs' | exact Huser].
  apply recorded_other; [apply Hk; left | exact Huser].
Qed.

Lemma foldl_recorded_marker ss : forall kv k,
  Server.bound c = true ->
  (forall userId, Server.userId_of c = Some userId -> k <> Server.userFilesKey userId) ->
  ((exists s, s ∈ ss /\ k = s.2) \/ exists m, kv !! k = Some (Server.Marker m)) ->
  exists m, foldl (fun kv s => record s kv) kv ss !! k = Some (Server.Marker m).
Proof.
  induction ss as [|s ss IH]; intros kv k Hb Huser Hk; simpl.
  - destruct Hk as [(s & Hs & _)|Hk]; [inversion Hs | exact Hk].
  - apply IH; [exact Hb | exact Huser |].
    destruct Hk as [(s' & Hs' & ->)|Hk].
    + apply elem_of_cons in Hs' as [->|Hs'].
      * right. apply recorded_marker; auto.
      * left. eauto.
    + right. apply recorded_marker; auto.
Qed.

Lemma foldl_recorded_list ss : forall kv userId,
  Server.bound c = true ->
  Server.userId_of c = Some userId ->
  apart c ss ->
  ss <> [] ->
  foldl (fun kv s => record s kv) kv ss !! Server.userFilesKey userId
  = Some (Server.Json (list_of (kv !! Server.userFilesKey userId)
                       ++ (userFile_of now <$> ss))).
Proof.
  induction ss as [|s ss IH]; intros kv userId Hb Huid Hapart Hne; [congruence|]. simpl.
  assert (Hs : s.2 <> Server.userFilesKey userId) by (apply Hapart; [exact Huid | left]).
  assert (Hrest : apart c ss) by (intros u s' Hu Hs'; apply Hapart; [exact Hu | right; exact Hs']).
  pose proof (recorded_list s kv userId Hb Huid Hs) as Hone.
  destruct ss as [|s2 ss'].
  - simpl. exact Hone.
  - rewrite (IH _ userId Hb Huid Hrest) by discriminate.
    rewrite Hone. simpl. rewrite <- app_assoc. reflexivity.
Qed.

End UploadFacts.

Section UploadAnswers.
Variable toLowerCase : string -> string.
Variable splitError reduceError parseError : string.
Variable fetch : nat -> nat -> Server.fetched.
Variable now : nat -> Z.
Variable c : Server.ctx.

Local Abbreviation storedN' := (stored_from toLowerCase reduceError fetch).
Local Abbreviation iter' :=
  (Server.iteration toLowerCase splitError reduceError parseError fetch now c).
Local Abbreviation loopc' :=
  (Server.loop toLowerCase splitError reduceError parseError fetch now c).
Local Abbreviation upload' :=
  (Server.upload toLowerCase splitError reduceError parseError fetch now c).

(** Whatever an iteration does, it only adds to the namespace. *)
Lemma iteration_keeps_keys i uploadFile kv k :
  is_Some (kv !! k) -> is_Some ((iter' i uploadFile kv).1.2 !! k).
Proof.
  intros Hk. unfold Server.iteration. destruct uploadFile as [s|f].
  - destruct (JS.truthy s); exact Hk.
  - destruct (Server.fileKey_of toLowerCase reduceError fetch i f) as [effs [[key|]|e]];
      simpl; try exact Hk.
    unfold Server.record_file.
    set (metadata := Server.mkMetadata _ _ _ _ _ _ _).
    assert (H1 : is_Some (<[key := Server.Marker metadata]> kv !! k)).
    { destruct (decide (key = k)) as [->|Hne].
      - rewrite lookup_insert_eq. eauto.
      - rewrite lookup_insert_ne by exact Hne. exact Hk. }
    assert (H2 : forall ukey v,
               is_Some (<[ukey := v]> (<[key := Server.Marker metadata]> kv) !! k)).
    { intros ukey v. destruct (decide (ukey = k)) as [->|Hne].
      - rewrite lookup_insert_eq. eauto.
      - rewrite lookup_insert_ne by exact Hne. exact H1. }
    destruct (Server.bound c); [|exact Hk].
    destruct (Server.userId_of c) as [uid|]; cbv zeta; [|exact H1].
    destruct (<[key := Server.Marker metadata]> kv !! Server.userFilesKey uid) as [[m|l]|];
      simpl; auto.
Qed.

Lemma iteration_unbound i uploadFile kv :
  Server.bound c = false -> (iter' i uploadFile kv).1.2 = kv.
Proof.
  intros Hb. unfold Server.iteration. destruct uploadFile as [s|f].
  - destruct (JS.truthy s); reflexivity.
  - destruct (Server.fileKey_of toLowerCase reduceError fetch i f) as [effs [[key|]|e]];
      simpl; try reflexivity.
    unfold Server.record_file. rewrite Hb. reflexivity.
Qed.

Lemma loop_keeps_keys entries : forall i kv acc k,
  is_Some (kv !! k) -> is_Some ((loopc' i entries kv acc).1.2 !! k).
Proof.
  induction entries as [|uploadFile rest IH]; intros i kv acc k Hk; simpl; [exact Hk|].
  pose proof (iteration_keeps_keys i uploadFile kv k Hk) as H1.
  destruct (iter' i uploadFile kv) as [[effs kv1] [pushed|e]]; simpl in H1; [|exact H1].
  specialize (IH (S i) kv1 (acc ++ option_list pushed) k H1).
  destruct (loopc' (S i) rest kv1 (acc ++ option_list pushed)) as [[effs' kv2] r]. exact IH.
Qed.

Lemma loop_unbound entries : forall i kv acc,
  Server.bound c = false -> (loopc' i entries kv acc).1.2 = kv.
Proof.
  induction entries as [|uploadFile rest IH]; intros i kv acc Hb; simpl; [reflexivity|].
  pose proof (iteration_unbound i uploadFile kv Hb) as H1.
  destruct (iter' i uploadFile kv) as [[effs kv1] [pushed|e]]; simpl in H1; [|exact H1].
  specialize (IH (S i) kv1 (acc ++ option_list pushed) Hb).
  destruct (loopc' (S i) rest kv1 (acc ++ option_list pushed)) as [[effs' kv2] r].
  simpl in *. congruence.
Qed.

(** The answer 200 of [upload], unfolded. *)
Lemma upload_200 kv body :
  (upload' kv).2 = Server.Json200 body ->
  Server.files c <> []
  /\ loopc' 0 (Server.files c) kv []
     = ((upload' kv).1.1, (upload' kv).1.2, Server.Normal body).
Proof.
  unfold Server.upload. destruct (Server.before c); [discriminate|].
  case_bool_decide as Hlen; [discriminate|].
  destruct (loopc' 0 (Server.files c) kv []) as [[effs kv'] [l|e]]; simpl; [|discriminate].
  intros [= ->]. split; [|reflexivity].
  intros Hnil. apply Hlen. rewrite Hnil. reflexivity.
Qed.

End UploadAnswers.

(** X13: what [upload] stores and answers.  The handler never removes a key
    of the namespace and writes nothing when the namespace is not bound,
    whatever its answer.  A request without entries under [file] is answered
    500 with '未上传文件' and no request to Telegram.  When the answer is 200, its
    body has one [{src: '/file/<key>'}] per entry Telegram stored, in the
    order of the entries (refused entries are skipped without a trace in the
    answer); with a bound namespace each of those keys then holds the empty
    value with metadata, and every key that is neither one of them nor the
    user's list is left as it was. *)
Theorem upload_answers_with_the_stored_files
        (toLowerCase : string -> string) (splitError reduceError parseError : string)
        (fetch : nat -> nat -> Server.fetched) (now : nat -> Z)
        (c : Server.ctx) (kv : Server.store) :
  let run := Server.upload toLowerCase splitError reduceError parseError fetch now c kv in
  let stored := stored_from toLowerCase reduceError fetch 0 (Server.files c) in
  (forall k, is_Some (kv !! k) -> is_Some (run.1.2 !! k))
  /\ (Server.bound c = false -> run.1.2 = kv)
  /\ (Server.before c = None -> Server.files c = [] ->
      run = ([], kv, Server.Json500 "未上传文件"))
  /\ (forall body, run.2 = Server.Json200 body ->
      Server.files c <> []
      /\ body = item_of <$> stored
      /\ (Server.bound c = true ->
          forall s, s ∈ stored -> exists m, run.1.2 !! s.2 = Some (Server.Marker m))
      /\ (forall k, (forall s, s ∈ stored -> k <> s.2) ->
                    (forall userId, Server.userId_of c = Some userId ->
                                    k <> Server.userFilesKey userId) ->
                    run.1.2 !! k = kv !! k)).
Proof.
  intros run stored. split; [|split; [|split]].
  - intros k Hk. subst run. unfold Server.upload.
    destruct (Server.before c); [exact Hk|]. case_bool_decide; [exact Hk|].
    pose proof (loop_keeps_keys toLowerCase splitError reduceError parseError fetch now c
                  (Server.files c) 0 kv [] k Hk) as Hloop.
    destruct (Server.loop _ _ _ _ _ _ _ _ _ _ _) as [[effs kv'] r]. exact Hloop.
  - intros Hb. subst run. unfold Server.upload.
    destruct (Server.before c); [reflexivity|]. case_bool_decide; [reflexivity|].
    pose proof (loop_unbound toLowerCase splitError reduceError parseError fetch now c
                  (Server.files c) 0 kv [] Hb) as Hloop.
    destruct (Server.loop _ _ _ _ _ _ _ _ _ _ _) as [[effs kv'] r]. exact Hloop.
  - intros Hbefore Hfiles. subst run. unfold Server.upload. rewrite Hbefore, Hfiles.
    reflexivity.
  - intros body Hbody.
    destruct (upload_200 _ _ _ _ _ _ _ _ _ Hbody) as [Hne Hloop].
    destruct (loop_normal _ _ _ _ _ _ _ _ _ _ _ _ _ _ Hloop) as (Hitems & Hkv & Hapart & _).
    fold run in Hkv. fold stored in Hitems, Hkv, Hapart.
    split; [exact Hne|]. split; [exact Hitems|]. split.
    + intros Hb s Hs. rewrite Hkv. apply foldl_recorded_marker; [exact Hb | |].
      * intros userId Huid. apply (Hapart Hb userId s Huid Hs).
      * left. eauto.
    + intros k Hk Huser. rewrite Hkv. apply foldl_recorded_other; assumption.
Qed.

Lemma upload_answers_with_the_stored_files_witness :
  (Server.upload ascii_lower "split" "reduce" "parse" first_only (fun _ => t0)
                 two_images empty_namespace).2
  = Server.Json200 [mkItem (Some "/file/BQACAgUAAx.png")].
Proof.
  destruct (proj2 (proj2 (proj2 (upload_answers_with_the_stored_files
              ascii_lower "split" "reduce" "parse" first_only (fun _ => t0) two_images empty_namespace)))
              [mkItem (Some "/file/BQACAgUAAx.png")] ltac:(vm_compute; reflexivity))
    as (_ & Hbody & _).
  vm_compute. reflexivity.
Defined.

(** X14: with a bound namespace and an authenticated user, an [upload]
    answered 200 appends to the user's file list exactly the entries
    Telegram stored, in order, with their key, name, size, time and URL;
    what the list held before is kept in front.  When no entry was stored
    the namespace is left untouched. *)
Theorem upload_appends_to_the_user_list
        (toLowerCase : string -> string) (splitError reduceError parseError : string)
        (fetch : nat -> nat -> Server.fetched) (now : nat -> Z)
        (c : Server.ctx) (kv : Server.store) (userId : string) (body : list item) :
  let run := Server.upload toLowerCase splitError reduceError parseError fetch now c kv in
  let stored := stored_from toLowerCase reduceError fetch 0 (Server.files c) in
  Server.bound c = true ->
  Server.userId_of c = Some userId ->
  run.2 = Server.Json200 body ->
  (stored = [] -> run.1.2 = kv)
  /\ (stored <> [] ->
      (forall m, kv !! Server.userFilesKey userId <> Some (Server.Marker m))
      /\ run.1.2 !! Server.userFilesKey userId
         = Some (Server.Json (list_of (kv !! Server.userFilesKey userId)
                              ++ (userFile_of now <$> stored)))
      /\ length (userFile_of now <$> stored) = length body).
Proof.
  intros run stored Hb Huid Hbody.
  destruct (upload_200 _ _ _ _ _ _ _ _ _ Hbody) as [Hne Hloop].
  destruct (loop_normal _ _ _ _ _ _ _ _ _ _ _ _ _ _ Hloop) as (Hitems & Hkv & Hapart & Hfirst).
  fold run in Hkv. fold stored in Hitems, Hkv, Hapart, Hfirst.
  split.
  - intros Hnil. rewrite Hkv, Hnil. reflexivity.
  - intros Hstored. split; [|split].
    + intros m. apply (Hfirst Hb Hstored userId m Huid).
    + rewrite Hkv. apply foldl_recorded_list; auto.
    + rewrite Hitems. simpl. rewrite !length_fmap. reflexivity.
Qed.

Lemma upload_appends_to_the_user_list_witness :
  (Server.upload ascii_lower "split" "reduce" "parse" first_only (fun _ => t0)
                 two_images empty_namespace).1.2 !! Server.userFilesKey "u1"
  = Some (Server.Json [Server.mkUserFile "BQACAgUAAx.png" "Cat.PNG" 2048 t0
                                         "/file/BQACAgUAAx.png"]).
Proof.
  destruct (upload_appends_to_the_user_list
              ascii_lower "split" "reduce" "parse" first_only (fun _ => t0) two_images empty_namespace
              "u1" [mkItem (Some "/file/BQACAgUAAx.png")]
              eq_refl eq_refl ltac:(vm_compute; reflexivity)) as [_ Hlist].
  destruct Hlist as (_ & Hlist & _); [vm_compute; discriminate|].
  rewrite Hlist. vm_compute. reflexivity.
Defined.

(** ** The client and the endpoint together *)

Lemma refuses_fails (fetch : nat -> Server.fetched) (apiEndpoint : string) :
  refuses fetch ->
  exists error, (Server.sendToTelegram fetch apiEndpoint 0).2 = Server.Failure error
  /\ 1 <= fetches (Server.sendToTelegram fetch apiEndpoint 0).1 <= 3.
Proof.
  intros Hrefuses. unfold Server.sendToTelegram, Server.MAX_RETRIES. simpl.
  pose proof (Hrefuses 0) as H0. pose proof (Hrefuses 1) as H1. pose proof (Hrefuses 2) as H2.
  destruct (fetch 0) as [e0|[|] d0]; [|contradiction|];
    [destruct (fetch 1) as [e1|[|] d1]; [|contradiction|];
       [destruct (fetch 2) as [e2|[|] d2]; [|contradiction|]|]|];
    simpl; eexists; (split; [reflexivity | vm_compute; lia]).
Qed.

(** X15: when Telegram takes none of the attempts of a file (every request
    of the endpoint is dropped or refused), the endpoint still answers each
    attempt of the client with status 200 and an empty array, after at most
    three requests to Telegram and without writing to the namespace; the
    client therefore uses up all its retries and reports
    '上传失败：服务器返回数据格式错误', not Telegram's reason. *)
Theorem refused_file_is_reported_as_format_error
        (toLowerCase : string -> string) (splitError reduceError parseError : string)
        (fetch : nat -> nat -> nat -> Server.fetched) (now : nat -> nat -> Z)
        (request : nat -> Server.ctx) (namespace : nat -> Server.store)
        (progress : nat -> list float) (toISOString : string)
        (file : File.t) (retries : nat) :
  let answer := fun attempt =>
    Server.upload toLowerCase splitError reduceError parseError
                  (fetch attempt) (now attempt) (request attempt) (namespace attempt) in
  1 <= retries ->
  (File.size file <= Single.maxSize)%Z ->
  (forall attempt, attempt < retries ->
     Server.before (request attempt) = None
     /\ Server.files (request attempt) = [Server.Blob file]
     /\ refuses (fetch attempt 0)) ->
  (forall attempt, attempt < retries ->
     (answer attempt).2 = Server.Json200 []
     /\ (answer attempt).1.2 = namespace attempt
     /\ 1 <= fetches (answer attempt).1.1 <= 3)
  /\ (Single.uploadSingleFile
        (fun attempt => (progress attempt, settled_of (answer attempt).2))
        toISOString file retries).2
     = JS.Fulfilled (object (Single.failure file "上传失败：服务器返回数据格式错误")).
Proof.
  intros answer Hretries Hsize Hrefused.
  assert (Hanswer : forall attempt, attempt < retries ->
            (answer attempt).2 = Server.Json200 []
            /\ (answer attempt).1.2 = namespace attempt
            /\ 1 <= fetches (answer attempt).1.1 <= 3).
  { intros attempt Hlt. destruct (Hrefused attempt Hlt) as (Hbefore & Hfiles & Hfetch).
    subst answer. unfold Server.upload. rewrite Hbefore, Hfiles. simpl.
    unfold Server.fileKey_of.
    destruct (refuses_fails (fetch attempt 0) (Server.apiEndpoint_of (File.type file)) Hfetch)
      as (error & Hfail & Hcount).
    destruct (Server.sendToTelegram (fetch attempt 0) _ 0) as [effs r].
    simpl in Hfail, Hcount. subst r. simpl. rewrite app_nil_r. auto. }
  split; [exact Hanswer|].
  set (upload := fun attempt => (progress attempt, settled_of (answer attempt).2)).
  assert (Hfails : forall attempt, attempt < retries ->
            Single.try_block upload toISOString file attempt
            = inr (JS.new_Error "上传失败：服务器返回数据格式错误")).
  { intros attempt Hlt. unfold Single.try_block, upload. simpl.
    destruct (Hanswer attempt Hlt) as (-> & _). reflexivity. }
  unfold Single.uploadSingleFile.
  destruct (Z.gtb_spec (File.size file) Single.maxSize) as [Hgt|_]; [lia|].
  destruct retries as [|remaining]; [lia|].
  rewrite (retry_loop_all_fail upload toISOString file (S remaining)
             (JS.new_Error "上传失败：服务器返回数据格式错误")).
  - reflexivity.
  - apply Hfails. lia.
  - lia.
  - intros j _ Hj. eexists. apply Hfails. lia.
Qed.

Lemma refused_file_is_reported_as_format_error_witness :
  (Single.uploadSingleFile
     (fun attempt =>
        ([], settled_of (Server.upload ascii_lower "split" "reduce" "parse" too_big
                                       (fun _ => t0)
                                       (Server.mkCtx None true None [Server.Blob photo])
                                       empty_namespace).2))
     stamp photo 3).2
  = JS.Fulfilled (object (Single.failure photo "上传失败：服务器返回数据格式错误")).
Proof.
  apply (refused_file_is_reported_as_format_error
           ascii_lower "split" "reduce" "parse" (fun _ => too_big) (fun _ _ => t0)
           (fun _ => Server.mkCtx None true None [Server.Blob photo])
           (fun _ => empty_namespace) (fun _ => []) stamp photo 3).
  - lia.
  - vm_compute. discriminate.
  - intros attempt _. split; [reflexivity|]. split; [reflexivity|].
    intros retryCount. exact I.
Defined.

(** ** The image store: sorting, selection, deleteImage *)

Section SortFacts.
Variable cmp : Gallery.Picture -> Gallery.Picture -> Z.

Lemma insert_sorted_perm x l : Gallery.insert_sorted cmp x l ≡ₚ x :: l.
Proof.
  induction l as [|y l IH]; simpl; [reflexivity|].
  destruct (cmp x y <=? 0)%Z; [reflexivity|].
  rewrite IH. apply Permutation_swap.
Qed.

Lemma sort_perm l : Gallery.sort cmp l ≡ₚ l.
Proof.
  unfold Gallery.sort. induction l as [|x l IH]; simpl; [reflexivity|].
  rewrite insert_sorted_perm, IH. reflexivity.
Qed.

Lemma insert_sorted_ordered x l :
  consistent cmp -> ordered_by cmp l -> ordered_by cmp (Gallery.insert_sorted cmp x l).
Proof.
  intros Hcmp. induction l as [|y l IH]; intros Hl; simpl.
  - auto.
  - destruct (Z.leb_spec (cmp x y) 0) as [Hle|Hgt].
    + split; [exact Hle | exact Hl].
    + destruct Hl as [Hy Hl]. specialize (IH Hl). split; [|exact IH].
      destruct l as [|z l]; simpl.
      * apply Hcmp, Hgt.
      * destruct (cmp x z <=? 0)%Z; [apply Hcmp, Hgt | exact Hy].
Qed.

Lemma sort_ordered l : consistent cmp -> ordered_by cmp (Gallery.sort cmp l).
Proof.
  intros Hcmp. unfold Gallery.sort. induction l as [|x l IH]; simpl; [exact I|].
  apply insert_sorted_ordered; assumption.
Qed.

(** Sorting a list that is in order leaves it as it is. *)
Lemma sort_of_ordered l : ordered_by cmp l -> Gallery.sort cmp l = l.
Proof.
  unfold Gallery.sort. induction l as [|x l IH]; intros Hl; simpl; [reflexivity|].
  destruct Hl as [Hx Hl]. rewrite (IH Hl).
  destruct l as [|y l]; simpl; [reflexivity|].
  destruct (Z.leb_spec (cmp x y) 0) as [_|Hgt]; [reflexivity | lia].
Qed.

End SortFacts.

Lemma comparator_consistent (localeCompare : string -> string -> Z) (sortBy : string)
      (cmp : Gallery.Picture -> Gallery.Picture -> Z) :
  (forall a b, (0 < localeCompare a b)%Z -> (localeCompare b a <= 0)%Z) ->
  Gallery.comparator localeCompare sortBy = Some cmp ->
  consistent cmp.
Proof.
  intros Hlocale. unfold Gallery.comparator.
  repeat (destruct (String.eqb sortBy _); [intros [= <-]; intros a b; simpl; try lia|]);
    [|discriminate].
  apply Hlocale.
Qed.

(** X16: [setSortBy] stores the new key but sorts with the key the store
    held before the call ([get()] inside the updater returns the state the
    updater was called with).  The list comes out as a permutation of what
    it was, in the order of the previous key; a list that was in that order
    (as [sortImages] leaves the list it is given) is not reordered at all.
    When the previous key is none of the five known ones the list is left
    as it is. *)
Theorem setSortBy_sorts_by_the_previous_key
        (localeCompare : string -> string -> Z) (sortBy : string) (st : Gallery.state) :
  (forall a b, (0 < localeCompare a b)%Z -> (localeCompare b a <= 0)%Z) ->
  Gallery.sortBy (Gallery.filters (Gallery.setSortBy localeCompare sortBy st)) = sortBy
  /\ Gallery.images (Gallery.setSortBy localeCompare sortBy st) ≡ₚ Gallery.images st
  /\ (forall previous,
        Gallery.comparator localeCompare (Gallery.sortBy (Gallery.filters st)) = Some previous ->
        ordered_by previous (Gallery.images (Gallery.setSortBy localeCompare sortBy st))
        /\ (ordered_by previous (Gallery.images st) ->
            Gallery.images (Gallery.setSortBy localeCompare sortBy st) = Gallery.images st))
  /\ (Gallery.comparator localeCompare (Gallery.sortBy (Gallery.filters st)) = None ->
      Gallery.images (Gallery.setSortBy localeCompare sortBy st) = Gallery.images st)
  /\ (forall given,
        Gallery.images st = Gallery.sortImages localeCompare st given ->
        Gallery.images (Gallery.setSortBy localeCompare sortBy st) = Gallery.images st).
Proof.
  intros Hlocale. unfold Gallery.setSortBy. simpl. unfold Gallery.sortImages.
  split; [reflexivity|].
  destruct (Gallery.comparator localeCompare (Gallery.sortBy (Gallery.filters st)))
    as [cmp|] eqn:Hcmp.
  - pose proof (comparator_consistent _ _ _ Hlocale Hcmp) as Hconsistent.
    split; [apply sort_perm|]. split; [|split].
    + intros previous [= <-]. split; [apply sort_ordered, Hconsistent|].
      apply sort_of_ordered.
    + discriminate.
    + intros given Hgiven. apply sort_of_ordered. rewrite Hgiven.
      apply sort_ordered, Hconsistent.
  - split; [reflexivity|]. split; [discriminate|]. split; [reflexivity|].
    intros given _. reflexivity.
Qed.

Lemma setSortBy_sorts_by_the_previous_key_witness :
  Gallery.images
    (Gallery.setSortBy code_unit_compare "largest"
       (Gallery.mkState album (Gallery.mkFilters "" "" "newest" "grid")))
  = album.
Proof.
  destruct (setSortBy_sorts_by_the_previous_key code_unit_compare "largest"
              (Gallery.mkState album (Gallery.mkFilters "" "" "newest" "grid")))
    as (_ & _ & Hprevious & _).
  - intros a b. unfold code_unit_compare.
    rewrite (String.compare_antisym b a). destruct (String.compare a b); simpl; lia.
  - destruct (Hprevious _ eq_refl) as [_ Hsame]. apply Hsame.
    simpl. repeat split; lia.
Defined.

(** X17: the selection of the image store.  [toggleImageSelection] flips
    the membership of one id and nothing else, so doing it twice restores
    the selection.  [toggleSelectAll] ends with nothing or with every listed
    id selected; it decides by comparing the size of the selection with the
    length of the list, which is the right test exactly when the ids of the
    list are distinct and the selection holds listed ids only: then it
    clears a full selection, completes any other, and a second call undoes a
    select-all. *)
Theorem selection_toggles (st : ImageStore.state) :
  (forall imageId,
      ImageActions.toggleImageSelection imageId
        (ImageActions.toggleImageSelection imageId st) = st
      /\ (imageId ∈ ImageStore.selectedImages (ImageActions.toggleImageSelection imageId st)
          <-> imageId ∉ ImageStore.selectedImages st)
      /\ forall other, other <> imageId ->
           (other ∈ ImageStore.selectedImages (ImageActions.toggleImageSelection imageId st)
            <-> other ∈ ImageStore.selectedImages st))
  /\ (ImageStore.selectedImages (ImageActions.toggleSelectAll st) = ∅
      \/ ImageStore.selectedImages (ImageActions.toggleSelectAll st) = listed st)
  /\ (NoDup (id <$> ImageStore.images st) ->
      ImageStore.selectedImages st ⊆ listed st ->
      (ImageStore.selectedImages st = listed st ->
       ImageStore.selectedImages (ImageActions.toggleSelectAll st) = ∅)
      /\ (ImageStore.selectedImages st <> listed st ->
          ImageStore.selectedImages (ImageActions.toggleSelectAll st) = listed st
          /\ ImageStore.selectedImages
               (ImageActions.toggleSelectAll (ImageActions.toggleSelectAll st)) = ∅)).
Proof.
  split; [|split].
  - intros imageId. unfold ImageActions.toggleImageSelection. simpl.
    split; [|split].
    + destruct st as [images selected mode loading error]. simpl. f_equal.
      destruct (decide (imageId ∈ selected)) as [Hin|Hin].
      * rewrite (bool_decide_eq_true_2 _ Hin).
        rewrite bool_decide_eq_false_2
          by (rewrite elem_of_difference, elem_of_singleton; tauto).
        apply set_eq. intros x. rewrite elem_of_union, elem_of_difference, elem_of_singleton.
        destruct (decide (x = imageId)) as [->|Hne]; tauto.
      * rewrite (bool_decide_eq_false_2 _ Hin).
        rewrite bool_decide_eq_true_2
          by (rewrite elem_of_union, elem_of_singleton; tauto).
        apply set_eq. intros x. rewrite elem_of_difference, elem_of_union, elem_of_singleton.
        destruct (decide (x = imageId)) as [->|Hne]; tauto.
    + case_bool_decide as Hin.
      * rewrite elem_of_difference, elem_of_singleton. tauto.
      * rewrite elem_of_union, elem_of_singleton. tauto.
    + intros other Hne. case_bool_decide as Hin.
      * rewrite elem_of_difference, elem_of_singleton. tauto.
      * rewrite elem_of_union, elem_of_singleton. tauto.
  - unfold ImageActions.toggleSelectAll. simpl. case_bool_decide; auto.
  - intros Hnodup Hsub.
    assert (Hsize : size (listed st) = length (ImageStore.images st)).
    { unfold listed. rewrite size_list_to_set by exact Hnodup. apply length_fmap. }
    assert (Hfull : size (ImageStore.selectedImages st) = length (ImageStore.images st)
                    <-> ImageStore.selectedImages st = listed st).
    { split.
      - intros Heq.
        pose proof (set_subseteq_size_eq _ _ Hsub ltac:(lia)) as Hequiv.
        exact Hequiv.
      - intros ->. exact Hsize. }
    unfold ImageActions.toggleSelectAll. simpl. split.
    + intros Hall. rewrite bool_decide_eq_true_2 by (apply Hfull, Hall). reflexivity.
    + intros Hnot. rewrite bool_decide_eq_false_2 by (intros H; apply Hnot, Hfull, H).
      split; [reflexivity|].
      fold (listed st). rewrite bool_decide_eq_true_2 by exact Hsize. reflexivity.
Qed.

Lemma selection_toggles_witness :
  ImageStore.selectedImages (ImageActions.toggleSelectAll gallery) = listed gallery.
Proof.
  destruct (selection_toggles gallery) as (_ & _ & Hexact).
  destruct Hexact as [_ Hother].
  - apply (bool_decide_unpack _). vm_compute. exact I.
  - apply (bool_decide_unpack _). vm_compute. exact I.
  - apply Hother. apply (bool_decide_unpack _). vm_compute. exact I.
Defined.

(** X18: [deleteImage].  When the request succeeds the images with that id
    leave the list and the others stay in order; when it fails the list is
    left as it is and the error is
    [error.response?.data?.error || '删除图片失败'].  Either way loading ends,
    and the selection and the selection mode are not touched: an image
    deleted this way stays selected if it was. *)
Theorem deleteImage_removes_on_success_only {R : Type} (imageId : string)
        (awaited : JS.settled R) (st : ImageStore.state) :
  let after := (ImageActions.deleteImage imageId awaited st).1 in
  let result := (ImageActions.deleteImage imageId awaited st).2 in
  ImageStore.selectedImages after = ImageStore.selectedImages st
  /\ ImageStore.isSelectionMode after = ImageStore.isSelectionMode st
  /\ ImageStore.isLoading after = false
  /\ (forall r, awaited = JS.Fulfilled r ->
        action_success result = true
        /\ ImageStore.error after = None
        /\ ImageStore.images after
           = filter (fun img => id img ≠ imageId) (ImageStore.images st)
        /\ (forall img, img ∈ ImageStore.images after
                        <-> img ∈ ImageStore.images st /\ id img <> imageId))
  /\ (forall e, awaited = JS.Rejected e ->
        action_success result = false
        /\ ImageStore.images after = ImageStore.images st
        /\ ImageStore.error after = action_error result
        /\ action_error result
           = Some (JS.opt_or_else (JS.response_data_error e) "删除图片失败")).
Proof.
  unfold ImageActions.deleteImage, ImageActions.deleteImage_resume,
    ImageActions.deleteImage_begin.
  destruct awaited as [r|e]; simpl.
  - repeat (split; [reflexivity|]). split.
    + intros r' _. repeat (split; [reflexivity|]).
      intros img. rewrite list_elem_of_filter. tauto.
    + intros e H. discriminate H.
  - repeat (split; [reflexivity|]). split.
    + intros r H. discriminate H.
    + intros e' [= <-]. auto.
Qed.

Lemma deleteImage_removes_on_success_only_witness :
  ImageStore.images (ImageActions.deleteImage "b" (JS.Fulfilled 204) gallery).1
  = [mkImage "a" "a.png"; mkImage "c" "c.png"]
  /\ "b" ∈ ImageStore.selectedImages (ImageActions.deleteImage "b" (JS.Fulfilled 204) gallery).1.
Proof.
  destruct (deleteImage_removes_on_success_only "b" (JS.Fulfilled 204) gallery)
    as (Hselected & _ & _ & Hok & _).
  destruct (Hok 204 eq_refl) as (_ & _ & Himages & _).
  split.
  - rewrite Himages. vm_compute. reflexivity.
  - rewrite Hselected. apply (bool_decide_unpack _). vm_compute. exact I.
Defined.

(** ** The favorite store *)

Section FavoriteFacts.
Context {R : Type}.

Lemma listed_filter (keep : Image -> Prop) `{!forall img, Decision (keep img)}
      (favorites : gset string) (images : list Image) loading error :
  (forall img, img ∈ images -> keep img -> id img ∈ favorites) ->
  listed_are_favorites (FavoriteStore.mkState favorites (filter keep images) loading error).
Proof.
  intros Hmarked img Himg. simpl in *.
  apply list_elem_of_filter in Himg as [Hkeep Hin]. auto.
Qed.

Lemma perform_keeps_listed (a : FavoriteActions.action R) (st : FavoriteStore.state) :
  listed_are_favorites st -> listed_are_favorites (FavoriteActions.perform a st).
Proof.
  intros Hst.
  assert (Hadd : forall imageId awaited,
            listed_are_favorites (FavoriteStore.addFavorite (R := R) imageId awaited st).1).
  { intros imageId [r|e]; intros img Himg; simpl in *.
    - apply elem_of_union. left. apply Hst, Himg.
    - apply Hst, Himg. }
  assert (Hremove : forall imageId awaited,
            listed_are_favorites (FavoriteStore.removeFavorite (R := R) imageId awaited st).1).
  { intros imageId [r|e]; simpl.
    - apply listed_filter. intros img Himg Hne.
      apply elem_of_difference. split; [apply Hst, Himg|].
      rewrite elem_of_singleton. exact Hne.
    - exact Hst. }
  destruct a as [awaited | imageId awaited | imageId awaited | imageId awaited
                 | imageIds awaited | imageIds awaited | | ]; simpl.
  - unfold FavoriteActions.initFavorites, FavoriteActions.initFavorites_resume.
    destruct awaited as [[images|]|e]; simpl; try exact Hst.
    intros img Himg. simpl in *. apply elem_of_list_to_set, list_elem_of_fmap. eauto.
  - apply Hadd.
  - apply Hremove.
  - unfold FavoriteStore.toggleFavorite. case_bool_decide; [apply Hremove | apply Hadd].
  - destruct awaited as [r|e]; intros img Himg; simpl in *.
    + apply elem_of_union. left. apply Hst, Himg.
    + apply Hst, Himg.
  - destruct awaited as [r|e]; simpl.
    + rewrite remove_each_is_difference. apply listed_filter. intros img Himg Hnot.
      apply elem_of_difference. split; [apply Hst, Himg|].
      rewrite elem_of_list_to_set. exact Hnot.
    + exact Hst.
  - exact Hst.
  - intros img Himg. inversion Himg.
Qed.

End FavoriteFacts.

(** X19: as long as each call runs to its end before the next one starts,
    every image on the favorites page is marked as a favorite: the store
    starts that way and every action keeps it so, whether its request
    succeeds or fails.  A successful [initFavorites] makes the marks exactly
    the ids of the page.  (The converse is not kept: [addFavorite] marks an
    id without adding an image to the page.) *)
Theorem favorites_page_is_always_marked {R : Type} (calls : list (FavoriteActions.action R))
        (st : FavoriteStore.state) :
  listed_are_favorites st ->
  listed_are_favorites (foldl (fun st a => FavoriteActions.perform a st) st calls)
  /\ (forall images,
        let after := FavoriteActions.perform
                       (FavoriteActions.InitFavorites (R := R) (JS.Fulfilled (Some images)))
                       (foldl (fun st a => FavoriteActions.perform a st) st calls) in
        FavoriteStore.favorites after = list_to_set (id <$> images)
        /\ FavoriteStore.favoriteImages after = images
        /\ FavoriteStore.isLoading after = false
        /\ FavoriteStore.error after = None).
Proof.
  intros Hst. split.
  - revert st Hst. induction calls as [|a calls IH]; intros st Hst; simpl; [exact Hst|].
    apply IH, perform_keeps_listed, Hst.
  - intros images. simpl. auto.
Qed.

Lemma favorites_page_is_always_marked_witness :
  listed_are_favorites
    (foldl (fun st a => FavoriteActions.perform a st) two_favorites
           [FavoriteActions.RemoveFavorite "a" (JS.Fulfilled 200);
            FavoriteActions.AddFavorite "c" (JS.Rejected server_down);
            FavoriteActions.ToggleFavorite "b" (JS.Fulfilled 200)]).
Proof.
  apply (favorites_page_is_always_marked (R := nat)).
  intros img Himg. unfold two_favorites in *. simpl in *.
  apply elem_of_cons in Himg as [->|Himg]; [apply (bool_decide_unpack _); vm_compute; exact I|].
  apply elem_of_cons in Himg as [->|Himg]; [apply (bool_decide_unpack _); vm_compute; exact I|].
  inversion Himg.
Defined.

(** X20: two overlapping [addFavorite] calls.  When the first call's
    request fails after the second call has started, the rollback of the
    first puts back the set it saw at its own start: the id of the second
    call leaves the set, although that call succeeds or is still waiting.
    In the other order (the second call fails, the first succeeds) the
    rollback keeps the first call's id. *)
Theorem overlapping_addFavorite_loses_the_later_id {R : Type} (a b : string)
        (st : FavoriteStore.state) (error : JS.Error) (r : R) :
  b ∉ FavoriteStore.favorites st ->
  let first := FavoriteStore.addFavorite_begin a st in
  let second := FavoriteStore.addFavorite_begin b first.2 in
  (* the second call succeeds, then the first fails *)
  (let confirmed := FavoriteStore.addFavorite_resume second.1 (JS.Fulfilled r) second.2 in
   let rolled := FavoriteStore.addFavorite_resume (R := R) first.1 (JS.Rejected error)
                                                  confirmed.1 in
   action_success confirmed.2 = true
   /\ b ∈ FavoriteStore.favorites confirmed.1
   /\ FavoriteStore.favorites rolled.1 = FavoriteStore.favorites st
   /\ b ∉ FavoriteStore.favorites rolled.1)
  (* the first call fails while the second is still waiting, then the second succeeds *)
  /\ (let rolled := FavoriteStore.addFavorite_resume (R := R) first.1 (JS.Rejected error)
                                                     second.2 in
      let confirmed := FavoriteStore.addFavorite_resume second.1 (JS.Fulfilled r) rolled.1 in
      action_success confirmed.2 = true
      /\ b ∉ FavoriteStore.favorites confirmed.1)
  (* the first call succeeds, then the second fails *)
  /\ (let confirmed := FavoriteStore.addFavorite_resume first.1 (JS.Fulfilled r) second.2 in
      let rolled := FavoriteStore.addFavorite_resume (R := R) second.1 (JS.Rejected error)
                                                     confirmed.1 in
      FavoriteStore.favorites rolled.1 = FavoriteStore.favorites st ∪ {[a]}
      /\ a ∈ FavoriteStore.favorites rolled.1).
Proof.
  intros Hb. simpl. split; [|split].
  - split; [reflexivity|]. split; [|split; [reflexivity | exact Hb]].
    rewrite !elem_of_union, !elem_of_singleton. auto.
  - split; [reflexivity | exact Hb].
  - split; [reflexivity|]. rewrite elem_of_union, elem_of_singleton. auto.
Qed.

Lemma overlapping_addFavorite_loses_the_later_id_witness :
  "d" ∉ FavoriteStore.favorites
          (FavoriteStore.addFavorite_resume (R := nat)
             (FavoriteStore.addFavorite_begin "c" two_favorites).1 (JS.Rejected server_down)
             (FavoriteStore.addFavorite_resume
                (FavoriteStore.addFavorite_begin "d"
                   (FavoriteStore.addFavorite_begin "c" two_favorites).2).1
                (JS.Fulfilled 200)
                (FavoriteStore.addFavorite_begin "d"
                   (FavoriteStore.addFavorite_begin "c" two_favorites).2).2).1).1.
Proof.
  destruct (overlapping_addFavorite_loses_the_later_id (R := nat) "c" "d" two_favorites
              server_down 200) as [(_ & _ & _ & Hlost) _].
  - apply (bool_decide_unpack _). vm_compute. exact I.
  - exact Hlost.
Defined.

(** X21: [toggleFavorite] twice on the same id, both requests succeeding,
    restores the set of favorites, but not the favorites page: the images
    with that id have left the page and are not put back. *)
Theorem toggleFavorite_twice {R : Type} (imageId : string) (st : FavoriteStore.state)
        (r1 r2 : R) :
  let once := FavoriteStore.toggleFavorite imageId (JS.Fulfilled r1) st in
  let twice := FavoriteStore.toggleFavorite imageId (JS.Fulfilled r2) once.1 in
  (imageId ∈ FavoriteStore.favorites once.1 <-> imageId ∉ FavoriteStore.favorites st)
  /\ FavoriteStore.favorites twice.1 = FavoriteStore.favorites st
  /\ FavoriteStore.favoriteImages twice.1
     = filter (fun img => id img ≠ imageId) (FavoriteStore.favoriteImages st)
  /\ action_success once.2 = true
  /\ action_success twice.2 = true.
Proof.
  unfold FavoriteStore.toggleFavorite.
  destruct (decide (imageId ∈ FavoriteStore.favorites st)) as [Hin|Hin].
  - rewrite (bool_decide_eq_true_2 _ Hin). simpl.
    rewrite bool_decide_eq_false_2
      by (rewrite elem_of_difference, elem_of_singleton; tauto).
    simpl. split; [|split; [|auto]].
    + rewrite elem_of_difference, elem_of_singleton. tauto.
    + apply set_eq. intros x. rewrite elem_of_union, elem_of_difference, elem_of_singleton.
      destruct (decide (x = imageId)) as [->|Hne]; tauto.
  - rewrite (bool_decide_eq_false_2 _ Hin). simpl.
    rewrite bool_decide_eq_true_2
      by (rewrite elem_of_union, elem_of_singleton; tauto).
    simpl. split; [|split; [|auto]].
    + rewrite elem_of_union, elem_of_singleton. tauto.
    + apply set_eq. intros x. rewrite elem_of_difference, elem_of_union, elem_of_singleton.
      destruct (decide (x = imageId)) as [->|Hne]; tauto.
Qed.

(** ** uploadSingleFile: the first success ends the retries *)

Section FirstSuccess.
Variable upload : nat -> list float * JS.settled response_data.
Variable toISOString : string.
Variable file : File.t.

Lemma request_effects (attempt : nat) :
  Upload_of (Single.Upload attempt :: map Single.OnProgress (upload attempt).1) = [attempt]
  /\ SetTimeout_of (Single.Upload attempt :: map Single.OnProgress (upload attempt).1) = [].
Proof.
  unfold Upload_of, SetTimeout_of. simpl.
  induction (upload attempt).1 as [|p ps [IH1 IH2]]; simpl; [split; reflexivity|].
  split; [exact IH1 | exact IH2].
Qed.

Lemma retry_loop_first_success (retries k : nat) (r : Result.t) :
  k < retries ->
  (forall j, j < k -> exists error, Single.try_block upload toISOString file j = inr error) ->
  Single.try_block upload toISOString file k = inl r ->
  forall d attempt remaining,
    attempt + d = k -> attempt + remaining = retries ->
    (Single.retry_loop upload toISOString file retries remaining attempt).2
    = JS.Fulfilled (object r)
    /\ Upload_of (Single.retry_loop upload toISOString file retries remaining attempt).1
       = seq attempt (S d)
    /\ SetTimeout_of (Single.retry_loop upload toISOString file retries remaining attempt).1
       = (fun j => (1000 * (Z.of_nat j + 1))%Z) <$> seq attempt d.
Proof.
  intros Hk Hfail Hok. induction d as [|d IH]; intros attempt remaining Hd Hrem.
  - assert (attempt = k) by lia. subst attempt.
    destruct remaining as [|remaining]; [lia|].
    destruct (request_effects k) as [Hu Ht].
    simpl. rewrite Hok. simpl. auto.
  - destruct remaining as [|remaining]; [lia|].
    destruct (Hfail attempt) as [error Herr]; [lia|].
    rewrite (retry_loop_again _ _ _ _ _ _ _ Herr) by lia.
    destruct (IH (S attempt) remaining) as (Hr & Hu & Ht); [lia | lia |].
    destruct (request_effects attempt) as [Hu0 Ht0].
    cbn [fst snd]. split; [exact Hr|].
    unfold Upload_of, SetTimeout_of in *.
    rewrite !omap_app, Hu0, Ht0. split.
    + change (seq attempt (S (S d))) with (attempt :: seq (S attempt) (S d)).
      rewrite <- Hu. reflexivity.
    + change ((fun j => (1000 * (Z.of_nat j + 1))%Z) <$> seq attempt (S d))
        with ((1000 * (Z.of_nat attempt + 1))%Z
                :: ((fun j => (1000 * (Z.of_nat j + 1))%Z) <$> seq (S attempt) d)).
      rewrite <- Ht. reflexivity.
Qed.

(** A result that reports success carries the record the endpoint sent,
    with a non-empty [src]. *)
Lemma retry_loop_showable (retries : nat) (r : Result.t) : forall remaining attempt,
  (Single.retry_loop upload toISOString file retries remaining attempt).2
  = JS.Fulfilled (object r) ->
  Result.success r = true -> Single.has_src (Result.data r) = true.
Proof.
  induction remaining as [|remaining IH]; intros attempt Hr; [discriminate Hr|].
  simpl in Hr.
  destruct (Single.retry_loop upload toISOString file retries remaining (S attempt))
    as [rest v] eqn:Hrest.
  specialize (IH (S attempt)). rewrite Hrest in IH. simpl in IH.
  destruct (Single.try_block upload toISOString file attempt) as [r0|error] eqn:Htry.
  - simpl in Hr. inversion Hr; subst r0. intros _.
    unfold Single.try_block in Htry.
    destruct (upload attempt).2 as [response|e]; [|discriminate Htry].
    match type of Htry with
    | (if Single.has_src ?x then _ else _) = _ => destruct (Single.has_src x) eqn:Hsrc
    end; [|discriminate Htry].
    inversion Htry. simpl. exact Hsrc.
  - case_bool_decide; simpl in Hr.
    + inversion Hr. simpl. discriminate.
    + apply IH, Hr.
Qed.

Lemma uploadSingleFile_showable (retries : nat) :
  1 <= retries ->
  exists v, (Single.uploadSingleFile upload toISOString file retries).2 = JS.Fulfilled v
            /\ showable v.
Proof.
  intros Hretries. unfold Single.uploadSingleFile.
  destruct (File.size file >? Single.maxSize)%Z.
  - eexists. split; [reflexivity|]. eexists. split; [reflexivity|]. discriminate.
  - destruct retries as [|remaining]; [lia|].
    destruct (retry_loop_object toISOString upload file (S remaining) remaining 0)
      as [r Hr]; [lia|].
    exists (object r). split; [exact Hr|]. exists r. split; [reflexivity|].
    eapply retry_loop_showable, Hr.
Qed.

End FirstSuccess.

(** X22: in [uploadSingleFile] the first attempt that succeeds ends the
    call.  If attempts 0 to k - 1 fail and attempt k (below [retries])
    succeeds on a file within the size limit, the call resolves with that
    attempt's success result after exactly k + 1 requests, numbered 0 to k,
    and exactly k back-off waits of 1000, 2000, ..., 1000 k milliseconds;
    the remaining attempts are never made. *)
Theorem first_success_ends_the_retries
        (upload : nat -> list float * JS.settled response_data) (toISOString : string)
        (file : File.t) (retries k : nat) (r : Result.t) :
  (File.size file <= Single.maxSize)%Z ->
  k < retries ->
  (forall j, j < k -> exists error, Single.try_block upload toISOString file j = inr error) ->
  Single.try_block upload toISOString file k = inl r ->
  (Single.uploadSingleFile upload toISOString file retries).2 = JS.Fulfilled (object r)
  /\ Result.success r = true
  /\ Upload_of (Single.uploadSingleFile upload toISOString file retries).1 = seq 0 (S k)
  /\ SetTimeout_of (Single.uploadSingleFile upload toISOString file retries).1
     = (fun j => (1000 * (Z.of_nat j + 1))%Z) <$> seq 0 k.
Proof.
  intros Hsize Hk Hfail Hok. unfold Single.uploadSingleFile.
  destruct (Z.gtb_spec (File.size file) Single.maxSize) as [Hgt|_]; [lia|].
  destruct (retry_loop_first_success upload toISOString file retries k r Hk Hfail Hok
              k 0 retries) as (Hr & Hu & Ht); [lia | lia |].
  split; [exact Hr|]. split; [|split; assumption].
  unfold Single.try_block in Hok.
  destruct (upload k).2 as [response|e]; [|discriminate Hok].
  destruct (Single.has_src _); [|discriminate Hok].
  inversion Hok. reflexivity.
Qed.

Lemma first_success_ends_the_retries_witness :
  Upload_of (Single.uploadSingleFile flaky stamp photo 5).1 = [0; 1; 2]
  /\ SetTimeout_of (Single.uploadSingleFile flaky stamp photo 5).1 = [1000; 2000]%Z.
Proof.
  destruct (Single.try_block flaky stamp photo 2) as [r|e] eqn:Hok;
    [|vm_compute in Hok; discriminate Hok].
  destruct (first_success_ends_the_retries flaky stamp photo 5 2 r) as (_ & _ & Hu & Ht).
  - vm_compute. discriminate.
  - lia.
  - intros j Hj. destruct j as [|[|j]]; [| |lia]; eexists; vm_compute; reflexivity.
  - exact Hok.
  - split; [exact Hu | exact Ht].
Defined.

(** ** The home page after an upload *)

Lemma map_successes_showable {B : Type} (f : Result.t -> option B) (good : B -> Prop)
      (results : list value) :
  (forall r, Result.success r = true -> Single.has_src (Result.data r) = true ->
             exists b, f r = Some b /\ good b) ->
  Forall showable results ->
  exists bs,
    HomePage.map_successes f results = Some bs
    /\ length bs = succeeded results
    /\ Forall good bs.
Proof.
  intros Hf. unfold HomePage.map_successes, succeeded.
  induction 1 as [|v results (r & -> & Hsrc) _ (bs & Hbs & Hlen & Hgood)]; simpl.
  - exists []. split; [reflexivity|]. split; [reflexivity | constructor].
  - destruct (Service.filter_results (fun b => b) results) as [kept|]; [|discriminate Hbs].
    destruct (Result.success r) eqn:Hsuccess.
    + destruct (Hf r Hsuccess (Hsrc eq_refl)) as (b & Hb & Hgoodb).
      simpl. rewrite Hb, Hbs. exists (b :: bs).
      rewrite filter_cons_True by (simpl; rewrite Hsuccess; reflexivity).
      split; [reflexivity|]. split; [simpl; lia | constructor; assumption].
    + exists bs. rewrite filter_cons_False by (simpl; rewrite Hsuccess; discriminate).
      auto.
Qed.

Lemma url_of_showable (origin : string) (r : Result.t) :
  Single.has_src (Result.data r) = true ->
  exists s, Result.data r = Some (mkItem (Some s)) /\ s <> ""
            /\ HomePage.url_of origin r = Some (origin +:+ s)
            /\ HomePage.markdown_of origin r
               = Some ("![" +:+ default "undefined" (Result.filename r) +:+ "](" +:+ origin
                       +:+ s +:+ ")").
Proof.
  unfold Single.has_src, HomePage.url_of, HomePage.markdown_of.
  destruct (Result.data r) as [[[s|]]|]; try discriminate.
  intros Htruthy. exists s. split; [reflexivity|]. split; [|split; reflexivity].
  intros ->. discriminate Htruthy.
Qed.

(** X23: what the page shows and copies after [handleUpload] has uploaded
    at least one file.  Every result is an object, and each one that reports
    success carries a non-empty [src]: so rendering the two counts and
    copying the links or the Markdown list never reads a property of
    [undefined]; the success count rendered is the one announced in the
    toast, the two counts add up to the number of files kept, and there is
    one link, [origin] followed by a non-empty path, per successful
    result. *)
Theorem page_can_show_and_copy_its_results
        (upload : nat -> nat -> list float * JS.settled response_data)
        (toISOString typeError origin : string) (files : list File.t)
        (evs : list Batch.event) (st st' : Home.page) :
  filter page_accepts files <> [] ->
  Home.handleUpload upload toISOString typeError files evs st = Some st' ->
  Forall showable (Home.uploadResults st')
  /\ HomePage.successCount (Home.uploadResults st')
     = Some (succeeded (Home.uploadResults st'))
  /\ HomePage.failedCount (Home.uploadResults st')
     = Some (length (filter page_accepts files) - succeeded (Home.uploadResults st'))
  /\ (exists urls,
        HomePage.copyAllUrls origin (Home.uploadResults st')
        = Some (Home.join HomePage.newline urls)
        /\ length urls = succeeded (Home.uploadResults st')
        /\ Forall (fun u => exists s, u = origin +:+ s /\ s <> "") urls)
  /\ is_Some (HomePage.copyMarkdownList origin (Home.uploadResults st')).
Proof.
  intros Hsome Hpage.
  destruct (validate_loop_filter files) as [Hvalid _].
  unfold Home.handleUpload in Hpage.
  destruct (Home.validate_loop files) as [validFiles errors]. simpl in Hvalid. subst validFiles.
  assert (Hlen : length (filter page_accepts files) <> 0)
    by (destruct (filter page_accepts files); [congruence | discriminate]).
  rewrite bool_decide_eq_false_2 in Hpage by exact Hlen.
  destruct (Service.uploadFiles _ _ _ _ _ _ evs) as [[res emitted]|] eqn:Hrun; [|discriminate].
  destruct (uploadFiles_data upload toISOString typeError (filter page_accepts files)
              (Some Home.setUploadProgress)
              (Service.mkOptions (Some 5) (Some 3)) evs res emitted
              ltac:(discriminate) ltac:(discriminate) quiet_setUploadProgress Hrun)
    as (Hsucc & _ & Hslots & Hobjects & s & Hs & Htotal & Hsuccess & Hsum).
  assert (Hdata : length (BatchResult.data res) = length (filter page_accepts files))
    by (rewrite Hslots, length_fmap; apply tasks_length).
  rewrite Hsucc in Hpage. inversion Hpage; subst st'; clear Hpage. simpl.
  assert (Hshow : Forall showable (BatchResult.data res)).
  { apply Forall_lookup. intros i v Hv.
    assert (Hi : i < length (filter page_accepts files))
      by (apply lookup_lt_Some in Hv; lia).
    destruct (lookup_lt_is_Some_2 _ i Hi) as [file Hfile].
    destruct (uploadSingleFile_showable (upload i) toISOString file 3 ltac:(lia))
      as (v' & Hv' & Hshowable).
    rewrite Hslots, list_lookup_fmap, (tasks_lookup _ _ _ _ _ _ Hfile) in Hv.
    simpl in Hv. rewrite Hv' in Hv. simpl in Hv. inversion Hv; subst v. exact Hshowable. }
  destruct (filter_results_objects _ Hobjects) as (ss & fs & Hss & Hfs & Hcount & Hsucceeded).
  split; [exact Hshow|].
  unfold HomePage.successCount, HomePage.failedCount. rewrite Hss, Hfs. simpl.
  split; [rewrite Hsucceeded; reflexivity|].
  split; [f_equal; lia|].
  split.
  - destruct (map_successes_showable (HomePage.url_of origin)
                (fun u => exists s, u = origin +:+ s /\ s <> "") (BatchResult.data res))
      as (urls & Hurls & Hlength & Hgood); [|exact Hshow|].
    + intros r _ Hsrc. destruct (url_of_showable origin r Hsrc) as (p & _ & Hne & Hurl & _).
      eauto.
    + exists urls. unfold HomePage.copyAllUrls. rewrite Hurls. auto.
  - destruct (map_successes_showable (HomePage.markdown_of origin) (fun _ => True)
                (BatchResult.data res)) as (lines & Hlines & _); [|exact Hshow|].
    + intros r _ Hsrc. destruct (url_of_showable origin r Hsrc) as (p & _ & _ & _ & Hmd).
      eauto.
    + unfold HomePage.copyMarkdownList. rewrite Hlines. eexists; reflexivity.
Qed.

Lemma page_can_show_and_copy_its_results_witness :
  exists st',
    Home.handleUpload (fun _ => reliable) stamp "TypeError" [notes; holiday]
                      [Batch.TaskSettles 0 t0] page0 = Some st'
    /\ HomePage.successCount (Home.uploadResults st') = Some (succeeded (Home.uploadResults st')).
Proof.
  destruct (Home.handleUpload (fun _ => reliable) stamp "TypeError" [notes; holiday]
              [Batch.TaskSettles 0 t0] page0) as [st'|] eqn:Hrun;
    [|vm_compute in Hrun; discriminate Hrun].
  exists st'. split; [reflexivity|].
  destruct (page_can_show_and_copy_its_results (fun _ => reliable) stamp "TypeError"
              "https://img.example" [notes; holiday] [Batch.TaskSettles 0 t0] page0 st')
    as (_ & Hcount & _).
  - vm_compute. discriminate.
  - exact Hrun.
  - exact Hcount.
Defined.

(** ** createThrottle: the rate of the calls *)

Lemma delivery_times_spaced {A : Type} (delay : Z) (evs : list (Throttle.event A)) :
  (0 <= delay)%Z ->
  forall s : Throttle.state A,
    punctual delay s evs ->
    (forall first, head (delivery_times delay s evs) = Some first ->
                   (Throttle.lastCall s + delay <= first)%Z)
    /\ spaced delay (delivery_times delay s evs).
Proof.
  intros Hdelay. induction evs as [|ev evs IH]; intros s Hpunctual; simpl.
  - split; [discriminate | exact I].
  - destruct Hpunctual as [Hev Hrest].
    destruct ev as [args now | now | ]; simpl in *.
    + (* a call *)
      unfold Throttle.throttled in *.
      destruct (decide (delay <= now - Throttle.lastCall s)%Z) as [Hdue|Hearly].
      * destruct (IH _ Hrest) as [Hfirst Hspaced]. simpl in *. split.
        -- intros first [= <-]. lia.
        -- split; [|exact Hspaced].
           destruct (delivery_times delay _ evs) as [|t' times] eqn:Htimes; [exact I|].
           apply (Hfirst t' eq_refl).
      * destruct (Throttle.timeoutId s); destruct (IH _ Hrest) as [Hfirst Hspaced];
          simpl in *; split; assumption.
    + (* the timer fires *)
      destruct (Throttle.timeoutId s) as [d|]; [|split; [discriminate | exact I]].
      unfold Throttle.timeout_callback in *.
      destruct (IH _ Hrest) as [Hfirst Hspaced]. simpl in *.
      destruct (Throttle.lastArgs s) as [args|]; simpl.
      * split.
        -- intros first [= <-]. exact Hev.
        -- split; [|exact Hspaced].
           destruct (delivery_times delay _ evs) as [|t' times] eqn:Htimes; [exact I|].
           apply (Hfirst t' eq_refl).
      * split; [|exact Hspaced].
        intros first Hfirst'. specialize (Hfirst first Hfirst'). lia.
    + (* flush *)
      unfold Throttle.flush in *.
      destruct (Throttle.lastArgs s); destruct (IH _ Hrest) as [Hfirst Hspaced];
        simpl in *; split; assumption.
Qed.

(** X24: the throttle keeps the calls of [fn] apart.  With punctual timers
    (a timer fires no earlier than it is due, and before any call made from
    then on), the calls made by the throttled function and by its timer are
    at least [delay] apart from one another, whatever the calls and flushes;
    the first of them comes no earlier than [delay] on the clock.  The calls
    made by [flush] are not counted: [flush] calls [fn] at once and does not
    record the time. *)
Theorem throttle_spaces_the_calls {A : Type} (delay : Z) (evs : list (Throttle.event A)) :
  (0 <= delay)%Z ->
  punctual delay Throttle.createThrottle evs ->
  spaced delay (delivery_times delay Throttle.createThrottle evs)
  /\ (forall first, head (delivery_times delay Throttle.createThrottle evs) = Some first ->
                    (delay <= first)%Z)
  /\ forall i t t',
       delivery_times delay Throttle.createThrottle evs !! i = Some t ->
       delivery_times delay Throttle.createThrottle evs !! S i = Some t' ->
       (t + delay <= t')%Z.
Proof.
  intros Hdelay Hpunctual.
  destruct (delivery_times_spaced delay evs Hdelay _ Hpunctual) as [Hfirst Hspaced].
  split; [exact Hspaced|]. split.
  - intros first Hhead. specialize (Hfirst first Hhead). simpl in Hfirst. lia.
  - clear Hfirst. revert Hspaced.
    generalize (delivery_times delay (@Throttle.createThrottle A) evs) as times.
    induction times as [|t0 times IH]; intros Hspaced i t t' Hi Hi'; [discriminate Hi|].
    destruct Hspaced as [Hgap Hrest]. destruct i as [|i].
    + simpl in Hi, Hi'. inversion Hi; subst t0.
      destruct times as [|t1 times]; [discriminate Hi'|].
      simpl in Hi'. inversion Hi'; subst t1. exact Hgap.
    + apply (IH Hrest i); assumption.
Qed.

Lemma throttle_spaces_the_calls_witness :
  delivery_times 100 Throttle.createThrottle
                 [Throttle.Call "a" t0; Throttle.Call "b" (t0 + 10)%Z;
                  Throttle.Call "c" (t0 + 60)%Z; Throttle.TimerFires (t0 + 100)%Z;
                  Throttle.Call "d" (t0 + 250)%Z]
  = [t0; t0 + 100; t0 + 250]%Z
  /\ spaced 100 [t0; t0 + 100; t0 + 250]%Z.
Proof.
  assert (Htimes : delivery_times 100 Throttle.createThrottle
                     [Throttle.Call "a" t0; Throttle.Call "b" (t0 + 10)%Z;
                      Throttle.Call "c" (t0 + 60)%Z; Throttle.TimerFires (t0 + 100)%Z;
                      Throttle.Call "d" (t0 + 250)%Z]
                   = [t0; t0 + 100; t0 + 250]%Z) by (vm_compute; reflexivity).
  split; [exact Htimes|]. rewrite <- Htimes.
  apply (throttle_spaces_the_calls (A := string) 100).
  - lia.
  - vm_compute. repeat split; intros; try discriminate; try lia;
      match goal with H : ex _ |- _ => destruct H as [? H]; discriminate H end.
Defined.

(** ** removeFavorite *)

(** X25: [removeFavorite c] is optimistic on both fields: before the
    request is awaited [c] has left the set of favorites and the images with
    that id have left the page.  If the request succeeds nothing more is
    written.  If it fails, whatever the store holds by then, the set and the
    page are put back exactly as the call found them, and the error
    [error.response?.data?.error || '取消收藏失败'] is stored and returned with
    [success: false]. *)
Theorem removeFavorite_is_optimistic {R : Type} (c : string)
        (st st' : FavoriteStore.state) :
  let started := FavoriteStore.removeFavorite_begin c st in
  (FavoriteStore.favorites started.2 = FavoriteStore.favorites st ∖ {[c]}
   /\ (c ∉ FavoriteStore.favorites started.2)
   /\ (forall img, img ∈ FavoriteStore.favoriteImages started.2
                   <-> img ∈ FavoriteStore.favoriteImages st /\ id img <> c)
   /\ (listed_are_favorites st -> listed_are_favorites started.2))
  /\ (forall r : R,
        FavoriteStore.removeFavorite_resume started.1 (JS.Fulfilled r) st'
        = (st', {| action_success := true; action_error := None |}))
  /\ (forall err,
        let after := FavoriteStore.removeFavorite_resume (R := R) started.1
                                                          (JS.Rejected err) st' in
        FavoriteStore.favorites after.1 = FavoriteStore.favorites st
        /\ FavoriteStore.favoriteImages after.1 = FavoriteStore.favoriteImages st
        /\ FavoriteStore.isLoading after.1 = FavoriteStore.isLoading st'
        /\ FavoriteStore.error after.1 = action_error after.2
        /\ action_error after.2
           = Some (JS.opt_or_else (JS.response_data_error err) "取消收藏失败")
        /\ action_success after.2 = false).
Proof.
  simpl. split; [|split].
  - split; [reflexivity|]. split; [|split].
    + rewrite elem_of_difference, elem_of_singleton. tauto.
    + intros img. rewrite list_elem_of_filter. tauto.
    + intros Hlisted img Himg. simpl in *.
      apply list_elem_of_filter in Himg as [Hne Hin].
      rewrite elem_of_difference, elem_of_singleton. split; [apply Hlisted, Hin | exact Hne].
  - intros r. reflexivity.
  - intros err. repeat split.
Qed.

Lemma removeFavorite_is_optimistic_witness :
  FavoriteStore.favoriteImages
    (FavoriteStore.removeFavorite_resume (R := nat)
       (FavoriteStore.removeFavorite_begin "a" two_favorites).1 (JS.Rejected server_down)
       no_favorites).1
  = FavoriteStore.favoriteImages two_favorites.
Proof.
  destruct (removeFavorite_is_optimistic (R := nat) "a" two_favorites no_favorites)
    as (_ & _ & Hfailed).
  destruct (Hfailed server_down) as (_ & Himages & _). exact Himages.
Defined.

(** ** upload: an error part of the way *)

Section UploadFailure.
Variable toLowerCase : string -> string.
Variable splitError reduceError parseError : string.
Variable fetch : nat -> nat -> Server.fetched.
Variable now : nat -> Z.
Variable c : Server.ctx.

Local Abbreviation iter2 :=
  (Server.iteration toLowerCase splitError reduceError parseError fetch now c).
Local Abbreviation loop2 :=
  (Server.loop toLowerCase splitError reduceError parseError fetch now c).

(** The loop over the entries before a given one, then over the rest. *)
Lemma loop_app earlier : forall later i kv acc,
  loop2 i (earlier ++ later) kv acc
  = match loop2 i earlier kv acc with
    | (effects, kv1, Server.Normal acc1) =>
        let '(effects', kv2, r) := loop2 (i + length earlier) later kv1 acc1 in
        (effects ++ effects', kv2, r)
    | (effects, kv1, Server.Throw e) => (effects, kv1, Server.Throw e)
    end.
Proof.
  induction earlier as [|uploadFile earlier IH]; intros later i kv acc; simpl.
  - rewrite Nat.add_0_r. destruct (loop2 i later kv acc) as [[effects kv2] r]. reflexivity.
  - destruct (iter2 i uploadFile kv) as [[effs kv1] [pushed|e]]; [|reflexivity].
    rewrite IH.
    destruct (loop2 (S i) earlier kv1 (acc ++ option_list pushed)) as [[effs1 kv2] [acc1|e]].
    + replace (S i + length earlier) with (i + S (length earlier)) by lia.
      destruct (loop2 (i + S (length earlier)) later kv2 acc1) as [[effs2 kv3] r].
      rewrite app_assoc. reflexivity.
    + reflexivity.
Qed.

End UploadFailure.

(** X26: [upload] does not undo what it has stored when a later entry makes
    it fail.  If the entries before some entry are handled without an error
    and that entry throws (a non-empty string entry, an empty photo array in
    Telegram's answer, a user list that cannot be read), the answer is 500
    with the error's message, the entries after it are not sent to Telegram,
    and the namespace still holds every key recorded for the earlier
    entries: nothing is rolled back. *)
Theorem upload_failure_keeps_earlier_entries
        (toLowerCase : string -> string) (splitError reduceError parseError : string)
        (fetch : nat -> nat -> Server.fetched) (now : nat -> Z)
        (c : Server.ctx) (kv kv1 kv2 : Server.store)
        (earlier later : list Server.entry) (failing : Server.entry)
        (effects effects' : list Server.effect) (body : list item) (e : JS.Error) :
  Server.before c = None ->
  Server.files c = earlier ++ failing :: later ->
  Server.loop toLowerCase splitError reduceError parseError fetch now c 0 earlier kv []
    = (effects, kv1, Server.Normal body) ->
  Server.iteration toLowerCase splitError reduceError parseError fetch now c
                   (length earlier) failing kv1
    = (effects', kv2, Server.Throw e) ->
  Server.upload toLowerCase splitError reduceError parseError fetch now c kv
    = (effects ++ effects', kv2, Server.Json500 (JS.message e))
  /\ kv1 = foldl (fun kv s => recorded now c s kv) kv
                 (stored_from toLowerCase reduceError fetch 0 earlier)
  /\ (Server.bound c = true ->
      forall s, s ∈ stored_from toLowerCase reduceError fetch 0 earlier ->
                is_Some (kv2 !! s.2))
  /\ (forall s, failing = Server.Text s -> kv2 = kv1 /\ effects' = []).
Proof.
  intros Hbefore Hfiles Hearlier Hfailing.
  destruct (loop_normal _ _ _ _ _ _ _ _ _ _ _ _ _ _ Hearlier) as (_ & Hkv1 & Hapart & _).
  split; [|split; [exact Hkv1|split]].
  - unfold Server.upload. rewrite Hbefore, Hfiles.
    rewrite bool_decide_eq_false_2
      by (rewrite length_app; simpl; lia).
    rewrite loop_app, Hearlier. simpl. rewrite Hfailing. reflexivity.
  - intros Hbound s Hs.
    assert (Hmarker : exists m, kv1 !! s.2 = Some (Server.Marker m)).
    { rewrite Hkv1. apply foldl_recorded_marker; [exact Hbound | |eauto].
      intros userId Huid. apply (Hapart Hbound userId s Huid Hs). }
    destruct Hmarker as [m Hm].
    pose proof (iteration_keeps_keys toLowerCase splitError reduceError parseError fetch now c
                  (length earlier) failing kv1 s.2 ltac:(rewrite Hm; eauto)) as Hkept.
    rewrite Hfailing in Hkept. exact Hkept.
  - intros s ->. unfold Server.iteration in Hfailing.
    destruct (JS.truthy s); inversion Hfailing; auto.
Qed.

Lemma upload_failure_keeps_earlier_entries_witness :
  (Server.upload ascii_lower "split" "reduce" "parse" first_only (fun _ => t0)
                 (Server.mkCtx (Some "u1") true None
                               [Server.Blob (File.mk "Cat.PNG" 2048 "image/png");
                                Server.Text "oops"])
                 empty_namespace).2
  = Server.Json500 "split"
  /\ is_Some ((Server.upload ascii_lower "split" "reduce" "parse" first_only (fun _ => t0)
                 (Server.mkCtx (Some "u1") true None
                               [Server.Blob (File.mk "Cat.PNG" 2048 "image/png");
                                Server.Text "oops"])
                 empty_namespace).1.2 !! "BQACAgUAAx.png").
Proof.
  destruct (Server.loop ascii_lower "split" "reduce" "parse" first_only (fun _ => t0)
              (Server.mkCtx (Some "u1") true None
                            [Server.Blob (File.mk "Cat.PNG" 2048 "image/png");
                             Server.Text "oops"])
              0 [Server.Blob (File.mk "Cat.PNG" 2048 "image/png")] empty_namespace [])
    as [[effects kv1] r] eqn:Hloop.
  assert (Hr : exists body, r = Server.Normal body).
  { vm_compute in Hloop. inversion Hloop. eexists; reflexivity. }
  destruct Hr as [body ->].
  destruct (upload_failure_keeps_earlier_entries
              ascii_lower "split" "reduce" "parse" first_only (fun _ => t0)
              (Server.mkCtx (Some "u1") true None
                            [Server.Blob (File.mk "Cat.PNG" 2048 "image/png");
                             Server.Text "oops"])
              empty_namespace kv1 kv1
              [Server.Blob (File.mk "Cat.PNG" 2048 "image/png")] [] (Server.Text "oops")
              effects [] body (JS.new_Error "split") eq_refl eq_refl Hloop eq_refl)
    as (Hupload & _ & Hkept & _).
  rewrite Hupload. simpl. split; [reflexivity|].
  apply (Hkept eq_refl (0, File.mk "Cat.PNG" 2048 "image/png", "BQACAgUAAx.png")).
  vm_compute. left.
Defined.
